(** * Auto Industry Gateway core: event bus, device manager, connection pool
      and the Modbus adapter's polling subscriptions

    A shallow embedding of the protocol-agnostic runtime of the gateway
    (packages/core: event-bus, device-manager, connection pool; and the
    Modbus adapter of packages/adapters/modbus), with the properties of
    its design document stated and settled against it.

    Conventions of the embedding.
    - A JavaScript call that may throw returns an [outcome]; an [Error] is
      represented by its message.
    - An [async] function is cut at its [await]s: one definition for the
      synchronous prefix that runs when the function is called, one for
      each continuation that runs when the awaited promise settles. What
      the awaited promise settles to (a socket that connects or not, a
      register read that answers or times out, the reading of the clock)
      is an input of the continuation.
    - Pooled connections, which the code shares by reference, live in a
      store and are named by their index in it; an adapter is kept in
      the registry with the number it was made under.
    - Strings are ASCII strings; a callback is a [Listener]: an identity
      and what it does (return or throw) with what it is handed. *)

From Stdlib Require Import ZArith Lia Ascii String.
From stdpp Require Import gmap strings list fin_maps.

#[local] Open Scope Z_scope.

(** ** Common data (packages/core/src/adapter/types.ts) *)

(** The result of a call: a returned value or a thrown error. For an
    [async] function, [Returned] is a fulfilled and [Threw] a rejected
    promise. *)
Inductive outcome (A : Type) : Type :=
| Returned (a : A)
| Threw (e : string).
Arguments Returned {A} a.
Arguments Threw {A} e.

Definition is_returned {A} (o : outcome A) : bool :=
  match o with Returned _ => true | Threw _ => false end.

Inductive ProtocolType := modbus | opcua | mqtt | s7.

Definition protocol_name (p : ProtocolType) : string :=
  match p with
  | modbus => "modbus" | opcua => "opcua" | mqtt => "mqtt" | s7 => "s7"
  end.

#[global] Instance ProtocolType_eq_dec : EqDecision ProtocolType.
Proof. solve_decision. Defined.

#[global] Instance ProtocolType_countable : Countable ProtocolType.
Proof.
  refine (inj_countable'
    (fun p => match p with modbus => 0%nat | opcua => 1%nat | mqtt => 2%nat | s7 => 3%nat end)
    (fun n => match n with 0%nat => modbus | 1%nat => opcua | 2%nat => mqtt | _ => s7 end) _).
  intros []; reflexivity.
Defined.

(** [DeviceValue]; numbers are integers here (register contents), and
    [VUndefined] is what indexing past the end of an array gives. *)
#[warnings="-register-all"]
Inductive DeviceValue :=
| VBool (b : bool)
| VNum (n : Z)
| VStr (s : string)
| VBuf (bytes : list Z)
| VArr (items : list DeviceValue)
| VObj (fields : list (string * DeviceValue))
| VUndefined.

Inductive DeviceConnectionStatus :=
| disconnected | connecting | connected | error | reconnecting.

Inductive DataQuality := good | bad | uncertain.

Record ReconnectConfig := {
  rc_enabled : bool;
  maxAttempts : Z;
  initialDelayMs : Z;
  maxDelayMs : Z;
  backoffMultiplier : Z;
}.

(** [DeviceConfig], with the connection coordinates that
    [ModbusTcpConfig] adds to it. *)
Record DeviceConfig := {
  deviceId : string;
  protocol : ProtocolType;
  name : option string;
  enabled : option bool;
  reconnect : option ReconnectConfig;
  timeout : option Z;
  host : string;
  port : Z;
  unitId : Z;
}.

Record DataChangeEvent := {
  ev_deviceId : string;
  ev_address : string;
  ev_value : DeviceValue;
  ev_timestamp : Z;
  ev_quality : option DataQuality;
}.

Record DeviceMetrics := {
  readCount : Z;
  writeCount : Z;
  errorCount : Z;
  totalLatency : Z;
  lastLatency : Z;
}.

(** What an event carries. The bus stamps error and status events with
    [new Date()], taken here as an input of the emitting call. *)
Inductive payload :=
| PData (e : DataChangeEvent)
| PError (device : string) (err : string) (timestamp : Z)
| PStatus (device : string) (status : string) (timestamp : Z).

(** A callback: who it is, and whether it returns or throws on what it
    is handed. *)
Record Listener := {
  cb_id : nat;
  cb_run : payload -> outcome unit;
}.

(** A callback that returns normally, and one that throws. *)
Definition quiet (n : nat) : Listener :=
  {| cb_id := n; cb_run := fun _ => Returned tt |}.
Definition faulty (n : nat) (e : string) : Listener :=
  {| cb_id := n; cb_run := fun _ => Threw e |}.

(** ** Event bus (packages/core/src/event-bus) *)

Module EventBus.

(** The bus is a Node [EventEmitter]: per event name, the listeners in
    registration order ([setMaxListeners] only moves the threshold of a
    warning). [published] is the history of [emit] calls, kept only to
    state what was published. A callback is taken not to register or
    remove listeners while it runs. *)
Record t := {
  listeners : gmap string (list Listener);
  eventCount : Z;
  published : list (string * payload);
}.

Definition create : t :=
  {| listeners := ∅; eventCount := 0; published := [] |}.

(** What an [emit] did: the bus afterwards, the callbacks it invoked
    (in order) and its result. *)
Record emitted := {
  bus_after : t;
  delivered : list nat;
  result : outcome bool;
}.

Definition listenersOf (bus : t) (name : string) : list Listener :=
  default [] (listeners bus !! name).

(** [EventEmitter.on]: appends to the listener array of [name]. *)
Definition on (name : string) (cb : Listener) (bus : t) : t :=
  {| listeners := <[name := listenersOf bus name ++ [cb]]> (listeners bus);
     eventCount := eventCount bus;
     published := published bus |}.

(** [EventEmitter.off]: removes the most recently added instance of
    the callback from the listener array of [name]. *)
Fixpoint remove_first (id : nat) (l : list Listener) : list Listener :=
  match l with
  | [] => []
  | c :: rest => if Nat.eqb (cb_id c) id then rest else c :: remove_first id rest
  end.

Definition remove_last (id : nat) (l : list Listener) : list Listener :=
  rev (remove_first id (rev l)).

Definition off (name : string) (cb : Listener) (bus : t) : t :=
  {| listeners := <[name := remove_last (cb_id cb) (listenersOf bus name)]> (listeners bus);
     eventCount := eventCount bus;
     published := published bus |}.

(** The loop of [EventEmitter.emit] over the listener array: each
    listener is called synchronously, in order; a listener that throws
    ends the loop, and the exception leaves [emit]. *)
Fixpoint call_listeners (ls : list Listener) (p : payload) : list nat * outcome bool :=
  match ls with
  | [] => ([], Returned true)
  | c :: rest =>
      match cb_run c p with
      | Threw e => ([cb_id c], Threw e)
      | Returned _ =>
          let '(d, r) := call_listeners rest p in (cb_id c :: d, r)
      end
  end.

(** [EventEmitter.emit]: false when the event has no listener, except
    for ["error"], which then throws. *)
Definition emit (name : string) (p : payload) (bus : t) : emitted :=
  let bus' := {| listeners := listeners bus;
                 eventCount := eventCount bus;
                 published := published bus ++ [(name, p)] |} in
  match listenersOf bus name with
  | [] =>
      {| bus_after := bus'; delivered := [];
         result := if String.eqb name "error"
                   then Threw "Unhandled error." else Returned false |}
  | ls =>
      let '(d, r) := call_listeners ls p in
      {| bus_after := bus'; delivered := d; result := r |}
  end.

Definition exactScope (e : DataChangeEvent) : string :=
  "data:" +:+ ev_deviceId e +:+ ":" +:+ ev_address e.
Definition deviceScope (e : DataChangeEvent) : string :=
  "data:" +:+ ev_deviceId e.
Definition globalScope : string := "data".

(** [a || b]: [b] is evaluated only when [a] returned false. *)
Definition orElse (a : emitted) (b : t -> emitted) : emitted :=
  match result a with
  | Returned false =>
      let r := b (bus_after a) in
      {| bus_after := bus_after r;
         delivered := delivered a ++ delivered r;
         result := result r |}
  | _ => a
  end.

Definition emitData (event : DataChangeEvent) (bus : t) : emitted :=
  let bus1 := {| listeners := listeners bus;
                 eventCount := eventCount bus + 1;
                 published := published bus |} in
  orElse (emit (exactScope event) (PData event) bus1) (fun b =>
  orElse (emit (deviceScope event) (PData event) b) (fun b =>
  emit globalScope (PData event) b)).

Definition onData (device : string) (cb : Listener) : t -> t :=
  on ("data:" +:+ device) cb.
Definition onDataAddress (device address : string) (cb : Listener) : t -> t :=
  on ("data:" +:+ device +:+ ":" +:+ address) cb.
Definition onAllData (cb : Listener) : t -> t :=
  on "data" cb.
Definition offData (device : string) (cb : Listener) : t -> t :=
  off ("data:" +:+ device) cb.

Definition emitError (device err : string) (now : Z) : t -> emitted :=
  emit "error" (PError device err now).
Definition onError (cb : Listener) : t -> t := on "error" cb.

Definition emitStatus (device status : string) (now : Z) : t -> emitted :=
  emit "status" (PStatus device status now).
Definition onStatus (cb : Listener) : t -> t := on "status" cb.

End EventBus.

(** ** The adapter contract (packages/core/src/adapter) *)

(** [ProtocolAdapter]: what the device manager uses of an adapter. An
    asynchronous method is given from its call to the settling of its
    promise; [Link] and [Reply] are what the transport contributes to a
    connection attempt and to a request. [onError] is an optional
    method; the callback the manager hands it is the closure
    [(error) => eventBus.emitError(deviceId, error)], given by the
    [deviceId] it captured. *)
Class ProtocolAdapter (A Link Reply : Type) := {
  adapter_connect : DeviceConfig -> Link -> A -> A * outcome unit;
  adapter_disconnect : A -> A * outcome unit;
  adapter_isConnected : A -> bool;
  adapter_read : string -> Reply -> A -> A * outcome DeviceValue;
  adapter_write : string -> DeviceValue -> Reply -> A -> A * outcome unit;
  adapter_subscribe : string -> Listener -> A -> A * outcome unit;
  adapter_unsubscribe : string -> A -> A * outcome unit;
  adapter_onError : option (string -> A -> A);
}.

(** ** Modbus adapter (packages/adapters/modbus/src/modbus-adapter.ts) *)

Module Modbus.

Inductive ModbusAddressType := coil | discrete | holding | input.

Definition type_name (t : ModbusAddressType) : string :=
  match t with
  | coil => "coil" | discrete => "discrete"
  | holding => "holding" | input => "input"
  end.

(** [quantity] is a JavaScript number: [None] stands for [NaN]. *)
Record ModbusAddress := {
  type : ModbusAddressType;
  address : Z;
  quantity : option Z;
}.

(** *** String primitives used by [parseModbusAddress] *)

Definition code (c : ascii) : Z := Z.of_nat (nat_of_ascii c).

Definition upper (c : ascii) : ascii :=
  if (97 <=? code c) && (code c <=? 122)
  then ascii_of_nat (nat_of_ascii c - 32) else c.

Fixpoint toUpperCase (s : string) : string :=
  match s with
  | EmptyString => EmptyString
  | String c r => String (upper c) (toUpperCase r)
  end.

(** [s.split(sep)] for a one-character separator: never empty. *)
Fixpoint split (sep : ascii) (s : string) : list string :=
  match s with
  | EmptyString => [EmptyString]
  | String c r =>
      if Ascii.eqb c sep then EmptyString :: split sep r
      else match split sep r with
           | [] => [String c EmptyString]
           | p :: ps => String c p :: ps
           end
  end.

Definition startsWith (p s : string) : bool := String.prefix p s.

Definition is_space (c : ascii) : bool :=
  (code c =? 9) || (code c =? 10) || (code c =? 11)
  || (code c =? 12) || (code c =? 13) || (code c =? 32).

Fixpoint skip_spaces (s : string) : string :=
  match s with
  | String c r => if is_space c then skip_spaces r else s
  | EmptyString => s
  end.

Definition digit (c : ascii) : option Z :=
  if (48 <=? code c) && (code c <=? 57) then Some (code c - 48) else None.

(** The longest prefix of decimal digits, as a number; [acc] is what
    was read so far ([None]: no digit yet). *)
Fixpoint digits (s : string) (acc : option Z) : option Z :=
  match s with
  | EmptyString => acc
  | String c r =>
      match digit c with
      | Some d => digits r (Some (10 * default 0 acc + d))
      | None => acc
      end
  end.

(** [parseInt(s, 10)]; [None] is [NaN]. *)
Definition parseInt (s : string) : option Z :=
  let s := skip_spaces s in
  let '(negative, body) :=
    match s with
    | String "-" r => (true, r)
    | String "+" r => (false, r)
    | _ => (false, s)
    end in
  match digits body None with
  | Some n => Some (if negative then - n else n)
  | None => None
  end.

(** [parseInt] of an array element that may be missing: [undefined]
    is converted to the string "undefined", which has no digit. *)
Definition parseIntAt (parts : list string) (i : nat) : option Z :=
  match parts !! i with
  | Some s => parseInt s
  | None => None
  end.

Definition parseModbusAddress (addr : string) : outcome ModbusAddress :=
  let parts := split ":" (toUpperCase addr) in
  let typeStr := default EmptyString (parts !! 0%nat) in
  let type : outcome ModbusAddressType :=
    if String.eqb typeStr "C" || String.eqb typeStr "COIL" || String.eqb typeStr "0X"
    then Returned coil
    else if String.eqb typeStr "DI" || String.eqb typeStr "DISCRETE" || String.eqb typeStr "1X"
    then Returned discrete
    else if String.eqb typeStr "HR" || String.eqb typeStr "HOLDING" || String.eqb typeStr "4X"
    then Returned holding
    else if String.eqb typeStr "IR" || String.eqb typeStr "INPUT" || String.eqb typeStr "3X"
    then Returned input
    else if startsWith "0" addr then Returned coil
    else if startsWith "1" addr then Returned discrete
    else if startsWith "3" addr then Returned input
    else if startsWith "4" addr then Returned holding
    else Threw ("Unknown Modbus address type: " +:+ typeStr) in
  match type with
  | Threw e => Threw e
  | Returned ty =>
      match parseIntAt parts 1 with
      | None =>
          Threw ("Invalid Modbus address: "
                 +:+ default "undefined" (parts !! 1%nat))
      | Some a =>
          let quantity :=
            match parts !! 2%nat with
            | None | Some EmptyString => Some 1
            | Some q => parseInt q
            end in
          Returned {| type := ty; address := a; quantity := quantity |}
      end
  end.

(** [modbusAddr.quantity || 1]: zero and [NaN] are falsy. *)
Definition quantityOr1 (m : ModbusAddress) : Z :=
  match quantity m with
  | Some q => if q =? 0 then 1 else q
  | None => 1
  end.


(** *** The adapter object *)

(** [socket] and [client] hold whether the field is not [null];
    [subscriptions] maps an address to the handle of its interval timer. *)
Record ModbusAdapter := {
  socket : bool;
  client : bool;
  config : option DeviceConfig;
  subscriptions : gmap string nat;
  subscriptionCallbacks : gmap string Listener;
  connectionStatus : DeviceConnectionStatus;
  lastError : option string;
  metrics : DeviceMetrics;
}.

Definition fresh : ModbusAdapter :=
  {| socket := false; client := false; config := None;
     subscriptions := ∅; subscriptionCallbacks := ∅;
     connectionStatus := disconnected; lastError := None;
     metrics := {| readCount := 0; writeCount := 0; errorCount := 0;
                   totalLatency := 0; lastLatency := 0 |} |}.

Definition set_metrics (m : DeviceMetrics) (a : ModbusAdapter) : ModbusAdapter :=
  {| socket := socket a; client := client a; config := config a;
     subscriptions := subscriptions a;
     subscriptionCallbacks := subscriptionCallbacks a;
     connectionStatus := connectionStatus a; lastError := lastError a;
     metrics := m |}.

Definition set_subscriptions (s : gmap string nat) (c : gmap string Listener)
    (a : ModbusAdapter) : ModbusAdapter :=
  {| socket := socket a; client := client a; config := config a;
     subscriptions := s; subscriptionCallbacks := c;
     connectionStatus := connectionStatus a; lastError := lastError a;
     metrics := metrics a |}.

(** [this.metrics.errorCount++] *)
Definition count_error (m : DeviceMetrics) : DeviceMetrics :=
  {| readCount := readCount m; writeCount := writeCount m;
     errorCount := errorCount m + 1;
     totalLatency := totalLatency m; lastLatency := lastLatency m |}.

(** The "Update metrics" block of [read]. *)
Definition count_read (latency : Z) (m : DeviceMetrics) : DeviceMetrics :=
  {| readCount := readCount m + 1; writeCount := writeCount m;
     errorCount := errorCount m;
     totalLatency := totalLatency m + latency; lastLatency := latency |}.

(** The "Update metrics" block of [write]. *)
Definition count_write (latency : Z) (m : DeviceMetrics) : DeviceMetrics :=
  {| readCount := readCount m; writeCount := writeCount m + 1;
     errorCount := errorCount m;
     totalLatency := totalLatency m + latency; lastLatency := latency |}.

(** How the connection attempt ends: the socket's connect callback
    fires, or its error event or the timeout rejects, or loading the
    driver ([require]) throws before a socket is made. *)
Inductive Link :=
| LinkUp
| LinkFailed (e : string)
| DriverMissing (e : string).

(** [connect], from the call to the settling of its promise. *)
Definition connect (cfg : DeviceConfig) (link : Link) (a : ModbusAdapter)
    : ModbusAdapter * outcome unit :=
  match link with
  | LinkUp =>
      ({| socket := true; client := true; config := Some cfg;
          subscriptions := subscriptions a;
          subscriptionCallbacks := subscriptionCallbacks a;
          connectionStatus := connected; lastError := None;
          metrics := metrics a |}, Returned tt)
  | LinkFailed e =>
      ({| socket := true; client := true; config := Some cfg;
          subscriptions := subscriptions a;
          subscriptionCallbacks := subscriptionCallbacks a;
          connectionStatus := error; lastError := Some e;
          metrics := count_error (metrics a) |}, Threw e)
  | DriverMissing e =>
      ({| socket := socket a; client := client a; config := Some cfg;
          subscriptions := subscriptions a;
          subscriptionCallbacks := subscriptionCallbacks a;
          connectionStatus := error; lastError := Some e;
          metrics := count_error (metrics a) |}, Threw e)
  end.

Definition isConnected (a : ModbusAdapter) : bool :=
  match connectionStatus a with
  | connected => socket a
  | _ => false
  end.

(** How the client's request ends, as far as the adapter looks at it:
    the promise rejects ([Threw]), or it resolves with a response
    whose [response.body.values] is an array ([Some]) or is not
    there, [undefined] ([None]). (A response without [response.body]
    makes [read] throw where a rejection does, before the metrics are
    updated, and is taken with [Threw].) *)
Definition Answer : Type := outcome (option (list DeviceValue)).

(** What the device answers to one request, with the two readings of
    the clock ([Date.now()]) around it. *)
Record Reply := {
  t_start : Z;
  t_end : Z;
  answer : Answer;
}.

(** The [TypeError] of [values[0]] and of [Array.from(values)] on
    [undefined] (the messages are those of V8). *)
Definition noValues (quantity : Z) : string :=
  if quantity =? 1
  then "Cannot read properties of undefined (reading '0')"
  else "undefined is not iterable (cannot read property Symbol(Symbol.iterator))".

(** [read] up to its [await]: the guard and the address parsing, both
    outside the [try]. *)
Definition read_begin (addr : string) (a : ModbusAdapter) : outcome ModbusAddress :=
  if negb (isConnected a) || negb (client a)
  then Threw "Not connected to device"
  else parseModbusAddress addr.

(** [write] has the same guard and parsing before its [try]. *)
Definition write_begin (addr : string) (a : ModbusAdapter) : outcome ModbusAddress :=
  if negb (isConnected a) || negb (client a)
  then Threw "Not connected to device"
  else parseModbusAddress addr.

(** [read] from the settling of the client's promise on. The "Update
    metrics" block runs as soon as the response is there; the value is
    taken from [values] after it, still inside the [try], so that a
    response without [values] is counted as a read and as an error. *)
Definition read_end (m : ModbusAddress) (r : Reply) (a : ModbusAdapter)
    : ModbusAdapter * outcome DeviceValue :=
  match answer r with
  | Returned values =>
      let counted := count_read (t_end r - t_start r) (metrics a) in
      match values with
      | Some vs =>
          (set_metrics counted a,
           Returned (if quantityOr1 m =? 1
                     then default VUndefined (vs !! 0%nat)
                     else VArr vs))
      | None =>
          (set_metrics (count_error counted) a, Threw (noValues (quantityOr1 m)))
      end
  | Threw e => (set_metrics (count_error (metrics a)) a, Threw e)
  end.

Definition read (addr : string) (r : Reply) (a : ModbusAdapter)
    : ModbusAdapter * outcome DeviceValue :=
  match read_begin addr a with
  | Threw e => (a, Threw e)
  | Returned m => read_end m r a
  end.

(** [write]. Which value is sent ([Boolean(value)], or the number or
    [parseInt(String(value), 10)]) only shapes the request that the
    device answers; the adapter keeps nothing of it. *)
Definition write (addr : string) (value : DeviceValue) (r : Reply)
    (a : ModbusAdapter) : ModbusAdapter * outcome unit :=
  match write_begin addr a with
  | Threw e => (a, Threw e)
  | Returned m =>
      match type m with
      | coil | holding =>
          match answer r with
          | Returned _ =>
              (set_metrics (count_write (t_end r - t_start r) (metrics a)) a,
               Returned tt)
          | Threw e => (set_metrics (count_error (metrics a)) a, Threw e)
          end
      | t =>
          (set_metrics (count_error (metrics a)) a,
           Threw ("Cannot write to " +:+ type_name t +:+ " address"))
      end
  end.

(** *** Subscriptions: the adapter with the timers of the event loop *)

(** An interval timer made by [subscribe]: the address and callback its
    closure captured, and its period. *)
Record Interval := {
  iv_address : string;
  iv_callback : Listener;
  iv_period : Z;
}.

(** A read that a tick issued to the client and that is not answered
    yet. *)
Record PendingRead := {
  pr_address : string;
  pr_request : ModbusAddress;
  pr_start : Z;
  pr_callback : Listener;
}.

(** The adapter in its event loop. [timers] are the active interval
    timers; [notified] lists the callback invocations, oldest first;
    [unhandled] the rejections of tick handlers, which nothing awaits. *)
Record System := {
  self : ModbusAdapter;
  timers : gmap nat Interval;
  nextTimer : nat;
  inflight : list PendingRead;
  notified : list (nat * DataChangeEvent);
  unhandled : list string;
}.

Definition boot (a : ModbusAdapter) : System :=
  {| self := a; timers := ∅; nextTimer := 0%nat; inflight := [];
     notified := []; unhandled := [] |}.

Definition set_self (a : ModbusAdapter) (s : System) : System :=
  {| self := a; timers := timers s; nextTimer := nextTimer s;
     inflight := inflight s; notified := notified s;
     unhandled := unhandled s |}.

(** [options?.interval || 1000] *)
Definition intervalOr1000 (interval : option Z) : Z :=
  match interval with
  | Some i => if i =? 0 then 1000 else i
  | None => 1000
  end.

Definition subscribe (addr : string) (callback : Listener) (interval : option Z)
    (s : System) : System * outcome unit :=
  match subscriptions (self s) !! addr with
  | Some _ => (s, Threw ("Already subscribed to " +:+ addr))
  | None =>
      let timer := nextTimer s in
      ({| self := set_subscriptions
                    (<[addr := timer]> (subscriptions (self s)))
                    (<[addr := callback]> (subscriptionCallbacks (self s)))
                    (self s);
          timers := <[timer := {| iv_address := addr; iv_callback := callback;
                                  iv_period := intervalOr1000 interval |}]>
                      (timers s);
          nextTimer := S timer;
          inflight := inflight s; notified := notified s;
          unhandled := unhandled s |}, Returned tt)
  end.

Definition unsubscribe (addr : string) (s : System) : System :=
  match subscriptions (self s) !! addr with
  | Some timer =>
      {| self := set_subscriptions
                   (delete addr (subscriptions (self s)))
                   (delete addr (subscriptionCallbacks (self s)))
                   (self s);
         timers := delete timer (timers s);
         nextTimer := nextTimer s;
         inflight := inflight s; notified := notified s;
         unhandled := unhandled s |}
  | None => s
  end.

(** [clearInterval] on each handle of a list. *)
Definition clearAll (handles : list nat) (t : gmap nat Interval) : gmap nat Interval :=
  foldr (fun h acc => delete h acc) t handles.

Definition disconnect (s : System) : System :=
  let a := self s in
  {| self := {| socket := false;
                client := if socket a then false else client a;
                config := config a;
                subscriptions := ∅; subscriptionCallbacks := ∅;
                connectionStatus := disconnected;
                lastError := lastError a; metrics := metrics a |};
     timers := clearAll (snd <$> map_to_list (subscriptions a)) (timers s);
     nextTimer := nextTimer s;
     inflight := inflight s; notified := notified s;
     unhandled := unhandled s |}.

(** [this.config?.deviceId || 'unknown'] *)
Definition deviceIdOrUnknown (a : ModbusAdapter) : string :=
  match config a with
  | Some c => if String.eqb (deviceId c) "" then "unknown" else deviceId c
  | None => "unknown"
  end.

Definition goodEvent (a : ModbusAdapter) (addr : string) (v : DeviceValue) (now : Z)
    : DataChangeEvent :=
  {| ev_deviceId := deviceIdOrUnknown a; ev_address := addr; ev_value := v;
     ev_timestamp := now; ev_quality := Some good |}.

Definition badEvent (a : ModbusAdapter) (addr : string) (now : Z) : DataChangeEvent :=
  {| ev_deviceId := deviceIdOrUnknown a; ev_address := addr; ev_value := VNum 0;
     ev_timestamp := now; ev_quality := Some bad |}.

(** The [catch] branch of the tick handler: the callback gets the
    degraded event; if it throws, the handler's promise rejects. *)
Definition notifyBad (cb : Listener) (addr : string) (now : Z) (s : System) : System :=
  let e := badEvent (self s) addr now in
  {| self := self s; timers := timers s; nextTimer := nextTimer s;
     inflight := inflight s;
     notified := notified s ++ [(cb_id cb, e)];
     unhandled := match cb_run cb (PData e) with
                  | Threw err => unhandled s ++ [err]
                  | Returned _ => unhandled s
                  end |}.

(** The [try] branch after a successful read: the callback gets the
    value; if it throws, control passes to the [catch] branch. *)
Definition notifyGood (cb : Listener) (addr : string) (v : DeviceValue) (now : Z)
    (s : System) : System :=
  let e := goodEvent (self s) addr v now in
  let s' := {| self := self s; timers := timers s; nextTimer := nextTimer s;
               inflight := inflight s;
               notified := notified s ++ [(cb_id cb, e)];
               unhandled := unhandled s |} in
  match cb_run cb (PData e) with
  | Threw _ => notifyBad cb addr now s'
  | Returned _ => s'
  end.

(** The interval timer [timer] fires at time [now]: its handler calls
    [this.read(address)]. A cleared timer does not fire. *)
Definition tick (timer : nat) (now : Z) (s : System) : System :=
  match timers s !! timer with
  | None => s
  | Some iv =>
      match read_begin (iv_address iv) (self s) with
      | Threw _ => notifyBad (iv_callback iv) (iv_address iv) now s
      | Returned m =>
          {| self := self s; timers := timers s; nextTimer := nextTimer s;
             inflight := inflight s ++
               [{| pr_address := iv_address iv; pr_request := m;
                   pr_start := now; pr_callback := iv_callback iv |}];
             notified := notified s; unhandled := unhandled s |}
      end
  end.

(** The client answers the [i]-th read in flight: [read] resumes, then
    the tick handler that awaited it. [t_start] of the reply is not
    used: the read's start time was taken when it was issued. *)
Definition readDone (i : nat) (ans : Answer) (now : Z)
    (s : System) : System :=
  match inflight s !! i with
  | None => s
  | Some p =>
      let '(a', res) :=
        read_end (pr_request p)
                 {| t_start := pr_start p; t_end := now; answer := ans |}
                 (self s) in
      let s' := {| self := a'; timers := timers s; nextTimer := nextTimer s;
                   inflight := take i (inflight s) ++ drop (S i) (inflight s);
                   notified := notified s; unhandled := unhandled s |} in
      match res with
      | Returned v => notifyGood (pr_callback p) (pr_address p) v now s'
      | Threw _ => notifyBad (pr_callback p) (pr_address p) now s'
      end
  end.

(** [onError] keeps nothing of the callback ("Error handling through
    socket events"). *)
Definition onError (hook : string) (s : System) : System := s.

(** What can happen to the adapter, and a run through a list of these. *)
Inductive Event :=
| EConnect (cfg : DeviceConfig) (link : Link)
| ESubscribe (addr : string) (callback : Listener) (interval : option Z)
| EUnsubscribe (addr : string)
| EDisconnect
| ETick (timer : nat) (now : Z)
| EReadDone (i : nat) (ans : Answer) (now : Z).

Definition step (s : System) (e : Event) : System :=
  match e with
  | EConnect cfg link => set_self (fst (connect cfg link (self s))) s
  | ESubscribe addr cb interval => fst (subscribe addr cb interval s)
  | EUnsubscribe addr => unsubscribe addr s
  | EDisconnect => disconnect s
  | ETick timer now => tick timer now s
  | EReadDone i ans now => readDone i ans now s
  end.

Definition run (s : System) (es : list Event) : System := foldl step s es.

(** The active timers polling [addr]. *)
Definition timersFor (addr : string) (s : System) : list nat :=
  fst <$> filter (fun '(_, iv) => iv_address iv = addr) (map_to_list (timers s)).

End Modbus.

#[global] Instance ModbusAdapter_contract
    : ProtocolAdapter Modbus.System Modbus.Link Modbus.Reply := {|
  adapter_connect cfg link s :=
    let '(a, r) := Modbus.connect cfg link (Modbus.self s) in (Modbus.set_self a s, r);
  adapter_disconnect s := (Modbus.disconnect s, Returned tt);
  adapter_isConnected s := Modbus.isConnected (Modbus.self s);
  adapter_read addr reply s :=
    let '(a, r) := Modbus.read addr reply (Modbus.self s) in (Modbus.set_self a s, r);
  adapter_write addr v reply s :=
    let '(a, r) := Modbus.write addr v reply (Modbus.self s) in (Modbus.set_self a s, r);
  adapter_subscribe addr cb s := Modbus.subscribe addr cb None s;
  adapter_unsubscribe addr s := (Modbus.unsubscribe addr s, Returned tt);
  adapter_onError := Some Modbus.onError;
|}.

(** ** Device manager (packages/core/src/device-manager) *)

Module DeviceManager.

Section Manager.

Context {A Link Reply : Type} `{ProtocolAdapter A Link Reply}.

(** The registry. An adapter object is kept with the number it was made
    under ([made] counts the objects the factories returned), so that two
    adapters are told apart; a factory is given by the adapter it
    returns. The bus is the process-wide [eventBus]. *)
Record t := {
  adapters : gmap string (nat * A);
  factories : gmap ProtocolType A;
  configs : gmap string DeviceConfig;
  bus : EventBus.t;
  made : nat;
}.

Definition create : t :=
  {| adapters := ∅; factories := ∅; configs := ∅;
     bus := EventBus.create; made := 0%nat |}.

Definition set_adapters (m : gmap string (nat * A)) (dm : t) : t :=
  {| adapters := m; factories := factories dm; configs := configs dm;
     bus := bus dm; made := made dm |}.

Definition set_bus (b : EventBus.t) (dm : t) : t :=
  {| adapters := adapters dm; factories := factories dm; configs := configs dm;
     bus := b; made := made dm |}.

Definition registerProtocol (p : ProtocolType) (factory : A) (dm : t) : t :=
  {| adapters := adapters dm; factories := <[p := factory]> (factories dm);
     configs := configs dm; bus := bus dm; made := made dm |}.

Definition addDeviceConfig (cfg : DeviceConfig) (dm : t) : t * outcome unit :=
  if String.eqb (deviceId cfg) ""
  then (dm, Threw "Device ID is required")
  else ({| adapters := adapters dm; factories := factories dm;
           configs := <[deviceId cfg := cfg]> (configs dm);
           bus := bus dm; made := made dm |}, Returned tt).

Definition removeDeviceConfig (id : string) (dm : t) : t :=
  {| adapters := adapters dm; factories := factories dm;
     configs := delete id (configs dm); bus := bus dm; made := made dm |}.

(** How far a call of [connectDevice] gets before it first awaits:
    either its promise is settled at once (the registered adapter, by
    its number, or an error), or [adapter.connect(config)] has been
    called on a newly made adapter. *)
Inductive began :=
| Settled (r : outcome nat)
| Connecting (obj : nat) (adapter : A) (cfg : DeviceConfig).

Definition connectDevice_begin (id : string) (dm : t) : t * began :=
  match configs dm !! id with
  | None => (dm, Settled (Threw ("Device configuration not found: " +:+ id)))
  | Some cfg =>
      match adapters dm !! id with
      | Some (n, existing) =>
          if adapter_isConnected existing then (dm, Settled (Returned n))
          else
            match factories dm !! protocol cfg with
            | None => (dm, Settled (Threw ("Protocol not registered: "
                                           +:+ protocol_name (protocol cfg))))
            | Some factory =>
                ({| adapters := adapters dm; factories := factories dm;
                    configs := configs dm; bus := bus dm; made := S (made dm) |},
                 Connecting (made dm) factory cfg)
            end
      | None =>
          match factories dm !! protocol cfg with
          | None => (dm, Settled (Threw ("Protocol not registered: "
                                         +:+ protocol_name (protocol cfg))))
          | Some factory =>
              ({| adapters := adapters dm; factories := factories dm;
                  configs := configs dm; bus := bus dm; made := S (made dm) |},
               Connecting (made dm) factory cfg)
          end
      end
  end.

(** [adapter.onError?.(...)] *)
Definition installErrorHook (id : string) (a : A) : A :=
  match adapter_onError with
  | Some onError => onError id a
  | None => a
  end.

(** [connectDevice] from the settling of [adapter.connect(config)] on. *)
Definition connectDevice_resume (id : string) (obj : nat) (adapter : A)
    (cfg : DeviceConfig) (link : Link) (now : Z) (dm : t)
    : t * outcome nat :=
  match adapter_connect cfg link adapter with
  | (_, Threw e) => (dm, Threw e)
  | (a, Returned _) =>
      let a' := installErrorHook id a in
      let sent := EventBus.emitStatus id "connected" now (bus dm) in
      (set_bus (EventBus.bus_after sent)
               (set_adapters (<[id := (obj, a')]> (adapters dm)) dm),
       match EventBus.result sent with
       | Threw e => Threw e
       | Returned _ => Returned obj
       end)
  end.

(** [connectDevice] from its call to its settling, when nothing else
    runs in between. *)
Definition connectDevice (id : string) (link : Link) (now : Z) (dm : t)
    : t * outcome nat :=
  match connectDevice_begin id dm with
  | (dm', Settled r) => (dm', r)
  | (dm', Connecting obj a cfg) => connectDevice_resume id obj a cfg link now dm'
  end.

(** [disconnectDevice], from its call to its settling. *)
Definition disconnectDevice (id : string) (now : Z) (dm : t) : t * outcome unit :=
  match adapters dm !! id with
  | None => (dm, Returned tt)
  | Some (n, a) =>
      match adapter_disconnect a with
      | (a', Threw e) => (set_adapters (<[id := (n, a')]> (adapters dm)) dm, Threw e)
      | (_, Returned _) =>
          let sent := EventBus.emitStatus id "disconnected" now (bus dm) in
          (set_bus (EventBus.bus_after sent)
                   (set_adapters (delete id (adapters dm)) dm),
           match EventBus.result sent with
           | Threw e => Threw e
           | Returned _ => Returned tt
           end)
      end
  end.

Definition getAdapter (id : string) (dm : t) : option (nat * A) :=
  adapters dm !! id.

Definition isConnected (id : string) (dm : t) : bool :=
  match adapters dm !! id with
  | Some (_, a) => adapter_isConnected a
  | None => false
  end.

(** A holder of the adapter registered under [id] (it was returned by
    [connectDevice] or [getAdapter]) calls a method on it, or the
    adapter changes by itself (its connection drops): the object in the
    registry is the one that changes. *)
Definition onAdapter (id : string) (f : A -> A) (dm : t) : t :=
  set_adapters (alter (fun '(n, a) => (n, f a)) id (adapters dm)) dm.

(** [read] and [write], from call to settling. *)
Definition read (id addr : string) (reply : Reply) (dm : t)
    : t * outcome DeviceValue :=
  match adapters dm !! id with
  | None => (dm, Threw ("Device not connected: " +:+ id))
  | Some (n, a) =>
      let '(a', r) := adapter_read addr reply a in
      (set_adapters (<[id := (n, a')]> (adapters dm)) dm, r)
  end.

Definition write (id addr : string) (value : DeviceValue) (reply : Reply)
    (dm : t) : t * outcome unit :=
  match adapters dm !! id with
  | None => (dm, Threw ("Device not connected: " +:+ id))
  | Some (n, a) =>
      let '(a', r) := adapter_write addr value reply a in
      (set_adapters (<[id := (n, a')]> (adapters dm)) dm, r)
  end.

Definition subscribe (id addr : string) (callback : Listener) (dm : t)
    : t * outcome unit :=
  match adapters dm !! id with
  | None => (dm, Threw ("Device not connected: " +:+ id))
  | Some (n, a) =>
      let '(a', r) := adapter_subscribe addr callback a in
      (set_adapters (<[id := (n, a')]> (adapters dm)) dm, r)
  end.

Definition unsubscribe (id addr : string) (dm : t) : t * outcome unit :=
  match adapters dm !! id with
  | None => (dm, Threw ("Device not connected: " +:+ id))
  | Some (n, a) =>
      let '(a', r) := adapter_unsubscribe addr a in
      (set_adapters (<[id := (n, a')]> (adapters dm)) dm, r)
  end.

(** *** Calls of [connectDevice] in the event loop *)

(** A connection attempt in flight: [adapter.connect] was called and
    has not settled. *)
Record Attempt := {
  at_device : string;
  at_obj : nat;
  at_adapter : A;
  at_config : DeviceConfig;
}.

(** The manager with the attempts in flight and what the calls of
    [connectDevice] have settled to so far, oldest first. *)
Record Loop := {
  manager : t;
  connecting : list Attempt;
  settled : list (string * outcome nat);
}.

Definition start (dm : t) : Loop :=
  {| manager := dm; connecting := []; settled := [] |}.

(** A caller invokes [connectDevice(id)]. *)
Definition call (id : string) (l : Loop) : Loop :=
  match connectDevice_begin id (manager l) with
  | (dm, Settled r) =>
      {| manager := dm; connecting := connecting l;
         settled := settled l ++ [(id, r)] |}
  | (dm, Connecting obj a cfg) =>
      {| manager := dm;
         connecting := connecting l ++
           [{| at_device := id; at_obj := obj; at_adapter := a; at_config := cfg |}];
         settled := settled l |}
  end.

(** The [i]-th attempt in flight settles. *)
Definition settle (i : nat) (link : Link) (now : Z) (l : Loop) : Loop :=
  match connecting l !! i with
  | None => l
  | Some att =>
      let '(dm, r) :=
        connectDevice_resume (at_device att) (at_obj att) (at_adapter att)
                             (at_config att) link now (manager l) in
      {| manager := dm;
         connecting := take i (connecting l) ++ drop (S i) (connecting l);
         settled := settled l ++ [(at_device att, r)] |}
  end.

Inductive Event :=
| ECall (id : string)
| ESettle (i : nat) (link : Link) (now : Z).

Definition step (l : Loop) (e : Event) : Loop :=
  match e with
  | ECall id => call id l
  | ESettle i link now => settle i link now l
  end.

Definition run (l : Loop) (es : list Event) : Loop := foldl step l es.

(** The connection attempts in flight for one device. *)
Definition attemptsFor (id : string) (l : Loop) : list Attempt :=
  filter (fun att => at_device att = id) (connecting l).

(** *** Batches *)

(** [addDeviceConfigs]: the loop over the configurations, left at the
    first one that [addDeviceConfig] refuses. *)
Fixpoint addDeviceConfigs (cfgs : list DeviceConfig) (dm : t) : t * outcome unit :=
  match cfgs with
  | [] => (dm, Returned tt)
  | cfg :: rest =>
      match addDeviceConfig cfg dm with
      | (dm', Returned _) => addDeviceConfigs rest dm'
      | (dm', Threw e) => (dm', Threw e)
      end
  end.

(** What [connectAll] records for a device: [null] or the error. *)
Definition errorOf {B : Type} (r : outcome B) : option string :=
  match r with
  | Returned _ => None
  | Threw e => Some e
  end.

(** The loop of [connectAll]: one [connectDevice] after the other, each
    awaited inside its own [try], over the keys [ids] of [configs] in the
    order the [Map] yields them (its insertion order, which the model
    of the map does not keep, so that the keys are given). [links] and
    [times] say how each device's attempt ends and when. *)
Fixpoint connectAllOver (ids : list string) (links : string -> Link)
    (times : string -> Z) (dm : t) (results : gmap string (option string))
    : t * gmap string (option string) :=
  match ids with
  | [] => (dm, results)
  | id :: rest =>
      let '(dm', r) := connectDevice id (links id) (times id) dm in
      connectAllOver rest links times dm' (<[id := errorOf r]> results)
  end.

Definition connectAll (ids : list string) (links : string -> Link)
    (times : string -> Z) (dm : t) : t * gmap string (option string) :=
  connectAllOver ids links times dm ∅.

(** [disconnectAll]: a [disconnectDevice] per key of [adapters], all
    awaited together; [ids] are these keys in the order in which the
    disconnections settle. Every one of them runs to its end; the
    result is the first error. *)
Fixpoint disconnectAll (ids : list string) (times : string -> Z) (dm : t)
    : t * outcome unit :=
  match ids with
  | [] => (dm, Returned tt)
  | id :: rest =>
      let '(dm1, r) := disconnectDevice id (times id) dm in
      let '(dm2, r') := disconnectAll rest times dm1 in
      (dm2, match r with Threw e => Threw e | Returned _ => r' end)
  end.

End Manager.

Arguments t A : clear implicits.
Arguments Loop A : clear implicits.
Arguments Attempt A : clear implicits.
Arguments began A : clear implicits.
Arguments Event Link : clear implicits.

End DeviceManager.

(** ** Connection pool (packages/core: connection pool) *)

Module ConnectionPool.

Record PoolOptions := {
  maxConnections : Z;
  minConnections : Z;
  acquireTimeoutMs : Z;
  idleTimeoutMs : Z;
}.

Definition DEFAULT_POOL_OPTIONS : PoolOptions :=
  {| maxConnections := 10; minConnections := 1;
     acquireTimeoutMs := 5000; idleTimeoutMs := 30000 |}.

(** [Partial<PoolOptions>] and the spread
    [{ ...DEFAULT_POOL_OPTIONS, ...options }] of the constructor. *)
Record PartialOptions := {
  p_maxConnections : option Z;
  p_minConnections : option Z;
  p_acquireTimeoutMs : option Z;
  p_idleTimeoutMs : option Z;
}.

Definition mergeOptions (o : PartialOptions) : PoolOptions :=
  {| maxConnections := default (maxConnections DEFAULT_POOL_OPTIONS) (p_maxConnections o);
     minConnections := default (minConnections DEFAULT_POOL_OPTIONS) (p_minConnections o);
     acquireTimeoutMs := default (acquireTimeoutMs DEFAULT_POOL_OPTIONS) (p_acquireTimeoutMs o);
     idleTimeoutMs := default (idleTimeoutMs DEFAULT_POOL_OPTIONS) (p_idleTimeoutMs o) |}.

Section Pool.

(** The type of the pooled resource. *)
Variable T : Type.

Record PoolConnection := {
  id : string;
  connection : T;
  inUse : bool;
  lastUsed : Z;
  createdAt : Z;
}.

(** Where a call of [acquire] stands. [Validating pos obj]: it awaits
    the validator on the object [obj], found at entry [pos] of the map;
    [Creating k]: it awaits the factory, inside [createConnection],
    which chose the key [k]; [Created obj]: [createConnection] has
    returned [obj] and [acquire] has not resumed yet; [Waiting]: it is
    in the wait queue. *)
Inductive Acquire :=
| Validating (pos : nat) (obj : nat)
| Creating (key : string)
| Created (obj : nat)
| Waiting
| Resolved (obj : nat)
| Rejected (e : string).

(** Where the other asynchronous work of the pool stands.
    [Initializing more]: a call of [initialize] awaits its
    [Promise.all], [more] of its connections being still to come;
    [Initialized]: it has resumed, and the interval timer it set is
    running; [Stopped]: that timer was cleared. [Filling k owner]: a
    call of [createConnection] made by the [initialize] of task
    [owner] awaits the factory, having chosen the key [k]; [Filled]:
    it has returned. [Sweeping now pos obj]: a run of [cleanup],
    started at time [now], awaits [destroy] on the object [obj], found
    at entry [pos] of the map; [Swept now pos]: [destroy] has returned
    and [cleanup] has not resumed yet, to go on from entry [pos].
    [Destroying obj]: a call of [destroy] made from outside awaits the
    destroyer. [Finished], [Failed]: the promise of a run of [cleanup]
    or of a call of [destroy] has settled; [Failed] also for a
    rejected [createConnection] or [initialize]. *)
Inductive Task :=
| Initializing (more : nat)
| Initialized
| Stopped
| Filling (key : string) (owner : nat)
| Filled (obj : nat)
| Sweeping (now : Z) (pos : nat) (obj : nat)
| Swept (now : Z) (pos : nat)
| Destroying (obj : nat)
| Finished
| Failed (e : string).

(** The pool in its event loop. [objects] is the store of the
    [PoolConnection] objects made so far, an object being named by its
    index; [pool] is the [Map] from id to object as its list of entries
    in insertion order, where a deleted entry stays as [None] (this is
    what an iteration under way sees); a waiter in [waitQueue] is the
    call of [acquire] that waits, named by its index in [calls];
    [emittedEvents] lists what the pool emitted
    ("connection:created", "connection:released",
    "connection:destroyed") and for which object: the pool is an
    [EventEmitter], taken without listeners. [tasks] is the table of
    the calls of [initialize], of its [createConnection]s, of
    [cleanup] and of [destroy]; [cleanupInterval] is the field of
    that name, the timer being named by the task of the [initialize]
    that set it. *)
Record t := {
  objects : list PoolConnection;
  pool : list (option (string * nat));
  waitQueue : list nat;
  options : PoolOptions;
  calls : list Acquire;
  emittedEvents : list (string * nat);
  tasks : list Task;
  cleanupInterval : option nat;
}.

Definition create (o : PartialOptions) : t :=
  {| objects := []; pool := []; waitQueue := [];
     options := mergeOptions o; calls := []; emittedEvents := [];
     tasks := []; cleanupInterval := None |}.

(** [this.pool.size] *)
Definition occupied (e : option (string * nat)) : bool :=
  match e with Some _ => true | None => false end.

Definition size (s : t) : nat := length (List.filter occupied (pool s)).

Definition isInUse (s : t) (obj : nat) : bool :=
  match objects s !! obj with
  | Some c => inUse c
  | None => false
  end.

(** The entries of the map whose object is in use, as [getStats] counts
    them. *)
Definition entryInUse (s : t) (e : option (string * nat)) : bool :=
  match e with
  | Some (_, obj) => isInUse s obj
  | None => false
  end.

Definition inUseCount (s : t) : nat :=
  length (List.filter (entryInUse s) (pool s)).

Definition getStats (s : t) : nat * nat * nat * nat :=
  (size s, inUseCount s, (size s - inUseCount s)%nat, length (waitQueue s)).

(** Whether the map holds the object [obj]. *)
Definition holds (s : t) (obj : nat) : bool :=
  existsb (fun e : option (string * nat) =>
             match e with
             | Some (_, o) => Nat.eqb o obj
             | None => false
             end) (pool s).

(** [Map.set]: the value of an existing key is replaced in place, a new
    key is appended. *)
Fixpoint mapSet (k : string) (obj : nat) (entries : list (option (string * nat)))
    : list (option (string * nat)) :=
  match entries with
  | [] => [Some (k, obj)]
  | Some (k', o) :: rest =>
      if String.eqb k' k then Some (k, obj) :: rest
      else Some (k', o) :: mapSet k obj rest
  | None :: rest => None :: mapSet k obj rest
  end.

(** [Map.delete]: the entry of the key is emptied. *)
Fixpoint mapDelete (k : string) (entries : list (option (string * nat)))
    : list (option (string * nat)) :=
  match entries with
  | [] => []
  | Some (k', o) :: rest =>
      if String.eqb k' k then None :: rest
      else Some (k', o) :: mapDelete k rest
  | None :: rest => None :: mapDelete k rest
  end.

Definition setCall (i : nat) (a : Acquire) (s : t) : t :=
  {| objects := objects s; pool := pool s; waitQueue := waitQueue s;
     options := options s; calls := <[i := a]> (calls s);
     emittedEvents := emittedEvents s;
     tasks := tasks s; cleanupInterval := cleanupInterval s |}.

(** Assignment to the fields [inUse] and [lastUsed] of an object. *)
Definition setInUse (obj : nat) (b : bool) (s : t) : t :=
  {| objects := alter (fun c => {| id := id c; connection := connection c;
                                   inUse := b; lastUsed := lastUsed c;
                                   createdAt := createdAt c |}) obj (objects s);
     pool := pool s; waitQueue := waitQueue s; options := options s;
     calls := calls s; emittedEvents := emittedEvents s;
     tasks := tasks s; cleanupInterval := cleanupInterval s |}.

Definition setLastUsed (obj : nat) (now : Z) (s : t) : t :=
  {| objects := alter (fun c => {| id := id c; connection := connection c;
                                   inUse := inUse c; lastUsed := now;
                                   createdAt := createdAt c |}) obj (objects s);
     pool := pool s; waitQueue := waitQueue s; options := options s;
     calls := calls s; emittedEvents := emittedEvents s;
     tasks := tasks s; cleanupInterval := cleanupInterval s |}.

Definition emitEvent (name : string) (obj : nat) (s : t) : t :=
  {| objects := objects s; pool := pool s; waitQueue := waitQueue s;
     options := options s; calls := calls s;
     emittedEvents := emittedEvents s ++ [(name, obj)];
     tasks := tasks s; cleanupInterval := cleanupInterval s |}.

(** The [for ... of this.pool] loop of [acquire] up to its next
    [await]: the first entry, from position [pos] on, whose object is
    not in use. *)
Fixpoint firstIdle (s : t) (entries : list (option (string * nat))) (pos : nat)
    : option (nat * nat) :=
  match entries with
  | [] => None
  | Some (_, obj) :: rest =>
      if isInUse s obj then firstIdle s rest (S pos) else Some (pos, obj)
  | None :: rest => firstIdle s rest (S pos)
  end.

(** [acquire] runs, from entry [pos] of the map on, until it awaits:
    the validator on an idle entry; or, the loop over, the factory when
    the map is below [maxConnections]; or else a place in the wait
    queue. [key] is the id that [createConnection] would make from the
    clock and [Math.random()]. *)
Definition scan (i : nat) (pos : nat) (key : string) (s : t) : t :=
  match firstIdle s (drop pos (pool s)) pos with
  | Some (p, obj) => setCall i (Validating p obj) s
  | None =>
      if Z.of_nat (size s) <? maxConnections (options s)
      then setCall i (Creating key) s
      else
        {| objects := objects s; pool := pool s;
           waitQueue := waitQueue s ++ [i];
           options := options s; calls := <[i := Waiting]> (calls s);
           emittedEvents := emittedEvents s;
           tasks := tasks s; cleanupInterval := cleanupInterval s |}
  end.

(** A caller invokes [acquire()]. *)
Definition acquire (key : string) (s : t) : t :=
  let i := length (calls s) in
  scan i 0 key
       {| objects := objects s; pool := pool s; waitQueue := waitQueue s;
          options := options s; calls := calls s ++ [Waiting];
          emittedEvents := emittedEvents s;
          tasks := tasks s; cleanupInterval := cleanupInterval s |}.

(** The validator awaited by call [i] settles. *)
Definition validated (i : nat) (verdict : outcome bool) (now : Z) (key : string)
    (s : t) : t :=
  match calls s !! i with
  | Some (Validating pos obj) =>
      match verdict with
      | Returned true =>
          setCall i (Resolved obj) (setLastUsed obj now (setInUse obj true s))
      | Returned false => scan i (S pos) key s
      | Threw _ =>
          match objects s !! obj with
          | Some c =>
              scan i (S pos) key
                   {| objects := objects s; pool := mapDelete (id c) (pool s);
                      waitQueue := waitQueue s; options := options s;
                      calls := calls s; emittedEvents := emittedEvents s;
                      tasks := tasks s; cleanupInterval := cleanupInterval s |}
          | None => s
          end
      end
  | _ => s
  end.

(** The factory awaited by call [i] settles: the rest of
    [createConnection]. *)
Definition made (i : nat) (res : outcome T) (now : Z) (s : t) : t :=
  match calls s !! i with
  | Some (Creating key) =>
      match res with
      | Returned c =>
          let obj := length (objects s) in
          emitEvent "connection:created" obj
            {| objects := objects s ++
                 [{| id := key; connection := c; inUse := false;
                     lastUsed := now; createdAt := now |}];
               pool := mapSet key obj (pool s);
               waitQueue := waitQueue s; options := options s;
               calls := <[i := Created obj]> (calls s);
               emittedEvents := emittedEvents s;
               tasks := tasks s; cleanupInterval := cleanupInterval s |}
      | Threw e => setCall i (Rejected e) s
      end
  | _ => s
  end.

(** [acquire] resumes with the connection that [createConnection]
    returned. *)
Definition resume (i : nat) (s : t) : t :=
  match calls s !! i with
  | Some (Created obj) => setCall i (Resolved obj) (setInUse obj true s)
  | _ => s
  end.

(** The timer of the waiter of call [i] expires. *)
Definition timedOut (i : nat) (s : t) : t :=
  if decide (i ∈ waitQueue s)
  then
    {| objects := objects s; pool := pool s;
       waitQueue := filter (fun w => w <> i) (waitQueue s);
       options := options s;
       calls := <[i := Rejected "Connection acquire timeout"]> (calls s);
       emittedEvents := emittedEvents s;
       tasks := tasks s; cleanupInterval := cleanupInterval s |}
  else s.

(** [release(poolConn)] on the object [obj]. *)
Definition release (obj : nat) (now : Z) (s : t) : t :=
  let s1 := setLastUsed obj now (setInUse obj false s) in
  let s2 :=
    match waitQueue s1 with
    | waiter :: rest =>
        setInUse obj true
          {| objects := objects s1; pool := pool s1; waitQueue := rest;
             options := options s1;
             calls := <[waiter := Resolved obj]> (calls s1);
             emittedEvents := emittedEvents s1;
             tasks := tasks s1; cleanupInterval := cleanupInterval s1 |}
    | [] => s1
    end in
  emitEvent "connection:released" obj s2.

Definition setTask (j : nat) (k : Task) (s : t) : t :=
  {| objects := objects s; pool := pool s; waitQueue := waitQueue s;
     options := options s; calls := calls s;
     emittedEvents := emittedEvents s;
     tasks := <[j := k]> (tasks s); cleanupInterval := cleanupInterval s |}.

(** *** Initialization *)

(** A caller invokes [initialize()]: [createConnection] is called
    [minConnections] times, each call running up to its [await] on the
    factory, and [initialize] awaits them all. [keys i] is the id that
    the [i]-th call makes from the clock and [Math.random()]. The size
    of the map is not looked at. *)
Definition initialize (keys : nat -> string) (s : t) : t :=
  let j := length (tasks s) in
  let n := Z.to_nat (minConnections (options s)) in
  {| objects := objects s; pool := pool s; waitQueue := waitQueue s;
     options := options s; calls := calls s;
     emittedEvents := emittedEvents s;
     tasks := tasks s ++ Initializing n :: ((fun i => Filling (keys i) j) <$> seq 0 n);
     cleanupInterval := cleanupInterval s |}.

(** What [Promise.all] makes of one more fulfilled promise, and of a
    rejected one, for the [initialize] of task [owner]. *)
Definition fulfilOne (owner : nat) (ts : list Task) : list Task :=
  match ts !! owner with
  | Some (Initializing (S more)) => <[owner := Initializing more]> ts
  | _ => ts
  end.

Definition rejectAll (owner : nat) (e : string) (ts : list Task) : list Task :=
  match ts !! owner with
  | Some (Initializing _) => <[owner := Failed e]> ts
  | _ => ts
  end.

(** The factory awaited by the [createConnection] of task [j] settles:
    the rest of [createConnection]. *)
Definition filled (j : nat) (res : outcome T) (now : Z) (s : t) : t :=
  match tasks s !! j with
  | Some (Filling key owner) =>
      match res with
      | Returned c =>
          let obj := length (objects s) in
          emitEvent "connection:created" obj
            {| objects := objects s ++
                 [{| id := key; connection := c; inUse := false;
                     lastUsed := now; createdAt := now |}];
               pool := mapSet key obj (pool s);
               waitQueue := waitQueue s; options := options s;
               calls := calls s; emittedEvents := emittedEvents s;
               tasks := fulfilOne owner (<[j := Filled obj]> (tasks s));
               cleanupInterval := cleanupInterval s |}
      | Threw e =>
          {| objects := objects s; pool := pool s; waitQueue := waitQueue s;
             options := options s; calls := calls s;
             emittedEvents := emittedEvents s;
             tasks := rejectAll owner e (<[j := Failed e]> (tasks s));
             cleanupInterval := cleanupInterval s |}
      end
  | _ => s
  end.

(** [initialize] resumes after [await Promise.all(promises)], all its
    connections made, and sets the interval timer of [cleanup]. *)
Definition initialized (j : nat) (s : t) : t :=
  match tasks s !! j with
  | Some (Initializing 0) =>
      {| objects := objects s; pool := pool s; waitQueue := waitQueue s;
         options := options s; calls := calls s;
         emittedEvents := emittedEvents s;
         tasks := <[j := Initialized]> (tasks s);
         cleanupInterval := Some j |}
  | _ => s
  end.

(** *** Destroying connections *)

(** [destroy(poolConn)] on the object [obj], from its call to its
    settling, [res] being what the destroyer's promise settles to: the
    entry of the object's id is deleted only once the destroyer has
    succeeded. (Nothing is done before the destroyer is awaited.) *)
Definition destroy (obj : nat) (res : outcome unit) (s : t) : t * outcome unit :=
  match res with
  | Threw e => (s, Threw e)
  | Returned _ =>
      match objects s !! obj with
      | Some c =>
          (emitEvent "connection:destroyed" obj
             {| objects := objects s; pool := mapDelete (id c) (pool s);
                waitQueue := waitQueue s; options := options s;
                calls := calls s; emittedEvents := emittedEvents s;
                tasks := tasks s; cleanupInterval := cleanupInterval s |},
           Returned tt)
      | None => (s, Returned tt)
      end
  end.

(** A caller invokes [destroy(poolConn)] on the object [obj]. *)
Definition destroyCall (obj : nat) (s : t) : t :=
  {| objects := objects s; pool := pool s; waitQueue := waitQueue s;
     options := options s; calls := calls s;
     emittedEvents := emittedEvents s;
     tasks := tasks s ++ [Destroying obj];
     cleanupInterval := cleanupInterval s |}.

(** The test of [cleanup] on a connection: idle, the map above
    [minConnections], and unused for longer than [idleTimeoutMs]. *)
Definition idleTooLong (now : Z) (s : t) (c : PoolConnection) : bool :=
  negb (inUse c)
  && (minConnections (options s) <? Z.of_nat (size s))
  && (idleTimeoutMs (options s) <? now - lastUsed c).

(** The [for ... of this.pool] loop of [cleanup] up to its next
    [await]: the first entry, from position [pos] on, that passes the
    test. *)
Fixpoint firstStale (now : Z) (s : t) (entries : list (option (string * nat)))
    (pos : nat) : option (nat * nat) :=
  match entries with
  | [] => None
  | Some (_, obj) :: rest =>
      match objects s !! obj with
      | Some c =>
          if idleTooLong now s c then Some (pos, obj)
          else firstStale now s rest (S pos)
      | None => firstStale now s rest (S pos)
      end
  | None :: rest => firstStale now s rest (S pos)
  end.

(** [cleanup] (task [j], started at time [now]) runs, from entry [pos]
    of the map on, until it awaits [destroy] on an entry that passes
    the test (the destroyer is called at once), or until its loop is
    over. *)
Definition sweep (j : nat) (now : Z) (pos : nat) (s : t) : t :=
  match firstStale now s (drop pos (pool s)) pos with
  | Some (p, obj) => setTask j (Sweeping now p obj) s
  | None => setTask j Finished s
  end.

(** The interval timer set by the [initialize] of task [j] fires at
    time [now] and calls [cleanup()]. A timer that was not set, or was
    cleared, does not fire. *)
Definition cleanupTick (j : nat) (now : Z) (s : t) : t :=
  match tasks s !! j with
  | Some Initialized =>
      sweep (length (tasks s)) now 0
            {| objects := objects s; pool := pool s; waitQueue := waitQueue s;
               options := options s; calls := calls s;
               emittedEvents := emittedEvents s;
               tasks := tasks s ++ [Swept now 0];
               cleanupInterval := cleanupInterval s |}
  | _ => s
  end.

(** The destroyer awaited by task [j] settles: the rest of [destroy],
    which then returns to [cleanup] or to the caller. *)
Definition destroyed (j : nat) (res : outcome unit) (s : t) : t :=
  match tasks s !! j with
  | Some (Sweeping now pos obj) =>
      match destroy obj res s with
      | (s', Returned _) => setTask j (Swept now (S pos)) s'
      | (s', Threw e) => setTask j (Failed e) s'
      end
  | Some (Destroying obj) =>
      match destroy obj res s with
      | (s', Returned _) => setTask j Finished s'
      | (s', Threw e) => setTask j (Failed e) s'
      end
  | _ => s
  end.

(** [cleanup] resumes after [await this.destroy(poolConn)] and goes on
    with its loop. *)
Definition swept (j : nat) (s : t) : t :=
  match tasks s !! j with
  | Some (Swept now pos) => sweep j now pos s
  | _ => s
  end.

(** *** The event loop *)

(** What can happen to the pool: the calls made from outside
    ([acquire], [release], [initialize], [destroy]), the timers that
    fire and the promises that settle. ([shutdown] is given below, from
    its call to its settling.) *)
Inductive Event :=
| EAcquire (key : string)
| EValidated (i : nat) (verdict : outcome bool) (now : Z) (key : string)
| EMade (i : nat) (res : outcome T) (now : Z)
| EResume (i : nat)
| ETimedOut (i : nat)
| ERelease (obj : nat) (now : Z)
| EInitialize (keys : nat -> string)
| EFilled (j : nat) (res : outcome T) (now : Z)
| EInitialized (j : nat)
| ECleanup (j : nat) (now : Z)
| EDestroy (obj : nat)
| EDestroyed (j : nat) (res : outcome unit)
| ESwept (j : nat).

Definition step (s : t) (e : Event) : t :=
  match e with
  | EAcquire key => acquire key s
  | EValidated i verdict now key => validated i verdict now key s
  | EMade i res now => made i res now s
  | EResume i => resume i s
  | ETimedOut i => timedOut i s
  | ERelease obj now => release obj now s
  | EInitialize keys => initialize keys s
  | EFilled j res now => filled j res now s
  | EInitialized j => initialized j s
  | ECleanup j now => cleanupTick j now s
  | EDestroy obj => destroyCall obj s
  | EDestroyed j res => destroyed j res s
  | ESwept j => swept j s
  end.

Definition run (s : t) (es : list Event) : t := foldl step s es.

(** *** Shutdown *)

(** [clearInterval(this.cleanupInterval)], when the field is set. *)
Definition clearCleanup (s : t) : t :=
  match cleanupInterval s with
  | Some j =>
      match tasks s !! j with
      | Some Initialized => setTask j Stopped s
      | _ => s
      end
  | None => s
  end.

(** The first loop of [shutdown]: every waiter is rejected, and the
    queue emptied. (The calls of the queue are pending ones: [release]
    and the timeout take a waiter out of the queue as they settle
    it.) *)
Definition rejectWaiters (s : t) : t :=
  {| objects := objects s; pool := pool s; waitQueue := [];
     options := options s;
     calls := foldl (fun cs w => <[w := Rejected "Pool shutdown"]> cs)
                    (calls s) (waitQueue s);
     emittedEvents := emittedEvents s;
     tasks := tasks s; cleanupInterval := cleanupInterval s |}.

(** The second loop of [shutdown]: [destroy] on every entry. *)
Fixpoint destroyAll (destroyer : T -> outcome unit) (positions : list nat) (s : t)
    : t * outcome unit :=
  match positions with
  | [] => (s, Returned tt)
  | pos :: rest =>
      match pool s !! pos with
      | Some (Some (_, obj)) =>
          match objects s !! obj with
          | Some c =>
              match destroy obj (destroyer (connection c)) s with
              | (s', Returned _) => destroyAll destroyer rest s'
              | (s', Threw e) => (s', Threw e)
              end
          | None => destroyAll destroyer rest s
          end
      | _ => destroyAll destroyer rest s
      end
  end.

(** [shutdown], from its call to its settling when nothing else runs in
    between. *)
Definition shutdown (destroyer : T -> outcome unit) (s : t) : t * outcome unit :=
  let s1 := rejectWaiters (clearCleanup s) in
  destroyAll destroyer (seq 0 (length (pool s1))) s1.

End Pool.

Arguments create {T} o.
Arguments run {T} s es.
Arguments step {T} s e.
Arguments inUseCount {T} s.
Arguments size {T} s.
Arguments holds {T} s obj.
Arguments isInUse {T} s obj.
Arguments getStats {T} s.
Arguments calls {T} _.
Arguments pool {T} _.
Arguments objects {T} _.
Arguments options {T} _.
Arguments waitQueue {T} _.
Arguments EAcquire {T} key.
Arguments EValidated {T} i verdict now key.
Arguments EMade {T} i res now.
Arguments EResume {T} i.
Arguments ETimedOut {T} i.
Arguments ERelease {T} obj now.
Arguments EInitialize {T} keys.
Arguments EFilled {T} j res now.
Arguments EInitialized {T} j.
Arguments ECleanup {T} j now.
Arguments EDestroy {T} obj.
Arguments EDestroyed {T} j res.
Arguments ESwept {T} j.
Arguments tasks {T} _.
Arguments cleanupInterval {T} _.

Arguments destroy {T} obj res s.
Arguments rejectWaiters {T} s.
Arguments destroyAll {T} destroyer positions s.
Arguments shutdown {T} destroyer s.

End ConnectionPool.

(** * Scenarios, and the properties as the design document states them *)

(** ** Event bus *)

Module EventBusSpec.
Import EventBus.

Definition reading (device addr : string) (v : Z) : DataChangeEvent :=
  {| ev_deviceId := device; ev_address := addr; ev_value := VNum v;
     ev_timestamp := 0; ev_quality := Some good |}.

(** The listeners that [emitData] goes through: those of the first
    scope, from the narrowest on, that has any. *)
Definition targets (event : DataChangeEvent) (bus : t) : list Listener :=
  match listenersOf bus (exactScope event) with
  | [] => match listenersOf bus (deviceScope event) with
          | [] => listenersOf bus globalScope
          | ls => ls
          end
  | ls => ls
  end.

(** Subscribers at the three scopes of the data of device "d1",
    address "a1": callback 1 at the address, 2 at the device, 3 global. *)
Definition threeScopes : t :=
  onAllData (quiet 3) (onData "d1" (quiet 2) (onDataAddress "d1" "a1" (quiet 1) create)).

(** Callback 2 at the device and callback 3 global. *)
Definition twoScopes : t :=
  onAllData (quiet 3) (onData "d1" (quiet 2) create).

(** The subscribers to a data event, at any of its scopes. *)
Definition subscribers (event : DataChangeEvent) (bus : t) : list Listener :=
  listenersOf bus (exactScope event) ++ listenersOf bus (deviceScope event)
  ++ listenersOf bus globalScope.

(** Fire-and-forget delivery, as the design document has it: a throwing
    subscriber neither keeps the event from another subscriber nor makes
    the emitting call throw. *)
Definition fire_and_forget (event : DataChangeEvent) (bus : t) : Prop :=
  forall c1 c2 : Listener,
    c1 ∈ subscribers event bus -> c2 ∈ subscribers event bus ->
    cb_id c1 <> cb_id c2 ->
    is_returned (cb_run c1 (PData event)) = false ->
    cb_id c2 ∈ delivered (emitData event bus)
    /\ is_returned (result (emitData event bus)) = true.

(** Two global subscribers, the first of which throws. *)
Definition faultyFirst : t :=
  onAllData (quiet 2) (onAllData (faulty 1 "boom") create).

End EventBusSpec.

(** ** Modbus adapter *)

Module ModbusSpec.
Import Modbus.

Definition plc : DeviceConfig :=
  {| deviceId := "plc1"; protocol := modbus; name := None; enabled := None;
     reconnect := None; timeout := None;
     host := "10.0.0.7"; port := 502; unitId := 1 |}.

(** A connected adapter: a new one whose [connect] succeeded. *)
Definition online : ModbusAdapter := fst (connect plc LinkUp fresh).

(** A request that took from time 100 to time 130 and timed out, and one
    that was answered with one register. *)
Definition timedOut : Reply :=
  {| t_start := 100; t_end := 130; answer := Threw "Req timed out" |}.
Definition answered : Reply :=
  {| t_start := 100; t_end := 130; answer := Returned (Some [VNum 21]) |}.

(** A request answered, from time 100 to time 130, with a response
    whose body has no [values]. *)
Definition unvalued : Reply :=
  {| t_start := 100; t_end := 130; answer := Returned None |}.

(** The timer table and the adapter's two maps agree: every active timer
    is the one recorded for its address, every recorded subscription has
    its timer and its callback, a callback is kept only for a subscribed
    address, and handles not yet given out are not in use. *)
Definition consistent (s : System) : Prop :=
  (forall h iv, timers s !! h = Some iv ->
     subscriptions (self s) !! iv_address iv = Some h)
  /\ (forall addr h, subscriptions (self s) !! addr = Some h ->
        exists iv, timers s !! h = Some iv /\ iv_address iv = addr
                   /\ subscriptionCallbacks (self s) !! addr = Some (iv_callback iv))
  /\ (forall addr, subscriptions (self s) !! addr = None ->
        subscriptionCallbacks (self s) !! addr = None)
  /\ (forall h iv, timers s !! h = Some iv -> (h < nextTimer s)%nat).

(** What [consistent] reads of a system. *)
Definition bookkeeping (s : System)
    : gmap string nat * gmap string Listener * gmap nat Interval * nat :=
  (subscriptions (self s), subscriptionCallbacks (self s), timers s, nextTimer s).

(** A connected adapter in its event loop, and the same after
    [subscribe("HR:1", callback 1)]; its timer has handle 0. *)
Definition connectedSystem : System := boot online.
Definition polling : System := fst (subscribe "HR:1" (quiet 1) None connectedSystem).

(** Successive reads of one poll subscription never overlap. *)
Definition reads_never_overlap (s : System) : Prop :=
  (length (inflight s) <= 1)%nat.

(** Whether a string has a colon. *)
Fixpoint hasColon (s : string) : bool :=
  match s with
  | EmptyString => false
  | String c r => Ascii.eqb c ":" || hasColon r
  end.

(** The events of polling: a timer fires, a read is answered. *)
Definition isPolling (e : Event) : bool :=
  match e with
  | ETick _ _ | EReadDone _ _ _ => true
  | _ => false
  end.

End ModbusSpec.

(** ** Device manager *)

Module DeviceManagerSpec.
Import DeviceManager.

(** The manager after [registerProtocol('modbus', createModbusAdapter)]
    and [addDeviceConfig] of the device "plc1". *)
Definition gateway : t Modbus.System :=
  fst (addDeviceConfig ModbusSpec.plc
         (registerProtocol modbus (Modbus.boot Modbus.fresh) create)).

(** The same after a successful [connectDevice("plc1")]. *)
Definition gatewayOnline : t Modbus.System :=
  fst (connectDevice "plc1" Modbus.LinkUp 0 gateway).

(** The same after the holder of the adapter has called its
    [disconnect]: the adapter is registered and not connected. *)
Definition gatewayStale : t Modbus.System :=
  onAdapter "plc1" Modbus.disconnect gatewayOnline.

(** At most one connection attempt is in flight per device. *)
Definition one_attempt_per_device (l : Loop Modbus.System) : Prop :=
  forall id, (length (attemptsFor id l) <= 1)%nat.

(** After a failed [connectDevice] no adapter is registered for the
    device. *)
Definition no_entry_after_failure
    (id : string) (link : Modbus.Link) (now : Z) (dm : t Modbus.System) : Prop :=
  is_returned (snd (connectDevice id link now dm)) = false ->
  adapters (fst (connectDevice id link now dm)) !! id = None.

(** A failing read is forwarded to the caller and published as an error
    event on the bus. *)
Definition error_is_published
    (id addr : string) (reply : Modbus.Reply) (dm : t Modbus.System) : Prop :=
  forall e, snd (read id addr reply dm) = Threw e ->
    exists now, ("error", PError id e now) ∈ EventBus.published (bus (fst (read id addr reply dm))).

(** Two managers are the same as far as [connectDevice] for [id] is
    concerned: same configurations and factories, same adapter
    registered for [id], same listeners on the bus. *)
Definition sameFor {A : Type} (id : string) (dm dm' : t A) : Prop :=
  configs dm' = configs dm
  /\ factories dm' = factories dm
  /\ adapters dm' !! id = adapters dm !! id
  /\ EventBus.listeners (bus dm') = EventBus.listeners (bus dm).

(** A second device, of a protocol without factory. *)
Definition meter : DeviceConfig :=
  {| deviceId := "meter1"; protocol := mqtt; name := None; enabled := None;
     reconnect := None; timeout := None;
     host := "10.0.0.8"; port := 1883; unitId := 0 |}.

(** A configuration without device id. *)
Definition nameless : DeviceConfig :=
  {| deviceId := ""; protocol := modbus; name := None; enabled := None;
     reconnect := None; timeout := None;
     host := "10.0.0.9"; port := 502; unitId := 1 |}.

(** The manager with the devices "plc1" and "meter1" configured and the
    Modbus factory only. *)
Definition plant : t Modbus.System :=
  fst (addDeviceConfig meter gateway).

(** The link of "plc1" comes up, every other one times out. *)
Definition linksOf (id : string) : Modbus.Link :=
  if String.eqb id "plc1" then Modbus.LinkUp else Modbus.LinkFailed "ETIMEDOUT".

End DeviceManagerSpec.

(** ** Connection pool *)

Module ConnectionPoolSpec.
Import ConnectionPool.

Definition upTo (n : Z) : PartialOptions :=
  {| p_maxConnections := Some n; p_minConnections := None;
     p_acquireTimeoutMs := None; p_idleTimeoutMs := None |}.

(** A pool of at most one connection, nothing made yet. *)
Definition single : t nat := create (upTo 1).

(** Two calls of [acquire] in a row; then the factory settles for the
    first and for the second; then both calls resume. *)
Definition race : list (Event nat) :=
  [EAcquire "k1"; EAcquire "k2";
   EMade 0 (Returned 7%nat) 5; EMade 1 (Returned 8%nat) 6;
   EResume 0; EResume 1].

(** The calls of [acquire] that await the factory. *)
Definition isCreating (a : Acquire) : bool :=
  match a with Creating _ => true | _ => false end.

Definition creating {T} (s : t T) : nat :=
  length (List.filter isCreating (calls s)).

(** Along the events [es] from [s] on, no two calls of [acquire] await
    the factory at the same time. *)
Fixpoint serial {T} (s : t T) (es : list (Event T)) : Prop :=
  match es with
  | [] => True
  | e :: es' => (creating (step s e) <= 1)%nat /\ serial (step s e) es'
  end.

(** The calls of [createConnection] made by [initialize] that await the
    factory; and all the creations in flight. *)
Definition isFilling (k : Task) : bool :=
  match k with Filling _ _ => true | _ => false end.

Definition filling {T} (s : t T) : nat :=
  length (List.filter isFilling (tasks s)).

Definition pending {T} (s : t T) : nat := (creating s + filling s)%nat.

(** The connections in the map and those being made fit in
    [maxConnections]. *)
Definition bounded {T} (s : t T) : Prop :=
  Z.of_nat (size s) + Z.of_nat (pending s) <= maxConnections (options s).

(** A step that starts no creation without room for it: [initialize]
    is called only when the map, the creations in flight and its own
    [minConnections] connections fit in [maxConnections]; and any
    other step puts a call of [acquire] to awaiting the factory only
    when no creation is in flight. *)
Definition admits {T} (s : t T) (e : Event T) : Prop :=
  match e with
  | EInitialize _ =>
      Z.of_nat (size s) + Z.of_nat (pending s)
      + Z.max 0 (minConnections (options s)) <= maxConnections (options s)
  | _ => (creating (step s e) <= creating s)%nat \/ pending s = 0%nat
  end.

Fixpoint orderly {T} (s : t T) (es : list (Event T)) : Prop :=
  match es with
  | [] => True
  | e :: es' => admits s e /\ orderly (step s e) es'
  end.

(** The calls of [initialize]. *)
Definition isInitialize {T} (e : Event T) : bool :=
  match e with EInitialize _ => true | _ => false end.

(** The pool [single] once a connection was acquired and released: one
    idle connection, object 0 under the key "k1". *)
Definition idleOne : t nat :=
  run single [EAcquire "k1"; EMade 0 (Returned 7%nat) 5; EResume 0; ERelease 0 9].

(** A call of [acquire] whose promise has settled. *)
Definition isSettled (a : Acquire) : bool :=
  match a with Resolved _ | Rejected _ => true | _ => false end.

(** No key has two entries. *)
Definition uniqueKeys (entries : list (option (string * nat))) : Prop :=
  forall p1 p2 k o1 o2,
    entries !! p1 = Some (Some (k, o1)) ->
    entries !! p2 = Some (Some (k, o2)) -> p1 = p2.

(** The map and the objects fit together: every entry has its object,
    filed under the object's own id, and no id has two entries. *)
Definition wellKeyed {T} (s : t T) : Prop :=
  (forall pos k obj, pool s !! pos = Some (Some (k, obj)) ->
     exists c, objects s !! obj = Some c /\ id T c = k)
  /\ uniqueKeys (pool s).

(** From [s] to [s'] no entry was added to the map and every object
    kept its id. *)
Definition keeps {T} (s s' : t T) : Prop :=
  (forall pos k obj, pool s' !! pos = Some (Some (k, obj)) ->
     pool s !! pos = Some (Some (k, obj)))
  /\ (forall obj c, objects s !! obj = Some c ->
        exists c', objects s' !! obj = Some c' /\ id T c' = id T c).

(** A run in which the calls of [acquire] follow one another: a
    connection is made, released, found idle and valid again, and a
    further call waits and times out. *)
Definition oneByOne : list (Event nat) :=
  [EAcquire "k1"; EMade 0 (Returned 7%nat) 5; EResume 0; ERelease 0 9;
   EAcquire "k2"; EValidated 1 (Returned true) 10 "k2";
   EAcquire "k3"; ETimedOut 2].

(** The pool [single] with its one connection in use and two calls of
    [acquire] waiting, call 1 before call 2. *)
Definition queued : t nat :=
  run single [EAcquire "k1"; EMade 0 (Returned 7%nat) 5; EResume 0;
              EAcquire "k2"; EAcquire "k3"].

(** A pool of at most three connections, initialized with its one
    connection (task 0 is the call of [initialize], whose timer runs),
    with two more made by [acquire]: objects 0 and 1 are idle, last
    used at times 9 and 11, and object 2 is in use. *)
Definition threeMade : t nat :=
  run (create (upTo 3))
      [EInitialize (fun _ => "k1"); EFilled 1 (Returned 7%nat) 5; EInitialized 0;
       EAcquire "k2"; EValidated 0 (Returned true) 6 "k2";
       EAcquire "k2"; EMade 1 (Returned 8%nat) 7; EResume 1;
       EAcquire "k3"; EMade 2 (Returned 9%nat) 8; EResume 2;
       ERelease 0 9; ERelease 1 11].

(** The events of task [j] of a run of [cleanup]: its destroyer
    settles, and it resumes. A run of [cleanup] during which nothing
    else happens to the pool is the tick of the timer followed by such
    events only. *)
Definition ofTask {T} (j : nat) (e : Event T) : bool :=
  match e with
  | EDestroyed j' _ | ESwept j' => Nat.eqb j' j
  | _ => false
  end.

(** Task [j] is a run of [cleanup] started at time [now], and the
    entry that it is destroying, if any, is in the map and still
    passes the test. *)
Definition cleaning {T} (j : nat) (now : Z) (s : t T) : Prop :=
  match tasks s !! j with
  | Some (Sweeping now' pos obj) =>
      now' = now
      /\ exists k c, pool s !! pos = Some (Some (k, obj))
                     /\ objects s !! obj = Some c
                     /\ idleTooLong T now s c = true
  | Some (Swept now' _) => now' = now
  | Some Finished | Some (Failed _) | None => True
  | Some _ => False
  end.

(** The events of [initialize], [cleanup] and [destroy]. *)
Definition isBackground {T} (e : Event T) : bool :=
  match e with
  | EAcquire _ | EValidated _ _ _ _ | EMade _ _ _ | EResume _
  | ETimedOut _ | ERelease _ _ => false
  | _ => true
  end.

(** Two destroyer calls of task [j] that succeed, [cleanup] resuming
    after each. *)
Definition twoSwept (j : nat) : list (Event nat) :=
  [EDestroyed j (Returned tt); ESwept j; EDestroyed j (Returned tt); ESwept j].

(** A run that begins with [initialize]: its one connection is made,
    then found idle and valid by a call of [acquire]; a further call
    waits and times out; the connection is released. *)
Definition initializedFirst : list (Event nat) :=
  [EInitialize (fun _ => "k1"); EFilled 1 (Returned 7%nat) 5; EInitialized 0;
   EAcquire "k2"; EValidated 0 (Returned true) 6 "k2";
   EAcquire "k3"; ETimedOut 1; ERelease 0 9].

(** A run of [cleanup] on [threeMade] during which a call of [acquire]
    finds object 0 idle and valid, after [cleanup] has tested it and
    before its destroyer has settled. *)
Definition takenMeanwhile : list (Event nat) :=
  [ECleanup 0 40000; EAcquire "k4"; EValidated 3 (Returned true) 40001 "k4";
   EDestroyed 2 (Returned tt)].

(** A pool of which [initialize] is called twice although
    [maxConnections] is 1. *)
Definition overfilled : t nat :=
  run single [EInitialize (fun _ => "k1"); EFilled 1 (Returned 7%nat) 5;
              EInitialize (fun _ => "k2"); EFilled 3 (Returned 8%nat) 6].

(** A destroyer that always succeeds. *)
Definition closes (c : nat) : outcome unit := Returned tt.

End ConnectionPoolSpec.

(** * Properties *)

(** ** Event bus *)

Module EventBusFacts.
Import EventBus EventBusSpec.

Lemma listenersOf_on name name' cb bus :
  listenersOf (on name cb bus) name' =
  if decide (name = name') then listenersOf bus name ++ [cb] else listenersOf bus name'.
Proof.
  unfold listenersOf at 1, on; simpl.
  rewrite lookup_insert. destruct (decide (name = name')); reflexivity.
Qed.

Lemma emit_delivered name p bus :
  delivered (emit name p bus) =
  match listenersOf bus name with
  | [] => []
  | ls => fst (call_listeners ls p)
  end.
Proof.
  unfold emit. destruct (listenersOf bus name) as [|c ls]; [reflexivity|].
  destruct (call_listeners (c :: ls) p); reflexivity.
Qed.

Lemma emit_result name p bus :
  result (emit name p bus) =
  match listenersOf bus name with
  | [] => if String.eqb name "error" then Threw "Unhandled error." else Returned false
  | ls => snd (call_listeners ls p)
  end.
Proof.
  unfold emit. destruct (listenersOf bus name) as [|c ls]; [reflexivity|].
  destruct (call_listeners (c :: ls) p); reflexivity.
Qed.

Lemma emit_listeners name p bus name' :
  listenersOf (bus_after (emit name p bus)) name' = listenersOf bus name'.
Proof.
  unfold emit. destruct (listenersOf bus name) as [|c ls]; [reflexivity|].
  destruct (call_listeners (c :: ls) p); reflexivity.
Qed.

(** The loop never answers false: it answers true or throws. *)
Lemma call_listeners_not_false ls p : snd (call_listeners ls p) <> Returned false.
Proof.
  induction ls as [|c ls IH]; simpl; [discriminate|].
  destruct (cb_run c p); [|discriminate].
  destruct (call_listeners ls p); exact IH.
Qed.

(** A throwing callback ends the loop: the callbacks before it were
    called, it was called, and none after it is. *)
Lemma call_listeners_stops before c after p e :
  Forall (fun b => is_returned (cb_run b p) = true) before ->
  cb_run c p = Threw e ->
  call_listeners (before ++ c :: after) p = (cb_id <$> before ++ [c], Threw e).
Proof.
  intros Hb Hc. induction Hb as [|b before Hb _ IH]; simpl.
  - rewrite Hc. reflexivity.
  - destruct (cb_run b p); [|discriminate]. rewrite IH. reflexivity.
Qed.

Lemma call_listeners_all ls p :
  Forall (fun b => is_returned (cb_run b p) = true) ls ->
  call_listeners ls p = (cb_id <$> ls, Returned true).
Proof.
  induction 1 as [|b ls Hb _ IH]; simpl; [reflexivity|].
  destruct (cb_run b p); [|discriminate]. rewrite IH. reflexivity.
Qed.

(** [emitData] calls the listeners of one scope only. *)
Lemma emitData_targets event bus :
  delivered (emitData event bus) =
    fst (call_listeners (targets event bus) (PData event))
  /\ result (emitData event bus) =
    match targets event bus with
    | [] => Returned false
    | ls => snd (call_listeners ls (PData event))
    end.
Proof.
  unfold emitData, targets, orElse.
  set (bus1 := {| listeners := listeners bus; eventCount := eventCount bus + 1;
                  published := published bus |}).
  change (listenersOf bus) with (listenersOf bus1).
  destruct (listenersOf bus1 (exactScope event)) as [|c1 l1] eqn:E1.
  - rewrite emit_result, E1. simpl.
    rewrite ?emit_delivered, ?emit_result, ?emit_listeners, ?E1.
    destruct (listenersOf bus1 (deviceScope event)) as [|c2 l2] eqn:E2.
    + simpl. rewrite ?emit_delivered, ?emit_result, ?emit_listeners, ?E2.
      destruct (listenersOf bus1 globalScope) as [|c3 l3] eqn:E3; simpl; auto.
    + pose proof (call_listeners_not_false (c2 :: l2) (PData event)) as Hnf.
      destruct (snd (call_listeners (c2 :: l2) (PData event))) as [[]|] eqn:R;
        simpl; rewrite ?emit_delivered, ?emit_result, ?emit_listeners, ?E2;
        auto; congruence.
  - pose proof (call_listeners_not_false (c1 :: l1) (PData event)) as Hnf.
    rewrite emit_result, E1.
    destruct (snd (call_listeners (c1 :: l1) (PData event))) as [[]|] eqn:R;
      simpl; rewrite ?emit_delivered, ?emit_result, ?E1; auto; congruence.
Qed.

(** C1. Delivery at all three scopes does not hold of [emitData]: with a
    subscriber at each scope of ("d1", "a1"), only the one at the exact
    address receives the event; with subscribers at the device and
    global scopes only, only the one at the device does. *)
Theorem emitData_skips_wider_scopes :
  delivered (emitData (reading "d1" "a1" 42) threeScopes) = [1%nat]
  /\ result (emitData (reading "d1" "a1" 42) threeScopes) = Returned true
  /\ delivered (emitData (reading "d1" "a1" 42) twoScopes) = [2%nat]
  /\ result (emitData (reading "d1" "a1" 42) twoScopes) = Returned true.
Proof. vm_compute. auto. Qed.

(** C7, as stated, fails: with two global subscribers of which the
    first throws, the second does not receive the event and [emitData]
    throws. *)
Lemma fire_and_forget_fails :
  ~ fire_and_forget (reading "d1" "a1" 42) faultyFirst.
Proof.
  intros Hff.
  destruct (Hff (faulty 1 "boom") (quiet 2)) as [_ Hres].
  - vm_compute. apply list_elem_of_here.
  - vm_compute. apply list_elem_of_further, list_elem_of_here.
  - simpl. lia.
  - reflexivity.
  - vm_compute in Hres. discriminate.
Qed.

(** C7, amended. Delivery is synchronous and unguarded: when a callback
    among those [emitData] goes through throws, the callbacks before it
    have received the event, none after it receives it, and [emitData]
    throws that error to the publisher. *)
Theorem emitData_stops_at_throwing_callback
    (event : DataChangeEvent) (bus : t)
    (before after : list Listener) (c : Listener) (e : string) :
  targets event bus = before ++ c :: after ->
  Forall (fun b => is_returned (cb_run b (PData event)) = true) before ->
  cb_run c (PData event) = Threw e ->
  delivered (emitData event bus) = cb_id <$> (before ++ [c])
  /\ result (emitData event bus) = Threw e.
Proof.
  intros Ht Hb Hc.
  destruct (emitData_targets event bus) as [Hd Hr].
  pose proof (call_listeners_stops before c after (PData event) e Hb Hc) as Hcl.
  rewrite Hd, Hr, Ht. split.
  - rewrite Hcl. reflexivity.
  - destruct (before ++ c :: after) eqn:E.
    + destruct before; discriminate.
    + rewrite Hcl. reflexivity.
Qed.

Lemma emitData_stops_at_throwing_callback_witness :
  delivered (emitData (reading "d1" "a1" 42) faultyFirst) = cb_id <$> ([] ++ [faulty 1 "boom"])
  /\ result (emitData (reading "d1" "a1" 42) faultyFirst) = Threw "boom".
Proof.
  apply (emitData_stops_at_throwing_callback
           (reading "d1" "a1" 42) faultyFirst [] [quiet 2] (faulty 1 "boom") "boom").
  - vm_compute. reflexivity.
  - constructor.
  - reflexivity.
Defined.

End EventBusFacts.

(** ** Modbus adapter: metrics *)

Module ModbusFacts.
Import Modbus ModbusSpec.

Example read_answered :
  read "HR:100" answered online
  = (set_metrics {| readCount := 1; writeCount := 0; errorCount := 0;
                    totalLatency := 30; lastLatency := 30 |} online,
     Returned (VNum 21)).
Proof. reflexivity. Qed.

(** A response without values: the read fails after it was counted. *)
Example read_unvalued :
  read "DI:4" unvalued online
  = (set_metrics {| readCount := 1; writeCount := 0; errorCount := 1;
                    totalLatency := 30; lastLatency := 30 |} online,
     Threw (noValues 1)).
Proof. reflexivity. Qed.

(** C9, as stated, fails: a read on a connected adapter that the device
    does not answer leaves [readCount] (and the latency) as it was. *)
Lemma failed_read_not_counted :
  isConnected online = true
  /\ snd (read "HR:100" timedOut online) = Threw "Req timed out"
  /\ readCount (metrics (fst (read "HR:100" timedOut online)))
     <> readCount (metrics online) + 1
  /\ lastLatency (metrics (fst (read "HR:100" timedOut online))) = 0.
Proof. vm_compute. repeat split; discriminate. Qed.

(** C9, amended. [ModbusAdapter.read] updates [readCount] and the
    latency exactly when the client's request resolved with a response,
    before the value is taken from it. A read whose request is
    rejected leaves [readCount] and the latency as they were and adds
    one to [errorCount]. A read whose response carries values succeeds,
    counted in [readCount] and with its latency recorded. A read whose
    response carries no values fails although it is counted in
    [readCount] and its latency recorded, and adds one to [errorCount]
    as well. No metric changes when the adapter is not connected or the
    address does not parse; and [writeCount] never changes. *)
Theorem read_counts_answered_requests (addr : string) (r : Reply) (a : ModbusAdapter) :
  let m := metrics a in
  let m' := metrics (fst (read addr r a)) in
  match read_begin addr a with
  | Threw e => read addr r a = (a, Threw e)
  | Returned _ =>
      match answer r with
      | Threw e =>
          snd (read addr r a) = Threw e
          /\ readCount m' = readCount m
          /\ lastLatency m' = lastLatency m
          /\ totalLatency m' = totalLatency m
          /\ errorCount m' = errorCount m + 1
      | Returned values =>
          readCount m' = readCount m + 1
          /\ lastLatency m' = t_end r - t_start r
          /\ totalLatency m' = totalLatency m + (t_end r - t_start r)
          /\ match values with
             | Some _ =>
                 is_returned (snd (read addr r a)) = true
                 /\ errorCount m' = errorCount m
             | None =>
                 is_returned (snd (read addr r a)) = false
                 /\ errorCount m' = errorCount m + 1
             end
      end
  end
  /\ writeCount m' = writeCount m.
Proof.
  unfold read, read_end.
  destruct (read_begin addr a) as [req|e]; simpl; [|auto].
  destruct (answer r) as [[vs|]|e]; simpl; repeat split; reflexivity.
Qed.

End ModbusFacts.

(** ** Modbus adapter: subscriptions and polling *)

Module PollingFacts.
Import Modbus ModbusSpec.

Lemma consistent_bookkeeping s s' :
  bookkeeping s' = bookkeeping s -> consistent s -> consistent s'.
Proof.
  unfold bookkeeping, consistent. intros E. injection E as E1 E2 E3 E4.
  rewrite E1, E2, E3, E4. tauto.
Qed.

Lemma notifyBad_bookkeeping cb addr now s :
  bookkeeping (notifyBad cb addr now s) = bookkeeping s.
Proof. reflexivity. Qed.

Lemma notifyGood_bookkeeping cb addr v now s :
  bookkeeping (notifyGood cb addr v now s) = bookkeeping s.
Proof. unfold notifyGood. destruct (cb_run cb _); reflexivity. Qed.

Lemma tick_bookkeeping timer now s : bookkeeping (tick timer now s) = bookkeeping s.
Proof.
  unfold tick. destruct (timers s !! timer) as [iv|]; [|reflexivity].
  destruct (read_begin _ _); reflexivity.
Qed.

Lemma readDone_bookkeeping i ans now s :
  bookkeeping (readDone i ans now s) = bookkeeping s.
Proof.
  unfold readDone. destruct (inflight s !! i) as [p|]; [|reflexivity].
  unfold read_end; simpl. destruct ans as [[vs|]|e].
  - rewrite notifyGood_bookkeeping. reflexivity.
  - rewrite notifyBad_bookkeeping. reflexivity.
  - rewrite notifyBad_bookkeeping. reflexivity.
Qed.

Lemma connect_bookkeeping cfg link s :
  bookkeeping (set_self (fst (connect cfg link (self s))) s) = bookkeeping s.
Proof. destruct link; reflexivity. Qed.

Lemma clearAll_lookup handles (t : gmap nat Interval) h :
  clearAll handles t !! h = if decide (h ∈ handles) then None else t !! h.
Proof.
  induction handles as [|x handles IH]; simpl; [reflexivity|].
  destruct (decide (x = h)) as [->|Hne].
  - rewrite lookup_delete_eq. rewrite decide_True; [reflexivity|constructor].
  - rewrite lookup_delete_ne by exact Hne. rewrite IH.
    destruct (decide (h ∈ handles)) as [Hin|Hnin].
    + rewrite decide_True; [reflexivity|by constructor].
    + rewrite decide_False; [reflexivity|].
      intros Hin. apply elem_of_cons in Hin as [->|Hin]; [congruence|tauto].
Qed.

Lemma consistent_boot : consistent (boot fresh).
Proof.
  unfold consistent; simpl. repeat split; intros; simplify_map_eq.
Qed.

Lemma consistent_subscribe addr cb interval s :
  consistent s -> consistent (fst (subscribe addr cb interval s)).
Proof.
  intros (H1 & H2 & H3 & H4). unfold subscribe.
  destruct (subscriptions (self s) !! addr) as [h0|] eqn:E; simpl.
  { repeat split; assumption. }
  unfold consistent; simpl. repeat split.
  - intros h iv Hl. destruct (decide (nextTimer s = h)) as [<-|Hne].
    + rewrite lookup_insert_eq in Hl. injection Hl as <-. simpl.
      apply lookup_insert_eq.
    + rewrite lookup_insert_ne in Hl by exact Hne.
      pose proof (H1 _ _ Hl) as Hs.
      rewrite lookup_insert_ne; [exact Hs|]. congruence.
  - intros a h Hl. destruct (decide (addr = a)) as [<-|Hne].
    + rewrite lookup_insert_eq in Hl. injection Hl as <-.
      eexists. rewrite !lookup_insert_eq. simpl. auto.
    + rewrite lookup_insert_ne in Hl by exact Hne.
      destruct (H2 _ _ Hl) as (iv & Ht & Ha & Hc).
      exists iv. pose proof (H4 _ _ Ht).
      rewrite !lookup_insert_ne by (try exact Hne; lia). auto.
  - intros a Hl. destruct (decide (addr = a)) as [<-|Hne].
    + rewrite lookup_insert_eq in Hl. discriminate.
    + rewrite lookup_insert_ne in Hl by exact Hne.
      rewrite lookup_insert_ne by exact Hne. auto.
  - intros h iv Hl. destruct (decide (nextTimer s = h)) as [<-|Hne]; [lia|].
    rewrite lookup_insert_ne in Hl by exact Hne.
    pose proof (H4 _ _ Hl). lia.
Qed.

Lemma consistent_unsubscribe addr s :
  consistent s -> consistent (unsubscribe addr s).
Proof.
  intros (H1 & H2 & H3 & H4). unfold unsubscribe.
  destruct (subscriptions (self s) !! addr) as [h0|] eqn:E.
  2:{ repeat split; assumption. }
  unfold consistent; simpl. repeat split.
  - intros h iv Hl. apply lookup_delete_Some in Hl as [Hne Hl].
    pose proof (H1 _ _ Hl) as Hs.
    rewrite lookup_delete_ne; [exact Hs|]. congruence.
  - intros a h Hl. apply lookup_delete_Some in Hl as [Hne Hl].
    destruct (H2 _ _ Hl) as (iv & Ht & Ha & Hc).
    exists iv. rewrite !lookup_delete_ne; auto.
    intros <-. destruct (H2 _ _ E) as (iv0 & Ht0 & Ha0 & _). congruence.
  - intros a Hl. destruct (decide (addr = a)) as [<-|Hne].
    + apply lookup_delete_eq.
    + rewrite lookup_delete_ne in Hl by exact Hne.
      rewrite lookup_delete_ne by exact Hne. auto.
  - intros h iv Hl. apply lookup_delete_Some in Hl as [_ Hl]. eauto.
Qed.

Lemma consistent_disconnect s : consistent s -> consistent (disconnect s).
Proof.
  intros (H1 & H2 & H3 & H4). unfold consistent, disconnect; simpl.
  repeat split.
  - intros h iv Hl. rewrite clearAll_lookup in Hl.
    destruct (decide _) as [|Hnin]; [discriminate|].
    exfalso. apply Hnin. apply list_elem_of_fmap.
    exists (iv_address iv, h). split; [reflexivity|].
    apply elem_of_map_to_list. eauto.
  - intros a h Hl. rewrite lookup_empty in Hl. discriminate.
  - intros h iv Hl. rewrite clearAll_lookup in Hl.
    destruct (decide _); [discriminate|]. eauto.
Qed.

Lemma consistent_step s e : consistent s -> consistent (step s e).
Proof.
  intros Hs. destruct e; simpl.
  - eapply consistent_bookkeeping; [apply connect_bookkeeping|exact Hs].
  - apply consistent_subscribe, Hs.
  - apply consistent_unsubscribe, Hs.
  - apply consistent_disconnect, Hs.
  - eapply consistent_bookkeeping; [apply tick_bookkeeping|exact Hs].
  - eapply consistent_bookkeeping; [apply readDone_bookkeeping|exact Hs].
Qed.

Lemma consistent_run es : forall s, consistent s -> consistent (run s es).
Proof.
  induction es as [|e es IH]; intros s Hs; simpl; [exact Hs|].
  apply IH, consistent_step, Hs.
Qed.

Lemma timersFor_elem addr s h :
  h ∈ timersFor addr s <-> exists iv, timers s !! h = Some iv /\ iv_address iv = addr.
Proof.
  unfold timersFor. rewrite list_elem_of_fmap. split.
  - intros ([h' iv] & -> & Hin). apply list_elem_of_filter in Hin as [Ha Hin].
    apply elem_of_map_to_list in Hin. eauto.
  - intros (iv & Ht & Ha). exists (h, iv). split; [reflexivity|].
    apply list_elem_of_filter. split; [exact Ha|].
    apply elem_of_map_to_list, Ht.
Qed.

Lemma timersFor_NoDup addr s : NoDup (timersFor addr s).
Proof.
  unfold timersFor.
  eapply sublist_NoDup; [apply (NoDup_fst_map_to_list (timers s))|].
  apply fmap_sublist, sublist_filter.
Qed.

Lemma timersFor_at_most_one addr s :
  consistent s -> (length (timersFor addr s) <= 1)%nat.
Proof.
  intros (H1 & _). pose proof (timersFor_NoDup addr s) as Hnd.
  destruct (timersFor addr s) as [|a [|b l]] eqn:E; simpl; [lia|lia|].
  exfalso.
  assert (Ha : a ∈ timersFor addr s) by (rewrite E; constructor).
  assert (Hb : b ∈ timersFor addr s) by (rewrite E; do 2 constructor).
  apply timersFor_elem in Ha as (iva & Hta & Haa).
  apply timersFor_elem in Hb as (ivb & Htb & Hab).
  apply H1 in Hta, Htb. rewrite Haa in Hta. rewrite Hab in Htb.
  assert (a = b) as -> by congruence.
  apply NoDup_cons in Hnd as [Hnin _]. apply Hnin. constructor.
Qed.

Lemma timersFor_subscribed addr s h :
  consistent s -> subscriptions (self s) !! addr = Some h -> timersFor addr s = [h].
Proof.
  intros Hc Hs. pose proof (timersFor_at_most_one addr s Hc) as Hlen.
  assert (Hin : h ∈ timersFor addr s).
  { apply timersFor_elem. destruct Hc as (_ & H2 & _).
    destruct (H2 _ _ Hs) as (iv & Ht & Ha & _). eauto. }
  destruct (timersFor addr s) as [|a [|b l]]; simpl in Hlen.
  - inversion Hin.
  - apply list_elem_of_singleton in Hin. congruence.
  - lia.
Qed.

Lemma timersFor_unsubscribed addr s :
  consistent s -> subscriptions (self s) !! addr = None -> timersFor addr s = [].
Proof.
  intros (H1 & _) Hs. destruct (timersFor addr s) as [|a l] eqn:E; [reflexivity|].
  assert (Ha : a ∈ timersFor addr s) by (rewrite E; constructor).
  apply timersFor_elem in Ha as (iv & Ht & Ha). apply H1 in Ht. congruence.
Qed.

(** C8, as stated, fails: a second [subscribe] to a subscribed address
    throws and attaches nothing; the callback of the first keeps being
    the only one notified. *)
Lemma second_subscribe_is_rejected :
  snd (subscribe "HR:1" (quiet 2) None polling) <> Returned tt
  /\ snd (subscribe "HR:1" (quiet 2) None polling) = Threw "Already subscribed to HR:1"
  /\ fst <$> notified (run polling [ESubscribe "HR:1" (quiet 2) None;
                                      ETick 0 1000;
                                      EReadDone 0 (Returned (Some [VNum 7])) 1010])
      = [1%nat].
Proof. vm_compute. repeat split. discriminate. Qed.

(** C8, amended. Whatever has happened to an adapter, each address has
    at most one poll timer, with exactly one callback: on a subscribed
    address there is one timer and one callback, a further [subscribe]
    throws "Already subscribed" and changes nothing, and
    [unsubscribe(address)] removes the timer and the callback; on an
    address not subscribed there is no timer and no callback, and
    [subscribe] succeeds. *)
Theorem one_timer_one_callback_per_address (es : list Event) (addr : string) :
  let s := run (boot fresh) es in
  (length (timersFor addr s) <= 1)%nat
  /\ match subscriptions (self s) !! addr with
     | Some timer =>
         timersFor addr s = [timer]
         /\ is_Some (subscriptionCallbacks (self s) !! addr)
         /\ (forall cb interval,
               subscribe addr cb interval s
               = (s, Threw ("Already subscribed to " +:+ addr)))
         /\ timersFor addr (unsubscribe addr s) = []
         /\ subscriptions (self (unsubscribe addr s)) !! addr = None
         /\ subscriptionCallbacks (self (unsubscribe addr s)) !! addr = None
     | None =>
         timersFor addr s = []
         /\ subscriptionCallbacks (self s) !! addr = None
         /\ (forall cb interval,
               snd (subscribe addr cb interval s) = Returned tt
               /\ timersFor addr (fst (subscribe addr cb interval s)) = [nextTimer s])
     end.
Proof.
  intros s.
  assert (Hc : consistent s) by (apply consistent_run, consistent_boot).
  split; [apply timersFor_at_most_one, Hc|].
  destruct (subscriptions (self s) !! addr) as [timer|] eqn:E.
  - pose proof (consistent_unsubscribe addr s Hc) as Hu.
    assert (Hnone : subscriptions (self (unsubscribe addr s)) !! addr = None).
    { unfold unsubscribe. rewrite E. simpl. apply lookup_delete_eq. }
    split; [apply timersFor_subscribed; assumption|].
    split.
    { destruct Hc as (_ & H2 & _). destruct (H2 _ _ E) as (iv & _ & _ & Hcb). eauto. }
    split.
    { intros cb interval. unfold subscribe. rewrite E. reflexivity. }
    split; [apply timersFor_unsubscribed; assumption|].
    split; [exact Hnone|].
    destruct Hu as (_ & _ & H3 & _). apply H3, Hnone.
  - split; [apply timersFor_unsubscribed; assumption|].
    split; [destruct Hc as (_ & _ & H3 & _); apply H3, E|].
    intros cb interval.
    pose proof (consistent_subscribe addr cb interval s Hc) as Hsub.
    split; [unfold subscribe; rewrite E; reflexivity|].
    apply timersFor_subscribed; [exact Hsub|].
    unfold subscribe. rewrite E. simpl. apply lookup_insert_eq.
Qed.

(** C10, as stated, fails: two ticks of the timer with no answer from
    the device in between leave two reads in flight. *)
Lemma ticks_overlap :
  ~ reads_never_overlap (run polling [ETick 0 1000; ETick 0 2000]).
Proof. unfold reads_never_overlap. vm_compute. lia. Qed.

Lemma tick_issues_read s timer iv req now :
  timers s !! timer = Some iv ->
  read_begin (iv_address iv) (self s) = Returned req ->
  tick timer now s =
  {| self := self s; timers := timers s; nextTimer := nextTimer s;
     inflight := inflight s ++
       [{| pr_address := iv_address iv; pr_request := req;
           pr_start := now; pr_callback := iv_callback iv |}];
     notified := notified s; unhandled := unhandled s |}.
Proof. intros Ht Hr. unfold tick. rewrite Ht, Hr. reflexivity. Qed.

(** C10, amended. Every tick of a poll timer issues its read at once,
    whether or not the reads of earlier ticks have been answered: on a
    connected adapter and a well-formed address, ticks at the times
    [times] with no answer in between leave one more read in flight
    each. *)
Theorem every_tick_issues_a_read
    (s : System) (timer : nat) (iv : Interval) (req : ModbusAddress)
    (times : list Z) :
  timers s !! timer = Some iv ->
  read_begin (iv_address iv) (self s) = Returned req ->
  inflight (run s (ETick timer <$> times))
  = inflight s ++
    ((fun now => {| pr_address := iv_address iv; pr_request := req;
                    pr_start := now; pr_callback := iv_callback iv |}) <$> times).
Proof.
  revert s. induction times as [|now times IH]; intros s Ht Hr; simpl.
  - rewrite app_nil_r. reflexivity.
  - rewrite (tick_issues_read s timer iv req now Ht Hr).
    rewrite IH by (simpl; assumption). simpl.
    rewrite <- app_assoc. reflexivity.
Qed.

Lemma every_tick_issues_a_read_witness :
  inflight (run polling (ETick 0%nat <$> [1000; 2000; 3000]))
  = inflight polling ++
    ((fun now => {| pr_address := "HR:1";
                    pr_request := {| type := holding; address := 1; quantity := Some 1 |};
                    pr_start := now; pr_callback := quiet 1 |}) <$> [1000; 2000; 3000]).
Proof.
  apply (every_tick_issues_a_read polling 0
           {| iv_address := "HR:1"; iv_callback := quiet 1; iv_period := 1000 |}
           {| type := holding; address := 1; quantity := Some 1 |}
           [1000; 2000; 3000]).
  - reflexivity.
  - reflexivity.
Defined.

End PollingFacts.

(** ** Device manager *)

Module DeviceManagerFacts.
Import DeviceManager DeviceManagerSpec.

Section AnyAdapter.

Context {A Link Reply : Type} `{ProtocolAdapter A Link Reply}.

(** When the adapter's [connect] fails, the rest of [connectDevice]
    changes nothing. *)
Lemma resume_after_failed_connect
    (id : string) (obj : nat) (a : A) (cfg : DeviceConfig)
    (link : Link) (now : Z) (dm : t A) (e : string) :
  snd (adapter_connect cfg link a) = Threw e ->
  connectDevice_resume id obj a cfg link now dm = (dm, Threw e).
Proof.
  intros Hc. unfold connectDevice_resume.
  destruct (adapter_connect cfg link a) as [a' [u|e']]; simpl in Hc; congruence.
Qed.

(** Up to its first [await], [connectDevice] changes nothing but the
    count of adapters made. *)
Lemma begin_keeps_registry (id : string) (dm : t A) :
  adapters (fst (connectDevice_begin id dm)) = adapters dm
  /\ factories (fst (connectDevice_begin id dm)) = factories dm
  /\ configs (fst (connectDevice_begin id dm)) = configs dm
  /\ bus (fst (connectDevice_begin id dm)) = bus dm.
Proof.
  unfold connectDevice_begin.
  destruct (configs dm !! id) as [cfg|]; [|auto].
  destruct (adapters dm !! id) as [[n existing]|].
  - destruct (adapter_isConnected existing); [auto|].
    destruct (factories dm !! protocol cfg); auto.
  - destruct (factories dm !! protocol cfg); auto.
Qed.

(** With a configuration, a factory and no connected adapter
    registered, [connectDevice] makes an adapter and calls its
    [connect]. *)
Lemma begin_connects (id : string) (dm : t A) (cfg : DeviceConfig) (factory : A) :
  configs dm !! id = Some cfg ->
  factories dm !! protocol cfg = Some factory ->
  isConnected id dm = false ->
  connectDevice_begin id dm
  = ({| adapters := adapters dm; factories := factories dm;
        configs := configs dm; bus := bus dm; made := S (made dm) |},
     Connecting (made dm) factory cfg).
Proof.
  intros Hc Hf Hi. unfold connectDevice_begin, isConnected in *.
  rewrite Hc. destruct (adapters dm !! id) as [[n existing]|].
  - rewrite Hi, Hf. reflexivity.
  - rewrite Hf. reflexivity.
Qed.

Lemma begin_without_factory (id : string) (dm : t A) (cfg : DeviceConfig) :
  configs dm !! id = Some cfg ->
  factories dm !! protocol cfg = None ->
  isConnected id dm = false ->
  connectDevice_begin id dm
  = (dm, Settled (Threw ("Protocol not registered: " +:+ protocol_name (protocol cfg)))).
Proof.
  intros Hc Hf Hi. unfold connectDevice_begin, isConnected in *.
  rewrite Hc. destruct (adapters dm !! id) as [[n existing]|].
  - rewrite Hi, Hf. reflexivity.
  - rewrite Hf. reflexivity.
Qed.

(** C3, amended. A [connectDevice] that fails because the adapter's
    [connect] fails, or because no factory is registered for the
    protocol (then with the error "Protocol not registered"), stores
    nothing: the registry of adapters is as before the call; so when no
    adapter was registered for the device before, none is afterwards. *)
Theorem failed_connect_stores_nothing
    (id : string) (link : Link) (now : Z) (dm : t A)
    (cfg : DeviceConfig) (e : string) :
  configs dm !! id = Some cfg ->
  isConnected id dm = false ->
  match factories dm !! protocol cfg with
  | Some factory => snd (adapter_connect cfg link factory) = Threw e
  | None => e = "Protocol not registered: " +:+ protocol_name (protocol cfg)
  end ->
  snd (connectDevice id link now dm) = Threw e
  /\ adapters (fst (connectDevice id link now dm)) = adapters dm
  /\ (adapters dm !! id = None ->
      adapters (fst (connectDevice id link now dm)) !! id = None).
Proof.
  intros Hc Hi Hf. unfold connectDevice.
  destruct (factories dm !! protocol cfg) as [factory|] eqn:E.
  - rewrite (begin_connects id dm cfg factory Hc E Hi).
    rewrite (resume_after_failed_connect _ _ _ _ _ _ _ e Hf). simpl. auto.
  - rewrite (begin_without_factory id dm cfg Hc E Hi). subst e. simpl. auto.
Qed.

(** C4, amended. [read] and [write] of the device manager settle to
    exactly what the registered adapter's [read] and [write] settle to,
    its error included, and themselves publish nothing on the event
    bus. *)
Theorem read_write_forward_adapter_errors
    (id addr : string) (value : DeviceValue) (reply : Reply)
    (dm : t A) (n : nat) (a : A) :
  adapters dm !! id = Some (n, a) ->
  snd (read id addr reply dm) = snd (adapter_read addr reply a)
  /\ bus (fst (read id addr reply dm)) = bus dm
  /\ snd (write id addr value reply dm) = snd (adapter_write addr value reply a)
  /\ bus (fst (write id addr value reply dm)) = bus dm.
Proof.
  intros Ha. unfold read, write. rewrite Ha.
  destruct (adapter_read addr reply a), (adapter_write addr value reply a).
  simpl. auto.
Qed.

Lemma call_connects (id : string) (l : Loop A) (cfg : DeviceConfig) (factory : A) :
  configs (manager l) !! id = Some cfg ->
  factories (manager l) !! protocol cfg = Some factory ->
  isConnected id (manager l) = false ->
  call id l
  = {| manager := {| adapters := adapters (manager l);
                     factories := factories (manager l);
                     configs := configs (manager l);
                     bus := bus (manager l); made := S (made (manager l)) |};
       connecting := connecting l ++
         [{| at_device := id; at_obj := made (manager l);
             at_adapter := factory; at_config := cfg |}];
       settled := settled l |}.
Proof.
  intros Hc Hf Hi. unfold call.
  rewrite (begin_connects id (manager l) cfg factory Hc Hf Hi). reflexivity.
Qed.

(** C2, amended. [connectDevice] does not serialize: each call made
    while the device has a configuration, a factory for its protocol
    and no connected adapter registered makes an adapter of its own and
    calls its [connect]; [n] calls before any attempt settles leave [n]
    more connection attempts in flight, on [n] different adapters. *)
Theorem every_call_starts_an_attempt
    (l : Loop A) (id : string) (cfg : DeviceConfig) (factory : A) (n : nat) :
  configs (manager l) !! id = Some cfg ->
  factories (manager l) !! protocol cfg = Some factory ->
  isConnected id (manager l) = false ->
  connecting (run l (replicate n (ECall id)))
  = connecting l ++
    ((fun k => {| at_device := id; at_obj := (made (manager l) + k)%nat;
                  at_adapter := factory; at_config := cfg |}) <$> seq 0 n).
Proof.
  revert l. induction n as [|n IH]; intros l Hc Hf Hi; simpl.
  - rewrite app_nil_r. reflexivity.
  - rewrite (call_connects id l cfg factory Hc Hf Hi).
    rewrite IH by (simpl; assumption). simpl.
    rewrite <- app_assoc. simpl. rewrite Nat.add_0_r.
    do 2 f_equal. rewrite <- fmap_S_seq, <- list_fmap_compose.
    apply list_fmap_ext. intros _ k _. simpl. f_equal. lia.
Qed.

End AnyAdapter.

(** *** A manager of Modbus devices *)

Example gatewayOnline_connected : isConnected "plc1" gatewayOnline = true.
Proof. reflexivity. Qed.

Example gatewayStale_registered :
  isConnected "plc1" gatewayStale = false
  /\ is_Some (getAdapter "plc1" gatewayStale).
Proof. split; [reflexivity|]. vm_compute. eauto. Qed.

(** C2, as stated, fails: two calls of [connectDevice("plc1")] before
    the first settles put two attempts in flight, each on its own
    adapter; when both settle, each caller gets its own adapter and the
    second one replaces the first in the registry. *)
Lemma concurrent_calls_both_connect :
  ~ one_attempt_per_device (run (start gateway) [ECall "plc1"; ECall "plc1"])
  /\ at_obj <$> connecting (run (start gateway) [ECall "plc1"; ECall "plc1"])
     = [0%nat; 1%nat]
  /\ settled (run (start gateway)
                  [ECall "plc1"; ECall "plc1";
                   ESettle 0 Modbus.LinkUp 10; ESettle 0 Modbus.LinkUp 11])
     = [("plc1", Returned 0%nat); ("plc1", Returned 1%nat)].
Proof.
  split; [|split; reflexivity].
  intros Hone. specialize (Hone "plc1"). vm_compute in Hone. lia.
Qed.

Lemma every_call_starts_an_attempt_witness :
  connecting (run (start gateway) (replicate 3 (ECall "plc1")))
  = connecting (start gateway) ++
    ((fun k => {| at_device := "plc1"; at_obj := (made (manager (start gateway)) + k)%nat;
                  at_adapter := Modbus.boot Modbus.fresh;
                  at_config := ModbusSpec.plc |}) <$> seq 0 3).
Proof.
  apply (every_call_starts_an_attempt (start gateway) "plc1" ModbusSpec.plc
           (Modbus.boot Modbus.fresh) 3).
  - reflexivity.
  - reflexivity.
  - reflexivity.
Defined.

(** C3, as stated, fails: when an adapter that is no longer connected
    is registered, a reconnection that fails leaves it registered. *)
Lemma failed_reconnect_keeps_stale_adapter :
  ~ no_entry_after_failure "plc1" (Modbus.LinkFailed "ECONNREFUSED") 5 gatewayStale.
Proof.
  intros Hno. unfold no_entry_after_failure in Hno.
  assert (Hsome : is_Some (adapters (fst (connectDevice "plc1"
            (Modbus.LinkFailed "ECONNREFUSED") 5 gatewayStale)) !! "plc1")).
  { vm_compute. eauto. }
  rewrite Hno in Hsome by reflexivity.
  destruct Hsome as [x Hx]. discriminate.
Qed.

Lemma failed_connect_stores_nothing_witness :
  snd (connectDevice "plc1" (Modbus.LinkFailed "ECONNREFUSED") 5 gateway)
  = Threw "ECONNREFUSED"
  /\ adapters (fst (connectDevice "plc1" (Modbus.LinkFailed "ECONNREFUSED") 5 gateway))
     = adapters gateway
  /\ (adapters gateway !! "plc1" = None ->
      adapters (fst (connectDevice "plc1" (Modbus.LinkFailed "ECONNREFUSED") 5 gateway))
        !! "plc1" = None).
Proof.
  apply (failed_connect_stores_nothing "plc1" (Modbus.LinkFailed "ECONNREFUSED") 5
           gateway ModbusSpec.plc "ECONNREFUSED").
  - reflexivity.
  - reflexivity.
  - reflexivity.
Defined.

(** C4, as stated, fails: a read that the device does not answer is
    forwarded to the caller, and nothing is published: the history of
    the bus still holds the status event of the connection only. *)
Lemma failed_read_publishes_nothing :
  ~ error_is_published "plc1" "HR:100" ModbusSpec.timedOut gatewayOnline.
Proof.
  intros Hpub. destruct (Hpub "Req timed out") as [now Hin]; [reflexivity|].
  vm_compute in Hin.
  apply list_elem_of_singleton in Hin. discriminate.
Qed.

Lemma read_write_forward_adapter_errors_witness :
  snd (read "plc1" "HR:100" ModbusSpec.timedOut gatewayOnline)
  = snd (adapter_read "HR:100" ModbusSpec.timedOut
           (Modbus.boot ModbusSpec.online))
  /\ bus (fst (read "plc1" "HR:100" ModbusSpec.timedOut gatewayOnline))
     = bus gatewayOnline
  /\ snd (write "plc1" "HR:100" (VNum 3) ModbusSpec.timedOut gatewayOnline)
     = snd (adapter_write "HR:100" (VNum 3) ModbusSpec.timedOut
              (Modbus.boot ModbusSpec.online))
  /\ bus (fst (write "plc1" "HR:100" (VNum 3) ModbusSpec.timedOut gatewayOnline))
     = bus gatewayOnline.
Proof.
  apply (read_write_forward_adapter_errors "plc1" "HR:100" (VNum 3)
           ModbusSpec.timedOut gatewayOnline 0 (Modbus.boot ModbusSpec.online)).
  reflexivity.
Defined.

End DeviceManagerFacts.

(** ** Connection pool *)

Module ConnectionPoolFacts.
Import ConnectionPool ConnectionPoolSpec.

Section AnyResource.

Variable T : Type.

(** [acquire]'s loop leaves the map and the objects as they are. *)
Lemma scan_keeps_pool (i pos : nat) (key : string) (s : t T) :
  pool (scan T i pos key s) = pool s /\ objects (scan T i pos key s) = objects s.
Proof.
  unfold scan. destruct (firstIdle T s (drop pos (pool s)) pos) as [[p obj]|].
  - split; reflexivity.
  - destruct (Z.of_nat (size s) <? maxConnections (options s)); split; reflexivity.
Qed.

(** With no idle entry left and the map at [maxConnections], [acquire]
    joins the wait queue and makes no connection. *)
Lemma scan_waits_when_full (i pos : nat) (key : string) (s : t T) :
  firstIdle T s (drop pos (pool s)) pos = None ->
  maxConnections (options s) <= Z.of_nat (size s) ->
  scan T i pos key s
  = {| objects := objects s; pool := pool s; waitQueue := waitQueue s ++ [i];
       options := options s; calls := <[i := Waiting]> (calls s);
       emittedEvents := emittedEvents T s;
       tasks := tasks s; cleanupInterval := cleanupInterval s |}.
Proof.
  intros Hidle Hfull. unfold scan. rewrite Hidle.
  destruct (Z.ltb_spec (Z.of_nat (size s)) (maxConnections (options s))); [lia|].
  reflexivity.
Qed.

(** A connection that the validator answers [false] for stays in the
    map. *)
Lemma refused_connection_stays (i pos obj : nat) (now : Z) (key : string) (s : t T) :
  calls s !! i = Some (Validating pos obj) ->
  pool (validated T i (Returned false) now key s) = pool s.
Proof.
  intros Hc. unfold validated. rewrite Hc. apply scan_keeps_pool.
Qed.

(** *** The bound when connections are made one at a time *)

Lemma size_mapDelete (k : string) (entries : list (option (string * nat))) :
  (length (List.filter occupied (mapDelete k entries))
   <= length (List.filter occupied entries))%nat.
Proof.
  induction entries as [|[[k' o]|] rest IH]; simpl; [lia| |exact IH].
  destruct (String.eqb k' k); simpl; lia.
Qed.

Lemma size_mapSet (k : string) (obj : nat) (entries : list (option (string * nat))) :
  (length (List.filter occupied (mapSet k obj entries))
   <= S (length (List.filter occupied entries)))%nat.
Proof.
  induction entries as [|[[k' o]|] rest IH]; simpl; [lia| |exact IH].
  destruct (String.eqb k' k); simpl; lia.
Qed.

Lemma count_insert_le {A : Type} (f : A -> bool) (i : nat) (a : A) (l : list A) :
  f a = false ->
  (length (List.filter f (<[i := a]> l)) <= length (List.filter f l))%nat.
Proof.
  intros Ha. revert i. induction l as [|x l IH]; intros [|i]; simpl; try lia.
  - rewrite Ha. destruct (f x); simpl; lia.
  - specialize (IH i). destruct (f x); simpl; lia.
Qed.

Lemma count_insert_dec {A : Type} (f : A -> bool) (i : nat) (a old : A) (l : list A) :
  l !! i = Some old -> f old = true -> f a = false ->
  S (length (List.filter f (<[i := a]> l))) = length (List.filter f l).
Proof.
  intros Hl Hold Ha. revert i Hl.
  induction l as [|x l IH]; intros [|i] Hl; simpl in *; try discriminate.
  - injection Hl as ->. rewrite Hold, Ha. reflexivity.
  - specialize (IH i Hl). destruct (f x); simpl; lia.
Qed.

Lemma count_insert_S {A : Type} (f : A -> bool) (i : nat) (a : A) (l : list A) :
  (length (List.filter f (<[i := a]> l)) <= S (length (List.filter f l)))%nat.
Proof.
  revert i. induction l as [|x l IH]; intros [|i]; simpl; try lia.
  - destruct (f a), (f x); simpl; lia.
  - specialize (IH i). destruct (f x); simpl; lia.
Qed.

Lemma creating_app_waiting (l : list Acquire) :
  List.filter isCreating (l ++ [Waiting]) = List.filter isCreating l.
Proof. rewrite List.filter_app. simpl. apply app_nil_r. Qed.

Lemma filling_fulfilOne (owner : nat) (ts : list Task) :
  (length (List.filter isFilling (fulfilOne owner ts))
   <= length (List.filter isFilling ts))%nat.
Proof.
  unfold fulfilOne. destruct (ts !! owner) as [[[|more]| | | | | | | | |]|]; try lia.
  apply count_insert_le. reflexivity.
Qed.

Lemma filling_rejectAll (owner : nat) (e : string) (ts : list Task) :
  (length (List.filter isFilling (rejectAll owner e ts))
   <= length (List.filter isFilling ts))%nat.
Proof.
  unfold rejectAll. destruct (ts !! owner) as [[more| | | | | | | | |]|]; try lia.
  apply count_insert_le. reflexivity.
Qed.

Lemma filling_initialize (keys : nat -> string) (j : nat) (n start : nat) :
  length (List.filter isFilling ((fun i => Filling (keys i) j) <$> seq start n)) = n.
Proof.
  revert start. induction n as [|n IH]; intros start; simpl; [reflexivity|].
  rewrite IH. reflexivity.
Qed.

(** A step that keeps the options and does not add to the map or to the
    creations in flight keeps the bound. *)
Lemma bounded_of (s s' : t T) :
  options s' = options s ->
  (size s' <= size s)%nat -> (creating s' <= creating s)%nat ->
  (filling s' <= filling s)%nat ->
  bounded s -> bounded s'.
Proof. unfold bounded, pending. intros -> Hs Hc Hf Hb. lia. Qed.

Lemma scan_bounded (i pos : nat) (key : string) (s : t T) :
  bounded s ->
  (creating (scan T i pos key s) <= creating s)%nat \/ pending s = 0%nat ->
  bounded (scan T i pos key s).
Proof.
  intros Hb. unfold scan.
  destruct (firstIdle T s (drop pos (pool s)) pos) as [[p obj]|].
  - intros _. apply (bounded_of s); auto.
    apply count_insert_le. reflexivity.
  - destruct (Z.ltb_spec (Z.of_nat (size s)) (maxConnections (options s))) as [Hlt|Hge].
    + intros [Hle|Hnone].
      * apply (bounded_of s); auto.
      * unfold bounded, pending in *.
        change (size (setCall T i (Creating key) s)) with (size s).
        change (options (setCall T i (Creating key) s)) with (options s).
        change (filling (setCall T i (Creating key) s)) with (filling s).
        pose proof (count_insert_S isCreating i (Creating key) (calls s)) as Hone.
        change (length (List.filter isCreating (<[i := Creating key]> (calls s))))
          with (creating (setCall T i (Creating key) s)) in Hone.
        change (length (List.filter isCreating (calls s))) with (creating s) in Hone.
        lia.
    + intros _. apply (bounded_of s); auto.
      apply count_insert_le. reflexivity.
Qed.

Lemma sweep_bounded (j : nat) (now : Z) (pos : nat) (s : t T) :
  bounded s -> bounded (sweep T j now pos s).
Proof.
  intros Hb. unfold sweep.
  destruct (firstStale T now s (drop pos (pool s)) pos) as [[p obj]|];
    apply (bounded_of s); auto; apply count_insert_le; reflexivity.
Qed.

Lemma destroy_bounded (obj : nat) (res : outcome unit) (s : t T) :
  bounded s -> bounded (fst (destroy obj res s)).
Proof.
  intros Hb. unfold destroy. destruct res as [u|e]; [|exact Hb].
  destruct (objects s !! obj) as [c|]; [|exact Hb].
  apply (bounded_of s); auto. apply size_mapDelete.
Qed.

Lemma setTask_bounded (j : nat) (k : Task) (s : t T) :
  isFilling k = false -> bounded s -> bounded (setTask T j k s).
Proof.
  intros Hk Hb. apply (bounded_of s); auto. apply count_insert_le, Hk.
Qed.

(** The steps that start no creation, or start it with room, keep the
    bound. *)
Lemma bounded_step (s : t T) (e : Event T) :
  bounded s -> admits s e -> bounded (step s e).
Proof.
  intros Hb.
  destruct e as [key|i verdict now key|i res now|i|i|obj now
                |keys|j res now|j|j now|obj|j res|j]; simpl.
  - unfold acquire. intros Ha. apply scan_bounded.
    + apply (bounded_of s); auto. unfold creating; simpl.
      rewrite creating_app_waiting. lia.
    + destruct Ha as [Ha|Ha]; [left|right].
      * unfold acquire in Ha. etransitivity; [exact Ha|].
        unfold creating; simpl. rewrite creating_app_waiting. lia.
      * unfold pending, creating in *; simpl. rewrite creating_app_waiting. exact Ha.
  - unfold validated.
    destruct (calls s !! i) as [[pos obj|k|o| |o|e]|]; auto.
    destruct verdict as [[]|e].
    + intros _. apply (bounded_of s); auto.
      apply count_insert_le. reflexivity.
    + apply scan_bounded, Hb.
    + destruct (objects s !! obj) as [c|]; auto.
      intros Ha. apply scan_bounded.
      * apply (bounded_of s); auto. apply size_mapDelete.
      * exact Ha.
  - unfold made. intros _.
    destruct (calls s !! i) as [[pos obj|k|o| |o|e]|] eqn:E; auto.
    destruct res as [c|e].
    + unfold bounded, pending in *. unfold emitEvent, size, creating, filling in *; simpl.
      pose proof (size_mapSet k (length (objects s)) (pool s)).
      pose proof (count_insert_dec isCreating i (Created (length (objects s)))
                    (Creating k) (calls s) E eq_refl eq_refl).
      lia.
    + apply (bounded_of s); auto. apply count_insert_le. reflexivity.
  - unfold resume. intros _.
    destruct (calls s !! i) as [[pos obj|k|o| |o|e]|]; auto.
    apply (bounded_of s); auto. apply count_insert_le. reflexivity.
  - unfold timedOut. intros _. destruct (decide (i ∈ waitQueue s)); auto.
    apply (bounded_of s); auto. apply count_insert_le. reflexivity.
  - unfold release. intros _. simpl.
    destruct (waitQueue s) as [|waiter rest]; simpl.
    + apply (bounded_of s); auto.
    + apply (bounded_of s); auto. apply count_insert_le. reflexivity.
  - intros Ha. unfold bounded, pending, initialize in *.
    unfold size, creating, filling in *; simpl.
    rewrite List.filter_app, length_app. simpl.
    rewrite filling_initialize. lia.
  - unfold filled. intros _.
    destruct (tasks s !! j) as [[more| | |key owner|o|nw ps o|nw ps|o| |e]|] eqn:E; auto.
    destruct res as [c|e].
    + unfold bounded, pending in *. unfold emitEvent, size, creating, filling in *; simpl.
      pose proof (size_mapSet key (length (objects s)) (pool s)).
      pose proof (count_insert_dec isFilling j (Filled (length (objects s)))
                    (Filling key owner) (tasks s) E eq_refl eq_refl).
      pose proof (filling_fulfilOne owner (<[j := Filled (length (objects s))]> (tasks s))).
      lia.
    + apply (bounded_of s); auto. unfold filling; simpl.
      etransitivity; [apply filling_rejectAll|].
      apply count_insert_le. reflexivity.
  - unfold initialized. intros _.
    destruct (tasks s !! j) as [[[|more]| | |key owner|o|nw ps o|nw ps|o| |e]|]; auto.
    apply (bounded_of s); auto. apply count_insert_le. reflexivity.
  - unfold cleanupTick. intros _.
    destruct (tasks s !! j) as [[more| | |key owner|o|nw ps o|nw ps|o| |e]|]; auto.
    apply sweep_bounded. apply (bounded_of s); auto.
    unfold filling; simpl. rewrite List.filter_app, length_app. simpl. lia.
  - intros _. apply (bounded_of s); auto.
    unfold filling; simpl. rewrite List.filter_app, length_app. simpl. lia.
  - unfold destroyed. intros _.
    destruct (tasks s !! j) as [[more| | |key owner|o|nw ps o|nw ps|o| |e]|]; auto.
    + pose proof (destroy_bounded o res s Hb) as Hd.
      destruct (destroy o res s) as [s' [u|e]]; apply setTask_bounded; auto.
    + pose proof (destroy_bounded o res s Hb) as Hd.
      destruct (destroy o res s) as [s' [u|e]]; apply setTask_bounded; auto.
  - unfold swept. intros _.
    destruct (tasks s !! j) as [[more| | |key owner|o|nw ps o|nw ps|o| |e]|]; auto.
    apply sweep_bounded, Hb.
Qed.

Lemma scan_options (i pos : nat) (key : string) (s : t T) :
  options (scan T i pos key s) = options s.
Proof.
  unfold scan. destruct (firstIdle T s (drop pos (pool s)) pos) as [[p obj]|];
    [reflexivity|].
  destruct (Z.of_nat (size s) <? maxConnections (options s)); reflexivity.
Qed.

Lemma sweep_options (j : nat) (now : Z) (pos : nat) (s : t T) :
  options (sweep T j now pos s) = options s.
Proof.
  unfold sweep. destruct (firstStale T now s (drop pos (pool s)) pos) as [[p obj]|];
    reflexivity.
Qed.

Lemma destroy_options (obj : nat) (res : outcome unit) (s : t T) :
  options (fst (destroy obj res s)) = options s.
Proof.
  unfold destroy. destruct res; [|reflexivity].
  destruct (objects s !! obj); reflexivity.
Qed.

Lemma step_options (s : t T) (e : Event T) : options (step s e) = options s.
Proof.
  destruct e as [key|i verdict now key|i res now|i|i|obj now
                |keys|j res now|j|j now|obj|j res|j]; simpl.
  - unfold acquire. rewrite scan_options. reflexivity.
  - unfold validated.
    destruct (calls s !! i) as [[pos obj|k|o| |o|e]|]; auto.
    destruct verdict as [[]|e]; [reflexivity|apply scan_options|].
    destruct (objects s !! obj); [rewrite scan_options|]; reflexivity.
  - unfold made. destruct (calls s !! i) as [[pos obj|k|o| |o|e]|]; auto.
    destruct res; reflexivity.
  - unfold resume. destruct (calls s !! i) as [[pos obj|k|o| |o|e]|]; auto.
  - unfold timedOut. destruct (decide (i ∈ waitQueue s)); reflexivity.
  - unfold release. simpl. destruct (waitQueue s); reflexivity.
  - reflexivity.
  - unfold filled.
    destruct (tasks s !! j) as [[more| | |key owner|o|nw ps o|nw ps|o| |e]|]; auto.
    destruct res; reflexivity.
  - unfold initialized.
    destruct (tasks s !! j) as [[[|more]| | |key owner|o|nw ps o|nw ps|o| |e]|]; auto.
  - unfold cleanupTick.
    destruct (tasks s !! j) as [[more| | |key owner|o|nw ps o|nw ps|o| |e]|]; auto.
    rewrite sweep_options. reflexivity.
  - reflexivity.
  - unfold destroyed.
    destruct (tasks s !! j) as [[more| | |key owner|o|nw ps o|nw ps|o| |e]|]; auto.
    + pose proof (destroy_options o res s) as Hd.
      destruct (destroy o res s) as [s' [u|e]]; exact Hd.
    + pose proof (destroy_options o res s) as Hd.
      destruct (destroy o res s) as [s' [u|e]]; exact Hd.
  - unfold swept.
    destruct (tasks s !! j) as [[more| | |key owner|o|nw ps o|nw ps|o| |e]|]; auto.
    apply sweep_options.
Qed.

Lemma run_options (es : list (Event T)) :
  forall s : t T, options (run s es) = options s.
Proof.
  induction es as [|e es IH]; intros s; simpl; [reflexivity|].
  rewrite IH. apply step_options.
Qed.

Lemma inUseCount_le_size (s : t T) : (inUseCount s <= size s)%nat.
Proof.
  unfold inUseCount, size. induction (pool s) as [|[[k o]|] rest IH]; simpl; [lia| |exact IH].
  destruct (isInUse s o); simpl; lia.
Qed.

(** Along a run whose steps start no creation without room for it, the
    map and the creations in flight, and so the connections in use,
    stay within [maxConnections]. *)
Lemma orderly_stays_bounded (es : list (Event T)) :
  forall s : t T, bounded s -> orderly s es ->
    bounded (run s es)
    /\ Z.of_nat (inUseCount (run s es)) <= maxConnections (options s).
Proof.
  induction es as [|e es IH]; intros s Hb Hs; simpl.
  - split; [exact Hb|]. pose proof (inUseCount_le_size s).
    unfold bounded, pending in Hb. lia.
  - destruct Hs as [Hone Hs].
    destruct (IH (step s e) (bounded_step s e Hb Hone) Hs) as [Hb' Hle].
    rewrite step_options in Hle. auto.
Qed.

Lemma scan_filling (i pos : nat) (key : string) (s : t T) :
  filling (scan T i pos key s) = filling s.
Proof.
  unfold scan. destruct (firstIdle T s (drop pos (pool s)) pos) as [[q obj]|];
    [reflexivity|].
  destruct (Z.of_nat (size s) <? maxConnections (options s)); reflexivity.
Qed.

Lemma sweep_filling (j : nat) (now : Z) (pos : nat) (s : t T) :
  (filling (sweep T j now pos s) <= filling s)%nat.
Proof.
  unfold sweep. destruct (firstStale T now s (drop pos (pool s)) pos) as [[q obj]|];
    apply count_insert_le; reflexivity.
Qed.

Lemma destroy_filling (obj : nat) (res : outcome unit) (s : t T) :
  filling (fst (destroy obj res s)) = filling s.
Proof.
  unfold destroy. destruct res; [|reflexivity].
  destruct (objects s !! obj); reflexivity.
Qed.

(** A step other than a call of [initialize] starts no
    [createConnection] of [initialize]. *)
Lemma filling_step (s : t T) (e : Event T) :
  isInitialize e = false -> (filling (step s e) <= filling s)%nat.
Proof.
  destruct e as [key|i verdict now key|i res now|i|i|obj now
                |keys|j res now|j|j now|obj|j res|j]; simpl; intros He;
    try discriminate.
  - unfold acquire. rewrite scan_filling. reflexivity.
  - unfold validated.
    destruct (calls s !! i) as [[pos obj|k|o| |o|e]|]; auto.
    destruct verdict as [[]|e]; [reflexivity| |].
    + rewrite scan_filling. reflexivity.
    + destruct (objects s !! obj); [|reflexivity].
      rewrite scan_filling. reflexivity.
  - unfold made. destruct (calls s !! i) as [[pos obj|k|o| |o|e]|]; auto.
    destruct res; reflexivity.
  - unfold resume. destruct (calls s !! i) as [[pos obj|k|o| |o|e]|]; auto.
  - unfold timedOut. destruct (decide (i ∈ waitQueue s)); reflexivity.
  - unfold release. simpl. destruct (waitQueue s); reflexivity.
  - unfold filled.
    destruct (tasks s !! j) as [[more| | |key owner|o|nw ps o|nw ps|o| |e]|]; auto.
    destruct res as [c|e]; unfold filling; simpl.
    + etransitivity; [apply filling_fulfilOne|]. apply count_insert_le. reflexivity.
    + etransitivity; [apply filling_rejectAll|]. apply count_insert_le. reflexivity.
  - unfold initialized.
    destruct (tasks s !! j) as [[[|more]| | |key owner|o|nw ps o|nw ps|o| |e]|]; auto.
    apply count_insert_le. reflexivity.
  - unfold cleanupTick.
    destruct (tasks s !! j) as [[more| | |key owner|o|nw ps o|nw ps|o| |e]|]; auto.
    etransitivity; [apply sweep_filling|].
    unfold filling; simpl. rewrite List.filter_app, length_app. simpl. lia.
  - unfold filling; simpl. rewrite List.filter_app, length_app. simpl. lia.
  - unfold destroyed.
    destruct (tasks s !! j) as [[more| | |key owner|o|nw ps o|nw ps|o| |e]|]; auto.
    + pose proof (destroy_filling o res s) as Hd.
      destruct (destroy o res s) as [s' [u|e]]; simpl in Hd; rewrite <- Hd;
        apply count_insert_le; reflexivity.
    + pose proof (destroy_filling o res s) as Hd.
      destruct (destroy o res s) as [s' [u|e]]; simpl in Hd; rewrite <- Hd;
        apply count_insert_le; reflexivity.
  - unfold swept.
    destruct (tasks s !! j) as [[more| | |key owner|o|nw ps o|nw ps|o| |e]|]; auto.
    apply sweep_filling.
Qed.

(** When [initialize] is not used and no two calls of [acquire] await
    the factory at the same time, the connections in use stay within
    [maxConnections], whatever else the calls, the validator, the
    timers, [release] and [destroy] do. *)
Lemma serial_creations_stay_within_bound (es : list (Event T)) :
  forall s : t T,
    bounded s -> filling s = 0%nat ->
    Forall (fun e => isInitialize e = false) es -> serial s es ->
    bounded (run s es)
    /\ Z.of_nat (inUseCount (run s es)) <= maxConnections (options s).
Proof.
  intros s Hb Hf Hno Hs. apply orderly_stays_bounded; [exact Hb|].
  revert s Hb Hf Hno Hs.
  induction es as [|e es IH]; intros s Hb Hf Hno Hs; simpl; [exact I|].
  destruct Hs as [Hone Hs]. apply Forall_cons in Hno as [He Hno].
  assert (Ha : admits s e).
  { destruct e; try discriminate; simpl;
      (destruct (creating s) as [|n] eqn:Ec;
       [right; unfold pending; rewrite Ec, Hf; reflexivity|left; simpl in Hone; lia]). }
  split; [exact Ha|].
  apply IH; auto.
  - apply bounded_step; assumption.
  - pose proof (filling_step s e He). lia.
Qed.

End AnyResource.

Example single_is_bounded : bounded single.
Proof. unfold bounded. vm_compute. discriminate. Qed.

(** [initialize] makes its connections whatever [maxConnections] is. *)
Example initialize_ignores_maxConnections :
  maxConnections (options overfilled) = 1 /\ size overfilled = 2%nat.
Proof. vm_compute. auto. Qed.

(** The two calls of [race] await the factory together. *)
Example race_is_not_serial : ~ serial single race.
Proof.
  intros (_ & Htwo & _). vm_compute in Htwo. lia.
Qed.

(** C5. The bound does not hold of the pool: with [maxConnections = 1],
    two calls of [acquire] made before the factory has settled both
    pass the test on the size of the map, and the map ends with two
    connections, both in use. *)
Theorem concurrent_acquires_exceed_maxConnections :
  maxConnections (options single) = 1
  /\ calls (run single [EAcquire "k1"; EAcquire "k2"])
     = [Creating "k1"; Creating "k2"]
  /\ calls (run single race) = [Resolved 0; Resolved 1]
  /\ size (run single race) = 2%nat
  /\ inUseCount (run single race) = 2%nat.
Proof. vm_compute. repeat split. Qed.

(** C6. Eviction of an invalid connection does not hold of [acquire]
    when the validator answers [false]: the connection stays in the
    map, idle, and the call (the map being full) waits; the connection
    is evicted only when the validator throws. *)
Theorem refused_connection_is_not_evicted :
  getStats idleOne = (1%nat, 0%nat, 1%nat, 0%nat)
  /\ calls (run idleOne [EAcquire "k2"]) !! 1%nat = Some (Validating 0 0)
  /\ holds (run idleOne [EAcquire "k2"; EValidated 1 (Returned false) 10 "k3"]) 0 = true
  /\ isInUse (run idleOne [EAcquire "k2"; EValidated 1 (Returned false) 10 "k3"]) 0 = false
  /\ calls (run idleOne [EAcquire "k2"; EValidated 1 (Returned false) 10 "k3"]) !! 1%nat
     = Some Waiting
  /\ holds (run idleOne [EAcquire "k2"; EValidated 1 (Threw "stale") 10 "k3"]) 0 = false.
Proof. vm_compute. repeat split. Qed.

End ConnectionPoolFacts.

(** * Further properties *)

(** ** Event bus: registration and delivery *)

Module EventBusMore.
Import EventBus EventBusSpec EventBusFacts.

(** X1. When no callback throws, [emitData] hands the event to every
    listener of the scope it settles on, once each and in the order of
    registration, and answers whether there was any. *)
Theorem emitData_reaches_every_target (event : DataChangeEvent) (bus : t) :
  Forall (fun c => is_returned (cb_run c (PData event)) = true) (targets event bus) ->
  delivered (emitData event bus) = cb_id <$> targets event bus
  /\ result (emitData event bus)
     = Returned (match targets event bus with [] => false | _ => true end).
Proof.
  intros Hall. destruct (emitData_targets event bus) as [Hd Hr].
  rewrite Hd, Hr. pose proof (call_listeners_all _ _ Hall) as Hcl.
  destruct (targets event bus); rewrite ?Hcl; split; reflexivity.
Qed.

Lemma emitData_reaches_every_target_witness :
  delivered (emitData (reading "d1" "a1" 42) twoScopes)
  = cb_id <$> targets (reading "d1" "a1" 42) twoScopes
  /\ result (emitData (reading "d1" "a1" 42) twoScopes)
     = Returned (match targets (reading "d1" "a1" 42) twoScopes with
                 | [] => false | _ => true end).
Proof.
  apply (emitData_reaches_every_target (reading "d1" "a1" 42) twoScopes).
  vm_compute. repeat constructor.
Defined.

Lemma remove_last_app (cb : Listener) (l : list Listener) :
  remove_last (cb_id cb) (l ++ [cb]) = l.
Proof.
  unfold remove_last. rewrite rev_app_distr. simpl.
  rewrite Nat.eqb_refl. apply rev_involutive.
Qed.

Lemma listenersOf_off name name' cb bus :
  listenersOf (off name cb bus) name' =
  if decide (name = name')
  then remove_last (cb_id cb) (listenersOf bus name)
  else listenersOf bus name'.
Proof.
  unfold listenersOf at 1, off; simpl.
  rewrite lookup_insert. destruct (decide (name = name')); reflexivity.
Qed.

(** X2. [offData] undoes [onData]: registering a callback for a device and
    removing it again leaves every event name with the listeners it had,
    earlier registrations of the same callback included. *)
Theorem offData_undoes_onData (device : string) (cb : Listener) (bus : t) (name : string) :
  listenersOf (offData device cb (onData device cb bus)) name = listenersOf bus name.
Proof.
  unfold offData, onData. rewrite listenersOf_off, !listenersOf_on.
  destruct (decide ("data:" +:+ device = name)) as [<-|Hne].
  - rewrite decide_True by reflexivity. apply remove_last_app.
  - reflexivity.
Qed.

(** X3. Event names are concatenated strings: a callback registered with
    [onData] for the device named [d ++ ":" ++ a] is a listener of the
    exact scope of address [a] of device [d]. When none of the
    callbacks registered at that scope before it throws, [emitData] for
    that address calls them and then this callback, and no other one,
    the callbacks registered for device [d] and for all data
    included. *)
Theorem device_scope_collides_with_address_scope
    (event : DataChangeEvent) (cb : Listener) (bus : t) :
  Forall (fun c => is_returned (cb_run c (PData event)) = true)
         (listenersOf bus (exactScope event)) ->
  delivered (emitData event
               (onData (ev_deviceId event +:+ ":" +:+ ev_address event) cb bus))
  = (cb_id <$> listenersOf bus (exactScope event)) ++ [cb_id cb].
Proof.
  intros Hall.
  destruct (emitData_targets event
              (onData (ev_deviceId event +:+ ":" +:+ ev_address event) cb bus))
    as [-> _].
  assert (Ht : targets event
                 (onData (ev_deviceId event +:+ ":" +:+ ev_address event) cb bus)
               = listenersOf bus (exactScope event) ++ [cb]).
  { unfold targets, onData. rewrite listenersOf_on.
    change ("data:" +:+ ev_deviceId event +:+ ":" +:+ ev_address event)
      with (exactScope event).
    rewrite decide_True by reflexivity.
    destruct (listenersOf bus (exactScope event)); reflexivity. }
  rewrite Ht.
  destruct (cb_run cb (PData event)) as [u|e] eqn:Hcb.
  - assert (Hall' : Forall (fun c => is_returned (cb_run c (PData event)) = true)
                      (listenersOf bus (exactScope event) ++ [cb])).
    { apply Forall_app_2; [exact Hall|].
      constructor; [rewrite Hcb; reflexivity|constructor]. }
    rewrite (call_listeners_all _ _ Hall').
    simpl. rewrite fmap_app. reflexivity.
  - rewrite (call_listeners_stops _ cb [] _ e Hall Hcb).
    simpl. rewrite fmap_app. reflexivity.
Qed.

Lemma device_scope_collides_with_address_scope_witness :
  delivered (emitData (reading "d1" "a1" 5) (onData "d1:a1" (quiet 4) threeScopes))
  = (cb_id <$> listenersOf threeScopes (exactScope (reading "d1" "a1" 5)))
    ++ [cb_id (quiet 4)].
Proof.
  apply (device_scope_collides_with_address_scope
           (reading "d1" "a1" 5) (quiet 4) threeScopes).
  repeat constructor.
Defined.

End EventBusMore.

(** ** Modbus adapter: addresses *)

Module ModbusMore.
Import Modbus ModbusSpec.

Lemma upper_idem (c : ascii) : upper (upper c) = upper c.
Proof. destruct c as [[] [] [] [] [] [] [] []]; reflexivity. Qed.

Lemma upper_keeps_marks (c : ascii) :
  Ascii.eqb (upper c) ":" = Ascii.eqb c ":"
  /\ Ascii.eqb "0" (upper c) = Ascii.eqb "0" c
  /\ Ascii.eqb "1" (upper c) = Ascii.eqb "1" c
  /\ Ascii.eqb "3" (upper c) = Ascii.eqb "3" c
  /\ Ascii.eqb "4" (upper c) = Ascii.eqb "4" c.
Proof. destruct c as [[] [] [] [] [] [] [] []]; repeat split; reflexivity. Qed.

Lemma toUpperCase_idem (s : string) : toUpperCase (toUpperCase s) = toUpperCase s.
Proof.
  induction s as [|c r IH]; simpl; [reflexivity|]. rewrite upper_idem, IH. reflexivity.
Qed.

Lemma startsWith_one (a : ascii) (s : string) :
  startsWith (String a EmptyString) s
  = match s with String b _ => Ascii.eqb a b | EmptyString => false end.
Proof.
  destruct s as [|b r]; simpl; [reflexivity|].
  destruct (ascii_dec a b) as [->|Hne].
  - rewrite Ascii.eqb_refl. destruct r; reflexivity.
  - symmetry. apply Ascii.eqb_neq, Hne.
Qed.

Lemma startsWith_digit_upper (s : string) :
  startsWith "0" (toUpperCase s) = startsWith "0" s
  /\ startsWith "1" (toUpperCase s) = startsWith "1" s
  /\ startsWith "3" (toUpperCase s) = startsWith "3" s
  /\ startsWith "4" (toUpperCase s) = startsWith "4" s.
Proof.
  rewrite !startsWith_one. destruct s as [|c r]; simpl; [auto|].
  destruct (upper_keeps_marks c) as (_ & H0 & H1 & H3 & H4). auto.
Qed.

(** X4. Addresses are read without regard to the case of their letters. *)
Theorem parseModbusAddress_ignores_case (addr : string) :
  parseModbusAddress (toUpperCase addr) = parseModbusAddress addr.
Proof.
  unfold parseModbusAddress. rewrite toUpperCase_idem.
  destruct (startsWith_digit_upper addr) as (-> & -> & -> & ->).
  reflexivity.
Qed.

Lemma split_without_colon (s : string) :
  hasColon s = false -> split ":" (toUpperCase s) = [toUpperCase s].
Proof.
  induction s as [|c r IH]; simpl; [reflexivity|].
  intros Hc. apply orb_false_iff in Hc as [Hc Hr].
  destruct (upper_keeps_marks c) as (-> & _). rewrite Hc, (IH Hr). reflexivity.
Qed.

(** X5. An address needs its colon: one without (the plain register number
    "40001", say) is refused, either for its type or for its missing
    number; a read or a write of it fails before anything is sent and
    leaves the adapter as it is. *)
Theorem address_without_colon_is_refused
    (addr : string) (v : DeviceValue) (r : Reply) (a : ModbusAdapter) :
  hasColon addr = false ->
  (parseModbusAddress addr = Threw "Invalid Modbus address: undefined"
   \/ parseModbusAddress addr
      = Threw ("Unknown Modbus address type: " +:+ toUpperCase addr))
  /\ is_returned (snd (read addr r a)) = false /\ fst (read addr r a) = a
  /\ is_returned (snd (write addr v r a)) = false /\ fst (write addr v r a) = a.
Proof.
  intros Hc.
  assert (Hp : parseModbusAddress addr = Threw "Invalid Modbus address: undefined"
               \/ parseModbusAddress addr
                  = Threw ("Unknown Modbus address type: " +:+ toUpperCase addr)).
  { unfold parseModbusAddress. rewrite (split_without_colon addr Hc). simpl.
    repeat match goal with
           | |- context [if ?b then _ else _] => destruct b
           end; auto. }
  split; [exact Hp|].
  unfold read, write, read_begin, write_begin.
  destruct (negb (isConnected a) || negb (client a)); [simpl; auto|].
  destruct Hp as [-> | ->]; simpl; auto.
Qed.

Lemma address_without_colon_is_refused_witness :
  (parseModbusAddress "40001" = Threw "Invalid Modbus address: undefined"
   \/ parseModbusAddress "40001"
      = Threw ("Unknown Modbus address type: " +:+ toUpperCase "40001"))
  /\ is_returned (snd (read "40001" answered online)) = false
  /\ fst (read "40001" answered online) = online
  /\ is_returned (snd (write "40001" (VNum 1) answered online)) = false
  /\ fst (write "40001" (VNum 1) answered online) = online.
Proof.
  apply (address_without_colon_is_refused "40001" (VNum 1) answered online).
  reflexivity.
Defined.

(** ** Modbus adapter: writes *)

(** X6. [write] counts in [writeCount], and records the latency of, the
    writes that succeed, and never touches [readCount]; a write that
    fails is counted in [errorCount] when the adapter was connected and
    the address parsed, and in no metric otherwise. *)
Theorem write_counts_successes
    (addr : string) (v : DeviceValue) (r : Reply) (a : ModbusAdapter) :
  let m := metrics a in
  let m' := metrics (fst (write addr v r a)) in
  readCount m' = readCount m
  /\ match snd (write addr v r a) with
     | Returned _ =>
         writeCount m' = writeCount m + 1
         /\ lastLatency m' = t_end r - t_start r
         /\ totalLatency m' = totalLatency m + (t_end r - t_start r)
         /\ errorCount m' = errorCount m
     | Threw _ =>
         writeCount m' = writeCount m
         /\ lastLatency m' = lastLatency m
         /\ totalLatency m' = totalLatency m
         /\ errorCount m' =
            errorCount m + (if is_returned (write_begin addr a) then 1 else 0)
     end.
Proof.
  unfold write.
  destruct (write_begin addr a) as [req|e]; simpl.
  - destruct (type req); destruct (answer r) as [values|e]; simpl;
      repeat split; lia.
  - repeat split; lia.
Qed.

(** X7. Discrete inputs and input registers are read-only: on a connected
    adapter a write to one is refused by the adapter itself, whatever
    the device would answer, and counted as an error. *)
Theorem write_refuses_read_only_areas
    (addr : string) (v : DeviceValue) (r : Reply) (a : ModbusAdapter)
    (req : ModbusAddress) :
  write_begin addr a = Returned req ->
  type req = discrete \/ type req = input ->
  snd (write addr v r a)
  = Threw ("Cannot write to " +:+ type_name (type req) +:+ " address")
  /\ metrics (fst (write addr v r a)) = count_error (metrics a).
Proof.
  intros Hb Ht. unfold write. rewrite Hb.
  destruct Ht as [-> | ->]; simpl; auto.
Qed.

Lemma write_refuses_read_only_areas_witness :
  snd (write "IR:7" (VNum 1) answered online)
  = Threw ("Cannot write to " +:+ type_name input +:+ " address")
  /\ metrics (fst (write "IR:7" (VNum 1) answered online))
     = count_error (metrics online).
Proof.
  apply (write_refuses_read_only_areas "IR:7" (VNum 1) answered online
           {| type := input; address := 7; quantity := Some 1 |}).
  - reflexivity.
  - right. reflexivity.
Defined.

End ModbusMore.

(** ** Modbus adapter: the life of a subscription *)

Module PollingMore.
Import Modbus ModbusSpec PollingFacts.

(** X8. Whatever has happened to an adapter, [disconnect] leaves no timer
    behind: no active interval timer, no subscription, no callback, and
    the adapter not connected. *)
Theorem disconnect_releases_everything (es : list Event) :
  let s := disconnect (run (boot fresh) es) in
  timers s = ∅
  /\ subscriptions (self s) = ∅
  /\ subscriptionCallbacks (self s) = ∅
  /\ isConnected (self s) = false
  /\ forall addr, timersFor addr s = [].
Proof.
  intros s.
  assert (Hc : consistent s).
  { apply consistent_disconnect, consistent_run, consistent_boot. }
  assert (Ht : timers s = ∅).
  { apply map_eq. intros h. rewrite lookup_empty.
    destruct (timers s !! h) as [iv|] eqn:E; [|reflexivity].
    destruct Hc as (H1 & _). apply H1 in E. simpl in E.
    rewrite lookup_empty in E. discriminate. }
  repeat split; try reflexivity; [exact Ht|].
  intros addr. apply timersFor_unsubscribed; [exact Hc|]. apply lookup_empty.
Qed.

(** X9. Disconnecting twice is disconnecting once. *)
Theorem disconnect_is_idempotent (s : System) :
  disconnect (disconnect s) = disconnect s.
Proof.
  unfold disconnect. simpl. rewrite map_to_list_empty. simpl.
  destruct (socket (self s)); reflexivity.
Qed.

(** X10. On an address that is not subscribed, [subscribe] followed by
    [unsubscribe] leaves the adapter and the timers as they were: only a
    timer handle has been used up. *)
Theorem unsubscribe_undoes_subscribe
    (es : list Event) (addr : string) (cb : Listener) (interval : option Z) :
  let s := run (boot fresh) es in
  subscriptions (self s) !! addr = None ->
  let s' := unsubscribe addr (fst (subscribe addr cb interval s)) in
  self s' = self s /\ timers s' = timers s
  /\ inflight s' = inflight s /\ notified s' = notified s
  /\ nextTimer s' = S (nextTimer s).
Proof.
  intros s Hnone s'.
  assert (Hc : consistent s) by (apply consistent_run, consistent_boot).
  destruct Hc as (_ & _ & H3 & H4).
  assert (Hfresh : timers s !! nextTimer s = None).
  { destruct (timers s !! nextTimer s) as [iv|] eqn:E; [|reflexivity].
    apply H4 in E. lia. }
  subst s'. unfold subscribe. rewrite Hnone. unfold unsubscribe. simpl.
  rewrite lookup_insert_eq. simpl.
  rewrite !delete_insert_id by auto.
  repeat split. destruct (self s); reflexivity.
Qed.

Lemma unsubscribe_undoes_subscribe_witness :
  let s := run (boot fresh) [EConnect plc LinkUp] in
  let s' := unsubscribe "HR:1" (fst (subscribe "HR:1" (quiet 1) None s)) in
  self s' = self s /\ timers s' = timers s
  /\ inflight s' = inflight s /\ notified s' = notified s
  /\ nextTimer s' = S (nextTimer s).
Proof.
  apply (unsubscribe_undoes_subscribe [EConnect plc LinkUp] "HR:1" (quiet 1) None).
  reflexivity.
Defined.

Lemma polling_step_keeps_connection (s : System) (e : Event) :
  isPolling e = true ->
  bookkeeping (step s e) = bookkeeping s
  /\ connectionStatus (self (step s e)) = connectionStatus (self s)
  /\ socket (self (step s e)) = socket (self s).
Proof.
  destruct e as [cfg link|addr cb interval|addr| |timer now|i ans now];
    try discriminate; intros _; simpl.
  - split; [apply tick_bookkeeping|].
    unfold tick. destruct (timers s !! timer) as [iv|]; [|auto].
    destruct (read_begin _ _); auto.
  - split; [apply readDone_bookkeeping|].
    unfold readDone. destruct (inflight s !! i) as [p|]; [|auto].
    unfold read_end; simpl. destruct ans as [[vs|]|e]; simpl.
    + unfold notifyGood. destruct (cb_run _ _); auto.
    + auto.
    + auto.
Qed.

(** X11. Polling never ends a subscription and never disconnects: through
    any ticks and any answers, failures included, the subscriptions,
    their callbacks and timers and the connection state stay as they
    are. *)
Theorem polling_keeps_subscriptions (es : list Event) :
  forall s : System,
    Forall (fun e => isPolling e = true) es ->
    timers (run s es) = timers s
    /\ subscriptions (self (run s es)) = subscriptions (self s)
    /\ subscriptionCallbacks (self (run s es)) = subscriptionCallbacks (self s)
    /\ isConnected (self (run s es)) = isConnected (self s).
Proof.
  induction es as [|e es IH]; intros s Hall; simpl; [auto|].
  apply Forall_cons in Hall as [He Hall].
  destruct (polling_step_keeps_connection s e He) as (Hb & Hst & Hso).
  destruct (IH (step s e) Hall) as (H1 & H2 & H3 & H4).
  unfold bookkeeping in Hb. injection Hb as E1 E2 E3 _.
  rewrite H1, H2, H3, H4. unfold isConnected. rewrite Hst, Hso. auto.
Qed.

Lemma polling_keeps_subscriptions_witness :
  let es := [ETick 0%nat 1000; EReadDone 0%nat (Threw "Req timed out") 1010;
             ETick 0%nat 2000] in
  timers (run polling es) = timers polling
  /\ subscriptions (self (run polling es)) = subscriptions (self polling)
  /\ subscriptionCallbacks (self (run polling es)) = subscriptionCallbacks (self polling)
  /\ isConnected (self (run polling es)) = isConnected (self polling).
Proof.
  apply (polling_keeps_subscriptions
           [ETick 0%nat 1000; EReadDone 0%nat (Threw "Req timed out") 1010;
            ETick 0%nat 2000] polling).
  repeat constructor.
Defined.

Lemma goodEvent_set_metrics m a addr v now :
  goodEvent (set_metrics m a) addr v now = goodEvent a addr v now.
Proof. reflexivity. Qed.

Lemma readDone_notified
    (s : System) (i : nat) (p : PendingRead) (ans : Answer) (now : Z) :
  inflight s !! i = Some p ->
  inflight (readDone i ans now s) = take i (inflight s) ++ drop (S i) (inflight s)
  /\ notified (readDone i ans now s)
     = notified s ++
       match ans with
       | Returned (Some values) =>
           let value := if quantityOr1 (pr_request p) =? 1
                        then default VUndefined (values !! 0%nat)
                        else VArr values in
           let reading := goodEvent (self s) (pr_address p) value now in
           (cb_id (pr_callback p), reading)
           :: (if is_returned (cb_run (pr_callback p) (PData reading)) then []
               else [(cb_id (pr_callback p), badEvent (self s) (pr_address p) now)])
       | Returned None | Threw _ =>
           [(cb_id (pr_callback p), badEvent (self s) (pr_address p) now)]
       end.
Proof.
  intros Hp. unfold readDone. rewrite Hp.
  unfold read_end; simpl. destruct ans as [[values|]|e]; simpl.
  - unfold notifyGood; simpl. rewrite !goodEvent_set_metrics.
    destruct (cb_run (pr_callback p) _); simpl.
    + auto.
    + rewrite <- app_assoc. auto.
  - auto.
  - auto.
Qed.

(** X12. Every read in flight ends in a notification of its callback:
    the value with quality good when the read succeeded, that is when
    the response carried values; the value 0 with quality bad when the
    request failed or the response carried no values; and the bad
    event follows the good one when the callback throws on the good
    one. *)
Theorem finished_read_is_delivered
    (s : System) (i : nat) (p : PendingRead) (ans : Answer) (now : Z) :
  inflight s !! i = Some p ->
  let cb := pr_callback p in
  let degraded := badEvent (self s) (pr_address p) now in
  inflight (readDone i ans now s) = take i (inflight s) ++ drop (S i) (inflight s)
  /\ notified (readDone i ans now s)
     = notified s ++
       match ans with
       | Returned (Some values) =>
           let value := if quantityOr1 (pr_request p) =? 1
                        then default VUndefined (values !! 0%nat)
                        else VArr values in
           let reading := goodEvent (self s) (pr_address p) value now in
           (cb_id cb, reading)
           :: (if is_returned (cb_run cb (PData reading)) then []
               else [(cb_id cb, degraded)])
       | Returned None | Threw _ => [(cb_id cb, degraded)]
       end.
Proof. intros Hp cb degraded. apply readDone_notified, Hp. Qed.

Lemma finished_read_is_delivered_witness :
  let s := run polling [ETick 0%nat 1000] in
  let p := {| pr_address := "HR:1";
              pr_request := {| type := holding; address := 1; quantity := Some 1 |};
              pr_start := 1000; pr_callback := quiet 1 |} in
  inflight (readDone 0 (Returned None) 1010 s)
  = take 0 (inflight s) ++ drop 1 (inflight s)
  /\ notified (readDone 0 (Returned None) 1010 s)
     = notified s ++ [(cb_id (pr_callback p), badEvent (self s) (pr_address p) 1010)].
Proof.
  apply (finished_read_is_delivered (run polling [ETick 0%nat 1000]) 0
           {| pr_address := "HR:1";
              pr_request := {| type := holding; address := 1; quantity := Some 1 |};
              pr_start := 1000; pr_callback := quiet 1 |}
           (Returned None) 1010).
  reflexivity.
Defined.

(** X13. Cancellation does not reach the reads already issued: a read in
    flight when its address is unsubscribed, or when the adapter is
    disconnected, still ends in a notification of its callback. *)
Theorem reads_in_flight_outlive_their_subscription
    (s : System) (addr : string) (i : nat) (p : PendingRead)
    (ans : Answer) (now : Z) :
  inflight s !! i = Some p ->
  (exists ev rest,
     notified (readDone i ans now (unsubscribe addr s))
     = notified s ++ (cb_id (pr_callback p), ev) :: rest
     /\ ev_address ev = pr_address p)
  /\ (exists ev rest,
        notified (readDone i ans now (disconnect s))
        = notified s ++ (cb_id (pr_callback p), ev) :: rest
        /\ ev_address ev = pr_address p).
Proof.
  intros Hp.
  assert (Hu : inflight (unsubscribe addr s) !! i = Some p
               /\ notified (unsubscribe addr s) = notified s).
  { unfold unsubscribe. destruct (subscriptions (self s) !! addr); auto. }
  destruct Hu as [Hu Hn].
  split.
  - destruct (readDone_notified _ i p ans now Hu) as [_ ->].
    rewrite Hn. destruct ans as [[values|]|e]; simpl; eauto.
  - destruct (readDone_notified (disconnect s) i p ans now Hp) as [_ ->].
    simpl. destruct ans as [[values|]|e]; simpl; eauto.
Qed.

Lemma reads_in_flight_outlive_their_subscription_witness :
  let s := run polling [ETick 0%nat 1000] in
  let p := {| pr_address := "HR:1";
              pr_request := {| type := holding; address := 1; quantity := Some 1 |};
              pr_start := 1000; pr_callback := quiet 1 |} in
  (exists ev rest,
     notified (readDone 0 (Returned (Some [VNum 7])) 1010 (unsubscribe "HR:1" s))
     = notified s ++ (cb_id (pr_callback p), ev) :: rest
     /\ ev_address ev = pr_address p)
  /\ (exists ev rest,
        notified (readDone 0 (Returned (Some [VNum 7])) 1010 (disconnect s))
        = notified s ++ (cb_id (pr_callback p), ev) :: rest
        /\ ev_address ev = pr_address p).
Proof.
  apply (reads_in_flight_outlive_their_subscription
           (run polling [ETick 0%nat 1000]) "HR:1" 0
           {| pr_address := "HR:1";
              pr_request := {| type := holding; address := 1; quantity := Some 1 |};
              pr_start := 1000; pr_callback := quiet 1 |}
           (Returned (Some [VNum 7])) 1010).
  reflexivity.
Defined.

End PollingMore.

(** ** Device manager: configurations and connections *)

Module DeviceManagerMore.
Import DeviceManager DeviceManagerSpec DeviceManagerFacts.

Section AnyAdapter.

Context {A Link Reply : Type} `{ProtocolAdapter A Link Reply}.

Lemma emit_published (name : string) (p : payload) (b : EventBus.t) :
  EventBus.published (EventBus.bus_after (EventBus.emit name p b))
  = EventBus.published b ++ [(name, p)].
Proof.
  unfold EventBus.emit. destruct (EventBus.listenersOf b name) as [|c ls];
    [reflexivity|].
  destruct (EventBus.call_listeners (c :: ls) p); reflexivity.
Qed.

(** X14. Once the adapter's [connect] has succeeded, the adapter is
    registered and a "connected" status event is published; when a
    status listener throws, [connectDevice] fails with that error
    although the adapter is registered and connected. *)
Theorem connected_adapter_is_registered
    (id : string) (link : Link) (now : Z) (dm : t A)
    (cfg : DeviceConfig) (factory a : A) :
  configs dm !! id = Some cfg ->
  factories dm !! protocol cfg = Some factory ->
  isConnected id dm = false ->
  adapter_connect cfg link factory = (a, Returned tt) ->
  let dm' := fst (connectDevice id link now dm) in
  adapters dm' !! id = Some (made dm, installErrorHook id a)
  /\ EventBus.published (bus dm')
     = EventBus.published (bus dm) ++ [("status", PStatus id "connected" now)]
  /\ snd (connectDevice id link now dm)
     = match EventBus.result (EventBus.emitStatus id "connected" now (bus dm)) with
       | Threw e => Threw e
       | Returned _ => Returned (made dm)
       end.
Proof.
  intros Hc Hf Hi Ha dm'. subst dm'. unfold connectDevice.
  rewrite (begin_connects id dm cfg factory Hc Hf Hi).
  unfold connectDevice_resume. rewrite Ha. simpl.
  rewrite lookup_insert_eq. unfold EventBus.emitStatus.
  rewrite emit_published. auto.
Qed.

(** X16. [connectDevice] begins with the configuration: without one it
    fails, whatever is registered. Removing a configuration does not
    disconnect the device (its adapter stays registered and keeps
    serving reads) but makes [connectDevice] fail from then on, for a
    connected device too. *)
Theorem removed_config_blocks_connect
    (id addr : string) (link : Link) (reply : Reply) (now : Z) (dm : t A) :
  connectDevice id link now (removeDeviceConfig id dm)
  = (removeDeviceConfig id dm, Threw ("Device configuration not found: " +:+ id))
  /\ adapters (removeDeviceConfig id dm) = adapters dm
  /\ snd (read id addr reply (removeDeviceConfig id dm)) = snd (read id addr reply dm).
Proof.
  split; [|split; [reflexivity|]].
  - unfold connectDevice, connectDevice_begin. simpl.
    rewrite lookup_delete_eq. reflexivity.
  - unfold read. simpl. destruct (adapters dm !! id) as [[n a]|]; [|reflexivity].
    destruct (adapter_read addr reply a). reflexivity.
Qed.

(** X17. [disconnectDevice] removes the adapter and publishes one
    "disconnected" status event; called again at once, it does nothing
    and publishes nothing. On a device without adapter it does
    nothing. *)
Theorem disconnectDevice_is_idempotent
    (id : string) (now now' : Z) (dm : t A) :
  match adapters dm !! id with
  | None => disconnectDevice id now dm = (dm, Returned tt)
  | Some (n, a) =>
      match adapter_disconnect a with
      | (_, Returned _) =>
          let dm' := fst (disconnectDevice id now dm) in
          adapters dm' = delete id (adapters dm)
          /\ EventBus.published (bus dm')
             = EventBus.published (bus dm)
               ++ [("status", PStatus id "disconnected" now)]
          /\ disconnectDevice id now' dm' = (dm', Returned tt)
      | (a', Threw e) =>
          disconnectDevice id now dm
          = (set_adapters (<[id := (n, a')]> (adapters dm)) dm, Threw e)
      end
  end.
Proof.
  destruct (adapters dm !! id) as [[n a]|] eqn:E.
  - destruct (adapter_disconnect a) as [a' [u|e]] eqn:Ed.
    + assert (Hd : disconnectDevice id now dm
                   = (set_bus (EventBus.bus_after
                                 (EventBus.emitStatus id "disconnected" now (bus dm)))
                        (set_adapters (delete id (adapters dm)) dm),
                      match EventBus.result
                              (EventBus.emitStatus id "disconnected" now (bus dm)) with
                      | Threw e => Threw e
                      | Returned _ => Returned tt
                      end)).
      { unfold disconnectDevice. rewrite E, Ed. reflexivity. }
      rewrite Hd. simpl. unfold EventBus.emitStatus. rewrite emit_published.
      repeat split. unfold disconnectDevice. simpl.
      rewrite lookup_delete_eq. reflexivity.
    + unfold disconnectDevice. rewrite E, Ed. reflexivity.
  - unfold disconnectDevice. rewrite E. reflexivity.
Qed.

Lemma addDeviceConfigs_app (good rest : list DeviceConfig) (dm : t A) :
  Forall (fun c => deviceId c <> "") good ->
  snd (addDeviceConfigs good dm) = Returned tt
  /\ addDeviceConfigs (good ++ rest) dm
     = addDeviceConfigs rest (fst (addDeviceConfigs good dm)).
Proof.
  intros Hg. revert dm. induction Hg as [|c good Hc _ IH]; intros dm; simpl; [auto|].
  unfold addDeviceConfig. apply String.eqb_neq in Hc. rewrite Hc. apply IH.
Qed.

(** X18. [addDeviceConfigs] is not all-or-nothing: it stops at the first
    configuration without device id with "Device ID is required", the
    configurations before it are added and those after it are not.
    Among the added ones the last configuration of a device id wins,
    and no adapter is touched. *)
Theorem addDeviceConfigs_stops_at_first_invalid
    (good rest : list DeviceConfig) (invalid : DeviceConfig) (dm : t A) :
  Forall (fun c => deviceId c <> "") good ->
  deviceId invalid = "" ->
  let dm' := fst (addDeviceConfigs good dm) in
  addDeviceConfigs (good ++ invalid :: rest) dm = (dm', Threw "Device ID is required")
  /\ adapters dm' = adapters dm
  /\ forall id,
       configs dm' !! id
       = match last (filter (fun c => deviceId c = id) good) with
         | Some c => Some c
         | None => configs dm !! id
         end.
Proof.
  intros Hg Hi dm'. subst dm'. split; [|split].
  - destruct (addDeviceConfigs_app good (invalid :: rest) dm Hg) as [_ ->].
    simpl. unfold addDeviceConfig. rewrite Hi. reflexivity.
  - clear Hi. revert dm. induction Hg as [|c good Hc _ IH]; intros dm; simpl; [reflexivity|].
    unfold addDeviceConfig. apply String.eqb_neq in Hc. rewrite Hc.
    rewrite IH. reflexivity.
  - clear Hi. induction good as [|c good IH] using rev_ind; intros id; simpl.
    + reflexivity.
    + apply Forall_app in Hg as [Hg Hc]. apply Forall_cons in Hc as [Hc _].
      destruct (addDeviceConfigs_app good [c] dm Hg) as [_ ->].
      simpl. unfold addDeviceConfig. apply String.eqb_neq in Hc. rewrite Hc. simpl.
      rewrite filter_app, filter_cons, filter_nil.
      destruct (decide (deviceId c = id)) as [<-|Hne].
      * rewrite lookup_insert_eq, last_snoc. reflexivity.
      * rewrite lookup_insert_ne by exact Hne. rewrite app_nil_r. apply IH, Hg.
Qed.

Lemma sameFor_trans (id : string) (dm1 dm2 dm3 : t A) :
  sameFor id dm1 dm2 -> sameFor id dm2 dm3 -> sameFor id dm1 dm3.
Proof.
  unfold sameFor. intros (-> & -> & -> & ->) (-> & -> & -> & ->). auto.
Qed.

Lemma emit_result_local (name : string) (p : payload) (b b' : EventBus.t) :
  EventBus.listeners b' = EventBus.listeners b ->
  EventBus.result (EventBus.emit name p b') = EventBus.result (EventBus.emit name p b).
Proof.
  intros Hl. rewrite !EventBusFacts.emit_result.
  unfold EventBus.listenersOf. rewrite Hl. reflexivity.
Qed.

Lemma emit_keeps_listeners (name : string) (p : payload) (b : EventBus.t) :
  EventBus.listeners (EventBus.bus_after (EventBus.emit name p b))
  = EventBus.listeners b.
Proof.
  unfold EventBus.emit. destruct (EventBus.listenersOf b name) as [|c ls];
    [reflexivity|].
  destruct (EventBus.call_listeners (c :: ls) p); reflexivity.
Qed.

(** Whether [connectDevice] for a device fails, and with what, depends
    on the manager only through what [sameFor] compares. *)
Lemma connectDevice_error_local (id : string) (link : Link) (now : Z) (dm dm' : t A) :
  sameFor id dm dm' ->
  errorOf (snd (connectDevice id link now dm'))
  = errorOf (snd (connectDevice id link now dm)).
Proof.
  intros (Hc & Hf & Ha & Hl). unfold connectDevice, connectDevice_begin.
  rewrite Hc, Hf, Ha.
  destruct (configs dm !! id) as [cfg|]; [|reflexivity].
  assert (Hresume : forall (factory : A) obj obj' d d',
             bus d' = bus dm' -> bus d = bus dm ->
             errorOf (snd (connectDevice_resume id obj' factory cfg link now d'))
             = errorOf (snd (connectDevice_resume id obj factory cfg link now d))).
  { intros factory obj obj' d d' Hb' Hb. unfold connectDevice_resume.
    destruct (adapter_connect cfg link factory) as [a [u|e]]; [|reflexivity].
    simpl. rewrite Hb', Hb. unfold EventBus.emitStatus.
    rewrite (emit_result_local _ _ (bus dm) (bus dm') Hl).
    destruct (EventBus.result _); reflexivity. }
  destruct (adapters dm !! id) as [[n existing]|].
  - destruct (adapter_isConnected existing); [reflexivity|].
    destruct (factories dm !! protocol cfg) as [factory|]; [|reflexivity].
    apply Hresume; reflexivity.
  - destruct (factories dm !! protocol cfg) as [factory|]; [|reflexivity].
    apply Hresume; reflexivity.
Qed.

(** [connectDevice] for one device leaves the managers the same for
    every other device. *)
Lemma connectDevice_other (id id' : string) (link : Link) (now : Z) (dm : t A) :
  id <> id' -> sameFor id dm (fst (connectDevice id' link now dm)).
Proof.
  intros Hne. unfold connectDevice.
  destruct (begin_keeps_registry id' dm) as (Ha & Hf & Hc & Hb).
  destruct (connectDevice_begin id' dm) as [dm1 [r|obj a cfg]]; simpl in *.
  - unfold sameFor. rewrite Ha, Hf, Hc, Hb. auto.
  - unfold connectDevice_resume.
    destruct (adapter_connect cfg link a) as [a' [u|e]]; simpl.
    + unfold sameFor; simpl. rewrite Ha, Hf, Hc, Hb.
      rewrite lookup_insert_ne by congruence.
      unfold EventBus.emitStatus. rewrite emit_keeps_listeners. auto.
    + unfold sameFor. rewrite Ha, Hf, Hc, Hb. auto.
Qed.

Lemma connectAllOver_results
    (links : string -> Link) (times : string -> Z) (dm : t A) (ids : list string) :
  forall (dm' : t A) (results : gmap string (option string)) (id : string),
    NoDup ids ->
    (forall i, i ∈ ids -> sameFor i dm dm') ->
    snd (connectAllOver ids links times dm' results) !! id
    = if decide (id ∈ ids)
      then Some (errorOf (snd (connectDevice id (links id) (times id) dm)))
      else results !! id.
Proof.
  induction ids as [|id0 rest IH]; intros dm' results id Hnd Hsame;
    cbn [connectAllOver snd].
  - rewrite decide_False; [reflexivity|]. apply not_elem_of_nil.
  - apply NoDup_cons in Hnd as [Hnin Hnd].
    destruct (connectDevice id0 (links id0) (times id0) dm') as [dm'' r] eqn:E.
    rewrite IH; [|exact Hnd|].
    + destruct (decide (id ∈ rest)) as [Hin|Hout].
      * rewrite decide_True; [reflexivity|]. apply list_elem_of_further, Hin.
      * destruct (decide (id0 = id)) as [<-|Hne].
        -- rewrite lookup_insert_eq, decide_True by apply list_elem_of_here.
           f_equal. replace r with (snd (connectDevice id0 (links id0) (times id0) dm'))
             by (rewrite E; reflexivity).
           apply connectDevice_error_local, Hsame, list_elem_of_here.
        -- rewrite lookup_insert_ne by exact Hne.
           rewrite decide_False; [reflexivity|].
           intros Hin. apply elem_of_cons in Hin as [->|Hin]; [congruence|tauto].
    + intros i Hi. apply (sameFor_trans i dm dm' dm'').
      * apply Hsame, list_elem_of_further, Hi.
      * replace dm'' with (fst (connectDevice id0 (links id0) (times id0) dm'))
          by (rewrite E; reflexivity).
        apply connectDevice_other. intros ->. tauto.
Qed.

(** X19. [connectAll] tries every device and lets no failure spread: each
    device gets recorded what its own [connectDevice], called alone,
    would have given ([null], or its error), whatever happened to the
    devices before it; nothing is recorded for other ids. *)
Theorem connectAll_devices_are_independent
    (ids : list string) (links : string -> Link) (times : string -> Z)
    (dm : t A) (id : string) :
  NoDup ids ->
  snd (connectAll ids links times dm) !! id
  = if decide (id ∈ ids)
    then Some (errorOf (snd (connectDevice id (links id) (times id) dm)))
    else None.
Proof.
  intros Hnd. unfold connectAll.
  rewrite (connectAllOver_results links times dm ids dm ∅ id Hnd).
  - destruct (decide (id ∈ ids)); [reflexivity|apply lookup_empty].
  - intros i _. unfold sameFor. auto.
Qed.

Lemma disconnectDevice_unregisters (id : string) (now : Z) (dm : t A) :
  (forall a : A, snd (adapter_disconnect a) = Returned tt) ->
  adapters (fst (disconnectDevice id now dm)) = delete id (adapters dm).
Proof.
  intros Hok. unfold disconnectDevice.
  destruct (adapters dm !! id) as [[n a]|] eqn:E.
  - specialize (Hok a). destruct (adapter_disconnect a) as [a' [u|e]];
      [reflexivity|discriminate].
  - simpl. symmetry. apply delete_id, E.
Qed.


End AnyAdapter.

(** *** With Modbus devices *)

Lemma connected_adapter_is_registered_witness :
  let dm' := fst (connectDevice "plc1" Modbus.LinkUp 7 gateway) in
  adapters dm' !! "plc1"
  = Some (made gateway, installErrorHook "plc1" (Modbus.boot ModbusSpec.online))
  /\ EventBus.published (bus dm')
     = EventBus.published (bus gateway) ++ [("status", PStatus "plc1" "connected" 7)]
  /\ snd (connectDevice "plc1" Modbus.LinkUp 7 gateway)
     = match EventBus.result (EventBus.emitStatus "plc1" "connected" 7 (bus gateway)) with
       | Threw e => Threw e
       | Returned _ => Returned (made gateway)
       end.
Proof.
  apply (connected_adapter_is_registered "plc1" Modbus.LinkUp 7 gateway
           ModbusSpec.plc (Modbus.boot Modbus.fresh) (Modbus.boot ModbusSpec.online)).
  - reflexivity.
  - reflexivity.
  - reflexivity.
  - reflexivity.
Defined.

Lemma addDeviceConfigs_stops_at_first_invalid_witness :
  let dm' := fst (addDeviceConfigs [ModbusSpec.plc; meter] (create (A := Modbus.System))) in
  addDeviceConfigs ([ModbusSpec.plc; meter] ++ nameless :: [ModbusSpec.plc])
                   (create (A := Modbus.System))
  = (dm', Threw "Device ID is required")
  /\ adapters dm' = adapters (create (A := Modbus.System))
  /\ forall id,
       configs dm' !! id
       = match last (filter (fun c => deviceId c = id) [ModbusSpec.plc; meter]) with
         | Some c => Some c
         | None => configs (create (A := Modbus.System)) !! id
         end.
Proof.
  apply (addDeviceConfigs_stops_at_first_invalid
           [ModbusSpec.plc; meter] [ModbusSpec.plc] nameless
           (create (A := Modbus.System))).
  - repeat constructor; discriminate.
  - reflexivity.
Defined.

Lemma connectAll_devices_are_independent_witness :
  snd (connectAll ["meter1"; "plc1"] linksOf (fun _ => 0) plant) !! "plc1"
  = if decide ("plc1" ∈ ["meter1"; "plc1"])
    then Some (errorOf (snd (connectDevice "plc1" (linksOf "plc1") 0 plant)))
    else None.
Proof.
  apply (connectAll_devices_are_independent ["meter1"; "plc1"] linksOf (fun _ => 0)
           plant "plc1").
  apply NoDup_cons. split; [|apply NoDup_singleton].
  rewrite list_elem_of_singleton. discriminate.
Defined.


(** X15. A [connectDevice] that has succeeded is not repeated: the next call
    for the device, however its link would fare, returns the same
    adapter and changes nothing (no adapter made, no connection
    attempt, no event). *)
Theorem connectDevice_again_changes_nothing
    (id : string) (link link' : Modbus.Link) (now now' : Z)
    (dm : t Modbus.System) (n : nat) :
  snd (connectDevice id link now dm) = Returned n ->
  connectDevice id link' now' (fst (connectDevice id link now dm))
  = (fst (connectDevice id link now dm), Returned n).
Proof.
  intros Hn.
  destruct (configs dm !! id) as [cfg|] eqn:Ec.
  2:{ unfold connectDevice, connectDevice_begin in Hn. rewrite Ec in Hn. discriminate. }
  destruct (isConnected id dm) eqn:Hi.
  - unfold isConnected in Hi.
    destruct (adapters dm !! id) as [[n0 existing]|] eqn:Ea; [|discriminate].
    assert (Hfirst : forall l t, connectDevice id l t dm = (dm, Returned n0)).
    { intros l t. unfold connectDevice, connectDevice_begin.
      rewrite Ec, Ea, Hi. reflexivity. }
    rewrite Hfirst in Hn. injection Hn as <-.
    rewrite !Hfirst. simpl. rewrite ?Hfirst. reflexivity.
  - destruct (factories dm !! protocol cfg) as [factory|] eqn:Ef.
    2:{ unfold connectDevice in Hn.
        rewrite (begin_without_factory id dm cfg Ec Ef Hi) in Hn. discriminate. }
    assert (Hfirst : connectDevice id link now dm
                     = connectDevice_resume id (made dm) factory cfg link now
                         {| adapters := adapters dm; factories := factories dm;
                            configs := configs dm; bus := bus dm;
                            made := S (made dm) |}).
    { unfold connectDevice. rewrite (begin_connects id dm cfg factory Ec Ef Hi).
      reflexivity. }
    rewrite Hfirst in *. unfold connectDevice_resume in *. simpl in *.
    destruct link as [|e|e]; simpl in *; try discriminate.
    destruct (EventBus.result _) as [b|e] eqn:Er; [|discriminate].
    injection Hn as <-.
    unfold connectDevice, connectDevice_begin. simpl.
    rewrite Ec, lookup_insert_eq. reflexivity.
Qed.

Lemma connectDevice_again_changes_nothing_witness :
  connectDevice "plc1" (Modbus.LinkFailed "ECONNREFUSED") 8
                (fst (connectDevice "plc1" Modbus.LinkUp 7 gateway))
  = (fst (connectDevice "plc1" Modbus.LinkUp 7 gateway), Returned 0%nat).
Proof.
  apply (connectDevice_again_changes_nothing "plc1" Modbus.LinkUp
           (Modbus.LinkFailed "ECONNREFUSED") 7 8 gateway 0).
  reflexivity.
Defined.

End DeviceManagerMore.

(** ** Connection pool: waiters, cleanup and shutdown *)

Module ConnectionPoolMore.
Import ConnectionPool ConnectionPoolSpec ConnectionPoolFacts.

Section AnyResource.

Variable T : Type.

Lemma scan_calls_other (i j pos : nat) (key : string) (s : t T) :
  i <> j -> calls (scan T i pos key s) !! j = calls s !! j.
Proof.
  intros Hne. unfold scan.
  destruct (firstIdle T s (drop pos (pool s)) pos) as [[p obj]|]; simpl.
  - apply list_lookup_insert_ne, Hne.
  - destruct (Z.of_nat (size s) <? maxConnections (options s)); simpl;
      apply list_lookup_insert_ne, Hne.
Qed.

Lemma scan_waitQueue (i j pos : nat) (key : string) (s : t T) :
  i <> j -> j ∉ waitQueue s -> j ∉ waitQueue (scan T i pos key s).
Proof.
  intros Hne Hj. unfold scan.
  destruct (firstIdle T s (drop pos (pool s)) pos) as [[p obj]|]; simpl; [exact Hj|].
  destruct (Z.of_nat (size s) <? maxConnections (options s)); simpl; [exact Hj|].
  rewrite elem_of_app, list_elem_of_singleton. intros [Hin| ->]; [tauto|congruence].
Qed.

Lemma sweep_fields (j : nat) (now : Z) (pos : nat) (s : t T) :
  pool (sweep T j now pos s) = pool s
  /\ objects (sweep T j now pos s) = objects s
  /\ calls (sweep T j now pos s) = calls s
  /\ waitQueue (sweep T j now pos s) = waitQueue s.
Proof.
  unfold sweep. destruct (firstStale T now s (drop pos (pool s)) pos) as [[q obj]|];
    repeat split.
Qed.

Lemma destroy_fields (obj : nat) (res : outcome unit) (s : t T) :
  objects (fst (destroy obj res s)) = objects s
  /\ calls (fst (destroy obj res s)) = calls s
  /\ waitQueue (fst (destroy obj res s)) = waitQueue s
  /\ tasks (fst (destroy obj res s)) = tasks s.
Proof.
  unfold destroy. destruct res; [|repeat split].
  destruct (objects s !! obj); repeat split.
Qed.

(** [initialize], [cleanup] and [destroy] leave the calls of [acquire]
    and the wait queue alone. *)
Lemma background_keeps_calls (s : t T) (e : Event T) :
  isBackground e = true ->
  calls (step s e) = calls s /\ waitQueue (step s e) = waitQueue s.
Proof.
  destruct e as [key|i verdict now key|i res now|i|i|obj now
                |keys|j res now|j|j now|obj|j res|j]; try discriminate;
    intros _; simpl.
  - auto.
  - unfold filled.
    destruct (tasks s !! j) as [[more| | |key owner|o|nw ps o|nw ps|o| |e]|]; auto.
    destruct res; auto.
  - unfold initialized.
    destruct (tasks s !! j) as [[[|more]| | |key owner|o|nw ps o|nw ps|o| |e]|]; auto.
  - unfold cleanupTick.
    destruct (tasks s !! j) as [[more| | |key owner|o|nw ps o|nw ps|o| |e]|]; auto.
    destruct (sweep_fields (length (tasks s)) now 0
                {| objects := objects s; pool := pool s; waitQueue := waitQueue s;
                   options := options s; calls := calls s;
                   emittedEvents := emittedEvents T s;
                   tasks := tasks s ++ [Swept now 0];
                   cleanupInterval := cleanupInterval s |}) as (_ & _ & -> & ->).
    auto.
  - auto.
  - unfold destroyed.
    destruct (tasks s !! j) as [[more| | |key owner|o|nw ps o|nw ps|o| |e]|]; auto.
    + destruct (destroy_fields o res s) as (_ & Hc & Hw & _).
      destruct (destroy o res s) as [s' [u|e]]; auto.
    + destruct (destroy_fields o res s) as (_ & Hc & Hw & _).
      destruct (destroy o res s) as [s' [u|e]]; auto.
  - unfold swept.
    destruct (tasks s !! j) as [[more| | |key owner|o|nw ps o|nw ps|o| |e]|]; auto.
    destruct (sweep_fields j nw ps s) as (_ & _ & -> & ->). auto.
Qed.

(** A settled call that is not in the wait queue stays as it is through
    one step of the pool. *)
Lemma settled_step (s : t T) (e : Event T) (i : nat) (a : Acquire) :
  calls s !! i = Some a -> isSettled a = true -> i ∉ waitQueue s ->
  calls (step s e) !! i = Some a /\ i ∉ waitQueue (step s e).
Proof.
  intros Hc Ha Hw.
  assert (Hlen : (i < length (calls s))%nat) by (eapply lookup_lt_Some; eauto).
  destruct (isBackground e) eqn:Hbg.
  { destruct (background_keeps_calls s e Hbg) as [-> ->]. auto. }
  destruct e as [key|j verdict now key|j res now|j|j|obj now
                |keys|j res now|j|j now|obj|j res|j]; try discriminate; simpl.
  - unfold acquire. split.
    + rewrite scan_calls_other by lia. simpl. rewrite lookup_app_l by exact Hlen.
      exact Hc.
    + apply scan_waitQueue; [lia|exact Hw].
  - unfold validated. destruct (decide (j = i)) as [->|Hne].
    + rewrite Hc. destruct a; try discriminate; auto.
    + destruct (calls s !! j) as [[pos obj|k|o| |o|e]|]; auto.
      destruct verdict as [[]|e].
      * simpl. rewrite list_lookup_insert_ne by exact Hne. auto.
      * split; [rewrite scan_calls_other by exact Hne; exact Hc|].
        apply scan_waitQueue; assumption.
      * destruct (objects s !! obj) as [c|]; auto.
        split; [rewrite scan_calls_other by exact Hne; exact Hc|].
        apply scan_waitQueue; assumption.
  - unfold made. destruct (decide (j = i)) as [->|Hne].
    + rewrite Hc. destruct a; try discriminate; auto.
    + destruct (calls s !! j) as [[pos obj|k|o| |o|e]|]; auto.
      destruct res as [c|e]; simpl; rewrite list_lookup_insert_ne by exact Hne; auto.
  - unfold resume. destruct (decide (j = i)) as [->|Hne].
    + rewrite Hc. destruct a; try discriminate; auto.
    + destruct (calls s !! j) as [[pos obj|k|o| |o|e]|]; auto.
      simpl. rewrite list_lookup_insert_ne by exact Hne. auto.
  - unfold timedOut. destruct (decide (j ∈ waitQueue s)) as [Hin|]; auto.
    simpl. rewrite list_lookup_insert_ne by (intros ->; tauto).
    split; [exact Hc|]. rewrite list_elem_of_filter. tauto.
  - unfold release, emitEvent, setInUse, setLastUsed. simpl.
    destruct (waitQueue s) as [|w rest] eqn:Ew; simpl; auto.
    rewrite list_lookup_insert_ne.
    + split; [exact Hc|]. intros Hin. apply Hw. apply list_elem_of_further, Hin.
    + intros ->. apply Hw. apply list_elem_of_here.
Qed.

Lemma settled_run (es : list (Event T)) (i : nat) (a : Acquire) :
  forall s : t T,
    calls s !! i = Some a -> isSettled a = true -> i ∉ waitQueue s ->
    calls (run s es) !! i = Some a.
Proof.
  induction es as [|e es IH]; intros s Hc Ha Hw; simpl; [exact Hc|].
  destruct (settled_step s e i a Hc Ha Hw) as [Hc' Hw']. apply IH; assumption.
Qed.

(** X22. The promise of [acquire] settles once: a call that has got its
    connection, or its error, and is not in the wait queue is left as
    it is by everything that happens to the pool afterwards. *)
Theorem settled_acquire_is_final
    (s : t T) (es : list (Event T)) (i : nat) (a : Acquire) :
  calls s !! i = Some a -> isSettled a = true -> i ∉ waitQueue s ->
  calls (run s es) !! i = Some a.
Proof. apply settled_run. Qed.

(** X23. A waiter whose timer expires is taken out of the queue, the others
    keeping their order, and its [acquire] fails with "Connection
    acquire timeout" for good: no later release hands it a
    connection. *)
Theorem timed_out_waiter_is_never_served
    (s : t T) (i : nat) (es : list (Event T)) :
  i ∈ waitQueue s -> is_Some (calls s !! i) ->
  waitQueue (timedOut T i s) = filter (fun w => w <> i) (waitQueue s)
  /\ calls (run (timedOut T i s) es) !! i
     = Some (Rejected "Connection acquire timeout").
Proof.
  intros Hin Hsome. unfold timedOut. rewrite decide_True by exact Hin.
  split; [reflexivity|].
  apply settled_run; simpl.
  - apply list_lookup_insert_eq. apply lookup_lt_is_Some, Hsome.
  - reflexivity.
  - rewrite list_elem_of_filter. tauto.
Qed.

(** X24. [release] hands the connection straight to the waiter that has
    waited longest: the connection is in use again at once, that
    waiter's [acquire] is resolved with it, and the other waiters move
    up in their order. With nobody waiting the connection becomes
    idle. *)
Theorem release_serves_oldest_waiter (obj : nat) (now : Z) (s : t T) :
  is_Some (objects s !! obj) ->
  match waitQueue s with
  | waiter :: rest =>
      is_Some (calls s !! waiter) ->
      calls (release T obj now s) !! waiter = Some (Resolved obj)
      /\ waitQueue (release T obj now s) = rest
      /\ isInUse (release T obj now s) obj = true
  | [] =>
      calls (release T obj now s) = calls s
      /\ isInUse (release T obj now s) obj = false
  end
  /\ pool (release T obj now s) = pool s.
Proof.
  intros [c Hc]. unfold release, emitEvent, setInUse, setLastUsed. simpl.
  destruct (waitQueue s) as [|waiter rest]; simpl.
  - split; [split; [reflexivity|]|reflexivity].
    unfold isInUse; simpl. rewrite !list_lookup_alter_eq, Hc. reflexivity.
  - split; [|reflexivity]. intros Hw. split; [|split; [reflexivity|]].
    + apply list_lookup_insert_eq, lookup_lt_is_Some, Hw.
    + unfold isInUse; simpl. rewrite !list_lookup_alter_eq, Hc. reflexivity.
Qed.

(** *** The map of the pool *)

Lemma mapDelete_sub (k : string) (l : list (option (string * nat))) :
  forall pos e, mapDelete k l !! pos = Some (Some e) -> l !! pos = Some (Some e).
Proof.
  induction l as [|[[k' o]|] rest IH]; intros [|pos] e; simpl; try discriminate; auto.
  - destruct (String.eqb k' k); simpl; [discriminate|auto].
  - destruct (String.eqb k' k); simpl; auto.
Qed.

Lemma mapDelete_length (k : string) (l : list (option (string * nat))) :
  length (mapDelete k l) = length l.
Proof.
  induction l as [|[[k' o]|] rest IH]; simpl; auto.
  destruct (String.eqb k' k); simpl; auto.
Qed.

Lemma mapDelete_other (k : string) (l : list (option (string * nat))) :
  forall pos k' o, l !! pos = Some (Some (k', o)) -> k' <> k ->
    mapDelete k l !! pos = Some (Some (k', o)).
Proof.
  induction l as [|[[k0 o0]|] rest IH]; intros [|pos] k' o; simpl; try discriminate; auto.
  - intros Hl Hne. injection Hl as -> ->.
    apply String.eqb_neq in Hne. rewrite Hne. reflexivity.
  - intros Hl Hne. destruct (String.eqb k0 k); simpl; auto.
Qed.

Lemma mapDelete_empty (k : string) (l : list (option (string * nat))) :
  forall pos, l !! pos = Some None -> mapDelete k l !! pos = Some None.
Proof.
  induction l as [|[[k0 o0]|] rest IH]; intros [|pos]; simpl; try discriminate; auto.
  destruct (String.eqb k0 k); simpl; auto.
Qed.

Lemma uniqueKeys_tail (e : option (string * nat)) (l : list (option (string * nat))) :
  uniqueKeys (e :: l) -> uniqueKeys l.
Proof.
  intros Hu p1 p2 k o1 o2 H1 H2.
  specialize (Hu (S p1) (S p2) k o1 o2 H1 H2). lia.
Qed.

Lemma mapDelete_hit (k : string) (l : list (option (string * nat))) :
  uniqueKeys l ->
  forall pos o, l !! pos = Some (Some (k, o)) -> mapDelete k l !! pos = Some None.
Proof.
  induction l as [|[[k0 o0]|] rest IH]; intros Hu [|pos] o; simpl; try discriminate.
  - intros Hl. injection Hl as -> ->. rewrite String.eqb_refl. reflexivity.
  - intros Hl. destruct (String.eqb_spec k0 k) as [->|Hne].
    + specialize (Hu 0%nat (S pos) k o0 o eq_refl Hl). discriminate.
    + simpl. apply (IH (uniqueKeys_tail _ _ Hu) pos o Hl).
  - intros Hl. apply (IH (uniqueKeys_tail _ _ Hu) pos o Hl).
Qed.

Lemma mapDelete_size (k : string) (l : list (option (string * nat))) :
  (length (List.filter occupied l)
   <= S (length (List.filter occupied (mapDelete k l))))%nat.
Proof.
  induction l as [|[[k' o]|] rest IH]; simpl; [lia| |exact IH].
  destruct (String.eqb k' k); simpl; lia.
Qed.

Lemma uniqueKeys_mapDelete (k : string) (l : list (option (string * nat))) :
  uniqueKeys l -> uniqueKeys (mapDelete k l).
Proof.
  intros Hu p1 p2 k' o1 o2 H1 H2.
  apply mapDelete_sub in H1, H2. eapply Hu; eauto.
Qed.

Lemma mapSet_from (k : string) (obj : nat) (l : list (option (string * nat))) :
  forall pos k' o, mapSet k obj l !! pos = Some (Some (k', o)) ->
    (k' = k /\ o = obj) \/ l !! pos = Some (Some (k', o)).
Proof.
  induction l as [|[[k0 o0]|] rest IH]; intros pos k' o; simpl.
  - destruct pos as [|pos]; simpl; [|destruct pos; discriminate].
    intros Hl. injection Hl as <- <-. auto.
  - destruct (String.eqb k0 k); destruct pos as [|pos]; simpl; auto.
    intros Hl. injection Hl as <- <-. auto.
  - destruct pos as [|pos]; simpl; [discriminate|apply IH].
Qed.

Lemma mapSet_key_once (k : string) (obj : nat) (l : list (option (string * nat))) :
  uniqueKeys l ->
  forall p1 p2 o1 o2,
    mapSet k obj l !! p1 = Some (Some (k, o1)) ->
    mapSet k obj l !! p2 = Some (Some (k, o2)) -> p1 = p2.
Proof.
  induction l as [|[[k0 o0]|] rest IH]; intros Hu p1 p2 o1 o2; simpl.
  - destruct p1 as [|[|p1]], p2 as [|[|p2]]; simpl; try discriminate; auto.
  - destruct (String.eqb_spec k0 k) as [->|Hne].
    + destruct p1 as [|p1], p2 as [|p2]; simpl; auto.
      * intros _ H2. specialize (Hu 0%nat (S p2) k o0 o2 eq_refl H2). discriminate.
      * intros H1 _. specialize (Hu 0%nat (S p1) k o0 o1 eq_refl H1). discriminate.
      * intros H1 H2. apply (Hu (S p1) (S p2) k o1 o2 H1 H2).
    + destruct p1 as [|p1], p2 as [|p2]; simpl;
        try (intros H1 H2; congruence).
      intros H1 H2. f_equal. apply (IH (uniqueKeys_tail _ _ Hu) p1 p2 o1 o2 H1 H2).
  - destruct p1 as [|p1], p2 as [|p2]; simpl; try discriminate.
    intros H1 H2. f_equal. apply (IH (uniqueKeys_tail _ _ Hu) p1 p2 o1 o2 H1 H2).
Qed.

Lemma uniqueKeys_mapSet (k : string) (obj : nat) (l : list (option (string * nat))) :
  uniqueKeys l -> uniqueKeys (mapSet k obj l).
Proof.
  intros Hu p1 p2 k' o1 o2 H1 H2.
  destruct (String.eqb_spec k' k) as [->|Hne].
  - apply (mapSet_key_once k obj l Hu p1 p2 o1 o2 H1 H2).
  - apply mapSet_from in H1 as [[? _]|H1]; [congruence|].
    apply mapSet_from in H2 as [[? _]|H2]; [congruence|].
    apply (Hu p1 p2 k' o1 o2 H1 H2).
Qed.

Lemma mapSet_filed (k : string) (obj : nat) (l : list (option (string * nat))) :
  exists pos, mapSet k obj l !! pos = Some (Some (k, obj)).
Proof.
  induction l as [|[[k0 o0]|] rest [pos IH]]; simpl.
  - exists 0%nat. reflexivity.
  - destruct (String.eqb k0 k); [exists 0%nat|exists (S pos)]; auto.
  - exists (S pos). exact IH.
Qed.

(** *** The map and the objects fit together *)

Lemma keeps_refl (s : t T) : keeps s s.
Proof. split; eauto. Qed.

Lemma keeps_trans (s1 s2 s3 : t T) : keeps s1 s2 -> keeps s2 s3 -> keeps s1 s3.
Proof.
  intros [H1 H2] [H3 H4]. split.
  - auto.
  - intros obj c Hc. destruct (H2 obj c Hc) as (c' & Hc' & Hid).
    destruct (H4 obj c' Hc') as (c'' & Hc'' & Hid'). exists c''. split; congruence.
Qed.

Lemma wellKeyed_keeps (s s' : t T) :
  keeps s s' -> uniqueKeys (pool s') -> wellKeyed s -> wellKeyed s'.
Proof.
  intros [Hp Ho] Hu [Hf _]. split; [|exact Hu].
  intros pos k obj Hl. destruct (Hf pos k obj (Hp pos k obj Hl)) as (c & Hc & Hid).
  destruct (Ho obj c Hc) as (c' & Hc' & Hid'). exists c'. split; congruence.
Qed.

Lemma uniqueKeys_sub (l l' : list (option (string * nat))) :
  (forall pos e, l' !! pos = Some (Some e) -> l !! pos = Some (Some e)) ->
  uniqueKeys l -> uniqueKeys l'.
Proof. intros Hs Hu p1 p2 k o1 o2 H1 H2. eapply Hu; eauto. Qed.

Lemma keeps_wellKeyed (s s' : t T) : keeps s s' -> wellKeyed s -> wellKeyed s'.
Proof.
  intros Hk Hw. apply (wellKeyed_keeps s s' Hk); [|exact Hw].
  destruct Hk as [Hp _]. destruct Hw as [_ Hu].
  apply (uniqueKeys_sub (pool s)); [|exact Hu].
  intros pos [k o]. apply Hp.
Qed.

(** A step that leaves the map alone, or deletes from it, and assigns
    only to [inUse] and [lastUsed] of objects. *)
Lemma keeps_fields (s s' : t T) :
  (forall pos e, pool s' !! pos = Some (Some e) -> pool s !! pos = Some (Some e)) ->
  (forall obj c, objects s !! obj = Some c ->
     exists c', objects s' !! obj = Some c' /\ id T c' = id T c) ->
  keeps s s'.
Proof. intros Hp Ho. split; [intros pos k obj; apply Hp|exact Ho]. Qed.

Lemma setInUse_objects (obj : nat) (b : bool) (s : t T) :
  forall o c, objects s !! o = Some c ->
    exists c', objects (setInUse T obj b s) !! o = Some c' /\ id T c' = id T c.
Proof.
  intros o c Hc. unfold setInUse; simpl. rewrite list_lookup_alter.
  destruct (decide (obj = o)) as [->|]; rewrite Hc; simpl; eauto.
Qed.

Lemma setLastUsed_objects (obj : nat) (now : Z) (s : t T) :
  forall o c, objects s !! o = Some c ->
    exists c', objects (setLastUsed T obj now s) !! o = Some c' /\ id T c' = id T c.
Proof.
  intros o c Hc. unfold setLastUsed; simpl. rewrite list_lookup_alter.
  destruct (decide (obj = o)) as [->|]; rewrite Hc; simpl; eauto.
Qed.

Lemma keeps_setInUse (obj : nat) (b : bool) (s : t T) : keeps s (setInUse T obj b s).
Proof. apply keeps_fields; [auto|apply setInUse_objects]. Qed.

Lemma keeps_setLastUsed (obj : nat) (now : Z) (s : t T) :
  keeps s (setLastUsed T obj now s).
Proof. apply keeps_fields; [auto|apply setLastUsed_objects]. Qed.

Lemma keeps_same (s s' : t T) :
  pool s' = pool s -> objects s' = objects s -> keeps s s'.
Proof. intros Hp Ho. unfold keeps. rewrite Hp, Ho. eauto. Qed.

Lemma keeps_scan (i pos : nat) (key : string) (s : t T) : keeps s (scan T i pos key s).
Proof. destruct (scan_keeps_pool T i pos key s). apply keeps_same; assumption. Qed.

Lemma keeps_deleted (k : string) (s s' : t T) :
  pool s' = mapDelete k (pool s) -> objects s' = objects s -> keeps s s'.
Proof.
  intros Hp Ho. unfold keeps. rewrite Hp, Ho. split; [|eauto].
  intros pos k' obj. apply mapDelete_sub.
Qed.

Lemma wellKeyed_made (i : nat) (res : outcome T) (now : Z) (s : t T) :
  wellKeyed s -> wellKeyed (made T i res now s).
Proof.
  intros Hw. unfold made.
  destruct (calls s !! i) as [[pos obj|k|o| |o|e]|]; auto.
  destruct res as [c|e]; [|exact Hw].
  destruct Hw as [Hf Hu]. split; simpl.
  - intros pos k' obj Hl. apply mapSet_from in Hl as [[-> ->]|Hl].
    + rewrite lookup_app_r by lia. rewrite Nat.sub_diag. simpl. eauto.
    + destruct (Hf pos k' obj Hl) as (c' & Hc' & Hid). exists c'.
      split; [|exact Hid]. apply lookup_app_l_Some, Hc'.
  - apply uniqueKeys_mapSet, Hu.
Qed.

Lemma wellKeyed_filled (j : nat) (res : outcome T) (now : Z) (s : t T) :
  wellKeyed s -> wellKeyed (filled T j res now s).
Proof.
  intros Hw. unfold filled.
  destruct (tasks s !! j) as [[more| | |key owner|o|nw ps o|nw ps|o| |e]|]; auto.
  destruct res as [c|e]; [|exact Hw].
  destruct Hw as [Hf Hu]. split; simpl.
  - intros pos k' obj Hl. apply mapSet_from in Hl as [[-> ->]|Hl].
    + rewrite lookup_app_r by lia. rewrite Nat.sub_diag. simpl. eauto.
    + destruct (Hf pos k' obj Hl) as (c' & Hc' & Hid). exists c'.
      split; [|exact Hid]. apply lookup_app_l_Some, Hc'.
  - apply uniqueKeys_mapSet, Hu.
Qed.

Lemma keeps_sweep (j : nat) (now : Z) (pos : nat) (s : t T) :
  keeps s (sweep T j now pos s).
Proof.
  destruct (sweep_fields j now pos s) as (Hp & Ho & _). apply keeps_same; assumption.
Qed.

Lemma keeps_destroy (obj : nat) (res : outcome unit) (s : t T) :
  keeps s (fst (destroy obj res s)).
Proof.
  unfold destroy. destruct res as [u|e]; [|apply keeps_refl].
  destruct (objects s !! obj) as [c|]; [|apply keeps_refl].
  apply (keeps_deleted (id T c)); reflexivity.
Qed.

Lemma wellKeyed_step (s : t T) (e : Event T) : wellKeyed s -> wellKeyed (step s e).
Proof.
  intros Hw.
  destruct e as [key|i verdict now key|i res now|i|i|obj now
                |keys|j res now|j|j now|obj|j res|j]; simpl;
    [| | | | | |exact Hw|apply wellKeyed_filled, Hw| | |exact Hw| |].
  7: { unfold initialized.
       destruct (tasks s !! j) as [[[|more]| | |key owner|o|nw ps o|nw ps|o| |e]|];
         exact Hw. }
  7: { unfold cleanupTick.
       destruct (tasks s !! j) as [[more| | |key owner|o|nw ps o|nw ps|o| |e]|];
         try exact Hw.
       eapply keeps_wellKeyed; [|exact Hw].
       eapply keeps_trans; [|apply keeps_sweep]. apply keeps_same; reflexivity. }
  7: { unfold destroyed.
       destruct (tasks s !! j) as [[more| | |key owner|o|nw ps o|nw ps|o| |e]|];
         try exact Hw.
       - pose proof (keeps_destroy o res s) as Hk.
         destruct (destroy o res s) as [s' [u|e]]; simpl in Hk;
           (eapply keeps_wellKeyed; [|exact Hw]);
           (eapply keeps_trans; [exact Hk|apply keeps_same; reflexivity]).
       - pose proof (keeps_destroy o res s) as Hk.
         destruct (destroy o res s) as [s' [u|e]]; simpl in Hk;
           (eapply keeps_wellKeyed; [|exact Hw]);
           (eapply keeps_trans; [exact Hk|apply keeps_same; reflexivity]). }
  7: { unfold swept.
       destruct (tasks s !! j) as [[more| | |key owner|o|nw ps o|nw ps|o| |e]|];
         try exact Hw.
       eapply keeps_wellKeyed; [apply keeps_sweep|exact Hw]. }
  - unfold acquire. eapply keeps_wellKeyed; [|exact Hw].
    eapply keeps_trans; [|apply keeps_scan]. apply keeps_same; reflexivity.
  - unfold validated.
    destruct (calls s !! i) as [[pos obj|k|o| |o|e]|]; auto.
    destruct verdict as [[]|e].
    + eapply keeps_wellKeyed; [|exact Hw].
      eapply keeps_trans; [apply (keeps_setInUse obj true)|].
      eapply keeps_trans; [apply (keeps_setLastUsed obj now)|].
      apply keeps_same; reflexivity.
    + eapply keeps_wellKeyed; [apply keeps_scan|exact Hw].
    + destruct (objects s !! obj) as [c|]; auto.
      eapply keeps_wellKeyed; [|exact Hw].
      eapply keeps_trans; [|apply keeps_scan].
      apply (keeps_deleted (id T c)); reflexivity.
  - apply wellKeyed_made, Hw.
  - unfold resume. destruct (calls s !! i) as [[pos obj|k|o| |o|e]|]; auto.
    eapply keeps_wellKeyed; [|exact Hw].
    eapply keeps_trans; [apply (keeps_setInUse o true)|].
    apply keeps_same; reflexivity.
  - unfold timedOut. destruct (decide (i ∈ waitQueue s)); exact Hw.
  - unfold release. eapply keeps_wellKeyed; [|exact Hw].
    eapply keeps_trans; [apply (keeps_setInUse obj false)|].
    eapply keeps_trans; [apply (keeps_setLastUsed obj now)|].
    destruct (waitQueue (setLastUsed T obj now (setInUse T obj false s)))
      as [|waiter rest].
    + apply keeps_same; reflexivity.
    + eapply keeps_trans; [|apply keeps_same; reflexivity].
      eapply keeps_trans; [|apply (keeps_setInUse obj true)].
      apply keeps_same; reflexivity.
Qed.

Lemma wellKeyed_create (o : PartialOptions) : wellKeyed (create (T := T) o).
Proof.
  split.
  - intros pos k obj Hl. destruct pos; discriminate.
  - intros p1 p2 k o1 o2 Hl. destruct p1; discriminate.
Qed.

(** Every state of a pool that began empty is well keyed. *)
Lemma wellKeyed_run (es : list (Event T)) :
  forall s : t T, wellKeyed s -> wellKeyed (run s es).
Proof.
  induction es as [|e es IH]; intros s Hw; simpl; [exact Hw|].
  apply IH, wellKeyed_step, Hw.
Qed.

(** *** Cleanup *)

Lemma destroy_done (obj : nat) (c : PoolConnection T) (s : t T) :
  objects s !! obj = Some c ->
  destroy obj (Returned tt) s
  = (emitEvent T "connection:destroyed" obj
       {| objects := objects s; pool := mapDelete (id T c) (pool s);
          waitQueue := waitQueue s; options := options s;
          calls := calls s; emittedEvents := emittedEvents T s;
          tasks := tasks s; cleanupInterval := cleanupInterval s |},
     Returned tt).
Proof. intros Hc. unfold destroy. rewrite Hc. reflexivity. Qed.

Lemma destroy_failed (obj : nat) (e : string) (s : t T) :
  destroy obj (Threw e) s = (s, Threw e).
Proof. reflexivity. Qed.

Lemma firstStale_found (now : Z) (s : t T) (entries : list (option (string * nat))) :
  forall pos p obj,
    firstStale T now s entries pos = Some (p, obj) ->
    (pos <= p)%nat
    /\ exists k c, entries !! (p - pos)%nat = Some (Some (k, obj))
                   /\ objects s !! obj = Some c
                   /\ idleTooLong T now s c = true.
Proof.
  induction entries as [|[[k o]|] rest IH]; intros pos p obj; simpl; [discriminate| |].
  - destruct (objects s !! o) as [c|] eqn:Ec.
    + destruct (idleTooLong T now s c) eqn:Ei.
      * intros Hf. injection Hf as <- <-. split; [lia|].
        rewrite Nat.sub_diag. simpl. eauto.
      * intros Hf. destruct (IH (S pos) p obj Hf) as (Hle & k' & c' & Hl & Hc & Hi).
        split; [lia|]. exists k', c'. split; [|auto].
        replace (p - pos)%nat with (S (p - S pos)) by lia. exact Hl.
    + intros Hf. destruct (IH (S pos) p obj Hf) as (Hle & k' & c' & Hl & Hc & Hi).
      split; [lia|]. exists k', c'. split; [|auto].
      replace (p - pos)%nat with (S (p - S pos)) by lia. exact Hl.
  - intros Hf. destruct (IH (S pos) p obj Hf) as (Hle & k' & c' & Hl & Hc & Hi).
    split; [lia|]. exists k', c'. split; [|auto].
    replace (p - pos)%nat with (S (p - S pos)) by lia. exact Hl.
Qed.

(** Where [cleanup] stops, the test has just been made. *)
Lemma sweep_cleaning (j : nat) (now : Z) (pos : nat) (s : t T) :
  match tasks s !! j with
  | Some (Swept _ _) | None => True
  | Some _ => False
  end ->
  cleaning j now (sweep T j now pos s).
Proof.
  intros Hj. unfold sweep, cleaning.
  destruct (tasks s !! j) as [k0|] eqn:Ej.
  - assert (Hlt : (j < length (tasks s))%nat) by (eapply lookup_lt_Some; eauto).
    destruct (firstStale T now s (drop pos (pool s)) pos) as [[q obj]|] eqn:Ef; simpl.
    + rewrite list_lookup_insert_eq by exact Hlt.
      split; [reflexivity|].
      destruct (firstStale_found now s _ pos q obj Ef) as (Hle & k & c & Hl & Hc & Hi).
      rewrite lookup_drop in Hl. replace (pos + (q - pos))%nat with q in Hl by lia.
      exists k, c. auto.
    + rewrite list_lookup_insert_eq by exact Hlt. exact I.
  - destruct (firstStale T now s (drop pos (pool s)) pos) as [[q obj]|]; simpl.
    + assert (Hn : <[j := Sweeping now q obj]> (tasks s) !! j = None)
        by (apply list_lookup_insert_None; exact Ej).
      rewrite Hn. exact I.
    + assert (Hn : <[j := Finished]> (tasks s) !! j = None)
        by (apply list_lookup_insert_None; exact Ej).
      rewrite Hn. exact I.
Qed.

Lemma cleanupTick_cleaning (j : nat) (now : Z) (s : t T) :
  cleaning (length (tasks s)) now (cleanupTick T j now s).
Proof.
  unfold cleanupTick.
  assert (Hnone : cleaning (length (tasks s)) now s).
  { unfold cleaning. rewrite (proj2 (lookup_ge_None (tasks s) (length (tasks s))));
      [exact I|lia]. }
  destruct (tasks s !! j) as [[more| | |key owner|o|nw ps o|nw ps|o| |e]|];
    try exact Hnone.
  apply sweep_cleaning. simpl.
  rewrite lookup_app_r by lia. rewrite Nat.sub_diag. exact I.
Qed.

Lemma cleanupTick_fields (j : nat) (now : Z) (s : t T) :
  pool (cleanupTick T j now s) = pool s
  /\ objects (cleanupTick T j now s) = objects s
  /\ calls (cleanupTick T j now s) = calls s
  /\ waitQueue (cleanupTick T j now s) = waitQueue s
  /\ options (cleanupTick T j now s) = options s.
Proof.
  unfold cleanupTick.
  destruct (tasks s !! j) as [[more| | |key owner|o|nw ps o|nw ps|o| |e]|];
    try (repeat split; reflexivity).
  rewrite sweep_options.
  destruct (sweep_fields (length (tasks s)) now 0
              {| objects := objects s; pool := pool s; waitQueue := waitQueue s;
                 options := options s; calls := calls s;
                 emittedEvents := emittedEvents T s;
                 tasks := tasks s ++ [Swept now 0];
                 cleanupInterval := cleanupInterval s |}) as (-> & -> & -> & ->).
  repeat split.
Qed.

(** One step of a run of [cleanup] that nothing interrupts: the entry
    that is deleted has just passed the test. *)
Lemma alone_step (j : nat) (now : Z) (s : t T) (e : Event T) :
  cleaning j now s -> ofTask j e = true ->
  cleaning j now (step s e)
  /\ Z.min (minConnections (options s)) (Z.of_nat (size s))
     <= Z.of_nat (size (step s e))
  /\ (size (step s e) <= size s)%nat
  /\ options (step s e) = options s
  /\ objects (step s e) = objects s
  /\ calls (step s e) = calls s
  /\ waitQueue (step s e) = waitQueue s
  /\ (wellKeyed s ->
      forall pos k obj c,
        pool s !! pos = Some (Some (k, obj)) ->
        objects s !! obj = Some c ->
        inUse T c = true \/ now - lastUsed T c <= idleTimeoutMs (options s) ->
        pool (step s e) !! pos = Some (Some (k, obj))).
Proof.
  intros Hcl He.
  assert (Hsame : cleaning j now s
                  /\ Z.min (minConnections (options s)) (Z.of_nat (size s))
                     <= Z.of_nat (size s)
                  /\ (size s <= size s)%nat
                  /\ options s = options s /\ objects s = objects s
                  /\ calls s = calls s /\ waitQueue s = waitQueue s
                  /\ (wellKeyed s ->
                      forall pos k obj c,
                        pool s !! pos = Some (Some (k, obj)) ->
                        objects s !! obj = Some c ->
                        inUse T c = true
                        \/ now - lastUsed T c <= idleTimeoutMs (options s) ->
                        pool s !! pos = Some (Some (k, obj)))).
  { repeat split; auto; lia. }
  destruct e as [key|i verdict nw key|i res nw|i|i|obj nw
                |keys|j' res nw|j'|j' nw|obj|j' res|j']; try discriminate;
    simpl in He; apply Nat.eqb_eq in He; subst j'; simpl.
  - (* the destroyer settles *)
    unfold destroyed. unfold cleaning in Hcl.
    destruct (tasks s !! j) as [[more| | |key owner|o|nw ps o|nw ps|o| |e]|] eqn:Ej;
      try exact Hsame; try contradiction.
    destruct Hcl as (-> & k0 & c0 & Hp0 & Hc0 & Hi0).
    assert (Hlt : (j < length (tasks s))%nat) by (eapply lookup_lt_Some; eauto).
    destruct res as [[]|e].
    + rewrite (destroy_done o c0 s Hc0).
      set (s1 := emitEvent T "connection:destroyed" o _).
      assert (Hsize : (size s <= S (size s1))%nat) by apply mapDelete_size.
      assert (Hsize' : (size s1 <= size s)%nat) by apply size_mapDelete.
      unfold idleTooLong in Hi0.
      apply andb_prop in Hi0 as [Hi0 Hstale]. apply andb_prop in Hi0 as [Hidle Hmin].
      apply Z.ltb_lt in Hmin. apply Z.ltb_lt in Hstale. apply negb_true_iff in Hidle.
      split; [|split; [|split; [|repeat split]]].
      * unfold cleaning; simpl. rewrite list_lookup_insert_eq by exact Hlt. reflexivity.
      * change (size (setTask T j (Swept now (S ps)) s1)) with (size s1). lia.
      * exact Hsize'.
      * intros [Hf Hu] pos k obj c Hp Hc Hkeep.
        change (pool (setTask T j (Swept now (S ps)) s1))
          with (mapDelete (id T c0) (pool s)).
        apply mapDelete_other; [exact Hp|].
        intros ->.
        destruct (Hf ps k0 o Hp0) as (c' & Hc' & Hid).
        assert (c' = c0) by congruence. subst c'.
        rewrite Hid in Hp.
        assert (pos = ps) by (apply (Hu pos ps k0 obj o Hp Hp0)). subst ps.
        assert (obj = o) by congruence. subst o.
        assert (c = c0) by congruence. subst c0.
        destruct Hkeep as [Hbusy|Hrecent]; [congruence|lia].
    + rewrite destroy_failed.
      split; [|exact (proj2 Hsame)].
      unfold cleaning; simpl. rewrite list_lookup_insert_eq by exact Hlt. exact I.
  - (* [cleanup] resumes *)
    unfold swept. pose proof Hcl as Hcl0. unfold cleaning in Hcl.
    destruct (tasks s !! j) as [[more| | |key owner|o|nw ps o|nw ps|o| |e]|] eqn:Ej;
      try exact Hsame; try contradiction.
    subst nw.
    destruct (sweep_fields j now ps s) as (Hp & Ho & Hc & Hw).
    split; [apply sweep_cleaning; rewrite Ej; exact I|].
    rewrite sweep_options. unfold size. rewrite Hp, Ho, Hc, Hw.
    repeat split; auto; lia.
Qed.

(** A run of [cleanup] that nothing interrupts, from the state in
    which the timer has fired. *)
Lemma alone_run (j : nat) (now : Z) (es : list (Event T)) :
  forall s : t T,
    cleaning j now s -> Forall (fun e => ofTask j e = true) es ->
    Z.min (minConnections (options s)) (Z.of_nat (size s))
    <= Z.of_nat (size (run s es))
    /\ (size (run s es) <= size s)%nat
    /\ objects (run s es) = objects s
    /\ calls (run s es) = calls s
    /\ waitQueue (run s es) = waitQueue s
    /\ (wellKeyed s ->
        forall pos k obj c,
          pool s !! pos = Some (Some (k, obj)) ->
          objects s !! obj = Some c ->
          inUse T c = true \/ now - lastUsed T c <= idleTimeoutMs (options s) ->
          pool (run s es) !! pos = Some (Some (k, obj))).
Proof.
  induction es as [|e es IH]; intros s Hcl Hall; simpl.
  - repeat split; auto; lia.
  - apply Forall_cons in Hall as [He Hall].
    destruct (alone_step j now s e Hcl He)
      as (Hcl' & Hmin & Hle & Hopt & Hobj & Hcalls & Hwq & Hsp).
    destruct (IH (step s e) Hcl' Hall) as (Hmin' & Hle' & Hobj' & Hcalls' & Hwq' & Hsp').
    rewrite Hopt in Hmin'.
    split; [lia|]. split; [lia|].
    split; [congruence|]. split; [congruence|]. split; [congruence|].
    intros Hw pos k obj c Hp Hc Hkeep.
    apply (Hsp' (wellKeyed_step s e Hw) pos k obj c).
    + apply (Hsp Hw pos k obj c Hp Hc Hkeep).
    + rewrite Hobj. exact Hc.
    + rewrite Hopt. exact Hkeep.
Qed.

(** X25. A run of [cleanup] during which nothing else happens to the
    pool (from the tick of the timer on, only the destroyer calls of
    this run settle and the run resumes) never takes the map below
    [minConnections], nor below where it was if it was below already;
    it adds nothing to the map and touches neither the objects nor the
    calls of [acquire] and the wait queue. *)
Theorem cleanup_keeps_the_minimum
    (s : t T) (j : nat) (now : Z) (es : list (Event T)) :
  Forall (fun e => ofTask (length (tasks s)) e = true) es ->
  let s' := run s (ECleanup j now :: es) in
  Z.min (minConnections (options s)) (Z.of_nat (size s)) <= Z.of_nat (size s')
  /\ (size s' <= size s)%nat
  /\ objects s' = objects s /\ calls s' = calls s /\ waitQueue s' = waitQueue s.
Proof.
  intros Hall. cbv zeta. simpl.
  destruct (alone_run (length (tasks s)) now es (cleanupTick T j now s)
              (cleanupTick_cleaning j now s) Hall)
    as (Hmin & Hle & Hobj & Hcalls & Hwq & _).
  destruct (cleanupTick_fields j now s) as (Hp & Ho & Hc & Hw & Hopt).
  rewrite Hopt in Hmin. unfold size in Hmin, Hle. rewrite Hp in Hmin, Hle.
  unfold size. rewrite Hobj, Hcalls, Hwq, Ho, Hc, Hw. auto.
Qed.

(** X26. A run of [cleanup] during which nothing else happens to the
    pool evicts only what is idle and stale: in a well-keyed pool a
    connection that is in use, or was last used within
    [idleTimeoutMs], keeps its entry. *)
Theorem cleanup_spares_busy_and_recent
    (s : t T) (j : nat) (now : Z) (es : list (Event T))
    (pos : nat) (k : string) (obj : nat) (c : PoolConnection T) :
  Forall (fun e => ofTask (length (tasks s)) e = true) es ->
  wellKeyed s ->
  pool s !! pos = Some (Some (k, obj)) ->
  objects s !! obj = Some c ->
  inUse T c = true \/ now - lastUsed T c <= idleTimeoutMs (options s) ->
  pool (run s (ECleanup j now :: es)) !! pos = Some (Some (k, obj)).
Proof.
  intros Hall Hw Hp Hc Hkeep. simpl.
  destruct (alone_run (length (tasks s)) now es (cleanupTick T j now s)
              (cleanupTick_cleaning j now s) Hall)
    as (_ & _ & _ & _ & _ & Hsp).
  destruct (cleanupTick_fields j now s) as (Hp' & Ho' & _ & _ & Hopt).
  apply (Hsp (wellKeyed_step s (ECleanup j now) Hw) pos k obj c).
  - rewrite Hp'. exact Hp.
  - rewrite Ho'. exact Hc.
  - rewrite Hopt. exact Hkeep.
Qed.


(** *** Shutdown *)

Lemma reject_kept (ws : list nat) :
  forall (cs : list Acquire) (w : nat),
    cs !! w = Some (Rejected "Pool shutdown") ->
    foldl (fun cs w => <[w := Rejected "Pool shutdown"]> cs) cs ws !! w
    = Some (Rejected "Pool shutdown").
Proof.
  induction ws as [|w0 ws IH]; intros cs w Hc; simpl; [exact Hc|].
  apply IH. destruct (decide (w0 = w)) as [->|Hne].
  - apply list_lookup_insert_eq. eapply lookup_lt_Some, Hc.
  - rewrite list_lookup_insert_ne by exact Hne. exact Hc.
Qed.

Lemma reject_all (ws : list nat) :
  forall (cs : list Acquire) (w : nat),
    w ∈ ws -> is_Some (cs !! w) ->
    foldl (fun cs w => <[w := Rejected "Pool shutdown"]> cs) cs ws !! w
    = Some (Rejected "Pool shutdown").
Proof.
  induction ws as [|w0 ws IH]; intros cs w Hin Hs; [inversion Hin|].
  simpl. apply lookup_lt_is_Some in Hs.
  destruct (decide (w0 = w)) as [->|Hne].
  - apply reject_kept. apply list_lookup_insert_eq, Hs.
  - apply IH.
    + apply elem_of_cons in Hin as [->|Hin]; [congruence|exact Hin].
    + apply lookup_lt_is_Some. rewrite length_insert. exact Hs.
Qed.

Lemma destroyAll_clears (destroyer : T -> outcome unit) (positions : list nat) :
  (forall c, destroyer c = Returned tt) ->
  forall s : t T,
    wellKeyed s ->
    let r := destroyAll destroyer positions s in
    snd r = Returned tt
    /\ objects (fst r) = objects s /\ calls (fst r) = calls s
    /\ waitQueue (fst r) = waitQueue s
    /\ length (pool (fst r)) = length (pool s)
    /\ (forall pos, (pos < length (pool s))%nat ->
          pos ∈ positions \/ pool s !! pos = Some None ->
          pool (fst r) !! pos = Some None).
Proof.
  intros Hok. induction positions as [|p0 rest IH]; intros s Hw; cbn [destroyAll].
  - cbv zeta. cbn [fst snd]. repeat split.
    intros pos _ [Hin|Hn]; [inversion Hin|exact Hn].
  - assert (Hskip : pool s !! p0 = Some None \/ pool s !! p0 = None \/
                    (exists k obj, pool s !! p0 = Some (Some (k, obj))
                                   /\ objects s !! obj = None) ->
                    let r := destroyAll destroyer rest s in
                    snd r = Returned tt
                    /\ objects (fst r) = objects s /\ calls (fst r) = calls s
                    /\ waitQueue (fst r) = waitQueue s
                    /\ length (pool (fst r)) = length (pool s)
                    /\ (forall pos, (pos < length (pool s))%nat ->
                          pos ∈ p0 :: rest \/ pool s !! pos = Some None ->
                          pool (fst r) !! pos = Some None)).
    { intros Hcase. destruct (IH s Hw) as (H1 & H2 & H3 & H4 & H5 & H6).
      cbv zeta. repeat split; try assumption.
      intros pos Hlt [Hin|Hn]; [|apply H6; auto].
      apply elem_of_cons in Hin as [->|Hin]; [|apply H6; auto].
      destruct Hcase as [Hn|[Hn|(k & obj & Hp & Ho)]].
      - apply H6; auto.
      - apply lookup_ge_None in Hn. lia.
      - destruct Hw as [Hf _]. destruct (Hf p0 k obj Hp) as (c & Hc & _). congruence. }
    destruct (pool s !! p0) as [[[k obj]|]|] eqn:Ep0; [|apply Hskip; auto|apply Hskip; auto].
    destruct (objects s !! obj) as [c|] eqn:Ec; [|apply Hskip; eauto 6].
    clear Hskip. rewrite (Hok (connection T c)), (destroy_done obj c s Ec).
    set (s1 := emitEvent T "connection:destroyed" obj _).
    assert (Hk : keeps s s1) by (apply (keeps_deleted (id T c)); reflexivity).
    destruct (IH s1 (keeps_wellKeyed s s1 Hk Hw)) as (H1 & H2 & H3 & H4 & H5 & H6).
    assert (Hlen : length (pool s1) = length (pool s)) by apply mapDelete_length.
    cbv zeta. repeat split; try assumption; try congruence.
    intros pos Hlt Hcase. apply H6; [lia|].
    destruct Hw as [Hf Hu]. destruct (Hf p0 k obj Ep0) as (c' & Hc' & Hid).
    assert (c' = c) by congruence. subst c'.
    destruct Hcase as [Hin|Hn].
    + apply elem_of_cons in Hin as [->|Hin]; [|auto].
      right. change (pool s1) with (mapDelete (id T c) (pool s)).
      rewrite Hid. apply (mapDelete_hit k (pool s) Hu p0 obj Ep0).
    + right. apply mapDelete_empty, Hn.
Qed.

Lemma clearCleanup_fields (s : t T) :
  pool (clearCleanup T s) = pool s
  /\ objects (clearCleanup T s) = objects s
  /\ calls (clearCleanup T s) = calls s
  /\ waitQueue (clearCleanup T s) = waitQueue s.
Proof.
  unfold clearCleanup. destruct (cleanupInterval s) as [j|]; [|repeat split].
  destruct (tasks s !! j) as [[more| | |key owner|o|nw ps o|nw ps|o| |e]|];
    repeat split.
Qed.

Lemma all_empty_size (l : list (option (string * nat))) :
  (forall pos, (pos < length l)%nat -> l !! pos = Some None) ->
  length (List.filter occupied l) = 0%nat.
Proof.
  induction l as [|e l IH]; intros Hall; simpl; [reflexivity|].
  pose proof (Hall 0%nat ltac:(simpl; lia)) as H0. simpl in H0. injection H0 as ->.
  simpl. apply IH. intros pos Hlt. apply (Hall (S pos)). simpl. lia.
Qed.



End AnyResource.


Lemma settled_acquire_is_final_witness :
  calls (run (run single oneByOne) [EAcquire "k4"; ERelease 0 30]) !! 1%nat
  = Some (Resolved 0).
Proof.
  apply (settled_acquire_is_final nat (run single oneByOne)
           [EAcquire "k4"; ERelease 0 30] 1 (Resolved 0)).
  - reflexivity.
  - reflexivity.
  - vm_compute. intros Hin. inversion Hin.
Defined.

Lemma timed_out_waiter_is_never_served_witness :
  waitQueue (timedOut nat 1 queued) = filter (fun w => w <> 1%nat) (waitQueue queued)
  /\ calls (run (timedOut nat 1 queued) [ERelease 0 20]) !! 1%nat
     = Some (Rejected "Connection acquire timeout").
Proof.
  apply (timed_out_waiter_is_never_served nat queued 1 [ERelease 0 20]).
  - vm_compute. apply list_elem_of_here.
  - vm_compute. eauto.
Defined.

Lemma release_serves_oldest_waiter_witness :
  match waitQueue queued with
  | waiter :: rest =>
      is_Some (calls queued !! waiter) ->
      calls (release nat 0 20 queued) !! waiter = Some (Resolved 0)
      /\ waitQueue (release nat 0 20 queued) = rest
      /\ isInUse (release nat 0 20 queued) 0 = true
  | [] =>
      calls (release nat 0 20 queued) = calls queued
      /\ isInUse (release nat 0 20 queued) 0 = false
  end
  /\ pool (release nat 0 20 queued) = pool queued.
Proof.
  apply (release_serves_oldest_waiter nat 0 20 queued).
  vm_compute. eauto.
Defined.

(** A run of [cleanup] at time 40000 on [threeMade], nothing else
    happening: the two idle connections go, the one in use stays, and
    the run ends; at time 20000 nothing is stale. *)
Example cleanup_at_work :
  size threeMade = 3%nat
  /\ size (run threeMade (ECleanup 0 40000 :: twoSwept 2)) = 1%nat
  /\ holds (run threeMade (ECleanup 0 40000 :: twoSwept 2)) 2 = true
  /\ tasks (run threeMade (ECleanup 0 40000 :: twoSwept 2)) !! 2%nat = Some Finished
  /\ size (run threeMade [ECleanup 0 20000]) = 3%nat.
Proof. vm_compute. auto. Qed.

(** When a call of [acquire] takes the connection between the test of
    [cleanup] and the end of [destroy], the connection is evicted
    although it is in use. *)
Example cleanup_interrupted_by_acquire :
  calls (run threeMade takenMeanwhile) !! 3%nat = Some (Resolved 0)
  /\ isInUse (run threeMade takenMeanwhile) 0 = true
  /\ holds (run threeMade takenMeanwhile) 0 = false.
Proof. vm_compute. auto. Qed.

Lemma cleanup_keeps_the_minimum_witness :
  let s' := run threeMade (ECleanup 0 40000 :: twoSwept 2) in
  Z.min (minConnections (options threeMade)) (Z.of_nat (size threeMade))
  <= Z.of_nat (size s')
  /\ (size s' <= size threeMade)%nat
  /\ objects s' = objects threeMade /\ calls s' = calls threeMade
  /\ waitQueue s' = waitQueue threeMade.
Proof.
  apply (cleanup_keeps_the_minimum nat threeMade 0 40000 (twoSwept 2)).
  repeat constructor.
Defined.

Lemma cleanup_spares_busy_and_recent_witness :
  pool (run threeMade (ECleanup 0 40000 :: twoSwept 2)) !! 2%nat
  = Some (Some ("k3", 2%nat)).
Proof.
  apply (cleanup_spares_busy_and_recent nat threeMade 0 40000 (twoSwept 2) 2 "k3" 2
           {| id := "k3"; connection := 9%nat; inUse := true;
              lastUsed := 8; createdAt := 8 |}).
  - repeat constructor.
  - apply wellKeyed_run, wellKeyed_create.
  - reflexivity.
  - reflexivity.
  - left. reflexivity.
Defined.


End ConnectionPoolMore.
